(** * tools/deobfuscate_worker.py: a shallow embedding and its properties

    The script reverses a string-array obfuscation of a JavaScript worker:
    it locates the bootstrap IIFE, the decoder offset and the string array,
    rotates the array until the bootstrap checksum holds, collects the
    aliases of the decoder [Q] and rewrites every call [alias(0x..)] into
    a string literal.

    Conventions of the embedding.
    - A Python [str] is a list of code points ([list Z]); a Python [int]
      is a [Z].  Indices keep Python's meaning, negative ones included.
    - A raised exception is the [Raise] case of [res]; the exception names
      of the specification are recalled next to each constructor.
    - What the script takes from the Python runtime without defining it
      (the Unicode database behind [\w] and [\d], [repr] of a float) is
      the class [PyRuntime]. *)

From Stdlib Require Import ZArith QArith Qcanon String Ascii DecimalString Lia.
From Stdlib Require Import Floats.SpecFloat.
From stdpp Require Import gmap list.

Local Open Scope Z_scope.

(** ** Exceptions and the result monad *)

Inductive value_error :=
| NotAStringLiteral      (* "Not a JS string literal" *)
| ExpectedOpen           (* "Expected <open> at <start>": PreconditionViolated *)
| UnbalancedBrackets     (* "Unbalanced brackets": UnbalancedStructure *)
| ParseIntFailed         (* "parseInt could not parse": CoercionFailed *)
| InvalidIntLiteral      (* int(): invalid literal *)
| ChrOutOfRange          (* chr(): argument not in range(0x110000) *)
| DigitLimit.            (* str() of an integer above the digit limit *)

Inductive runtime_error :=
| BootstrapNotFound
| InvocationNotFound
| MalformedInvocation
| KExpressionNotFound
| FunctionNotFound
| DecoderNotFound
| ParameterListNotParsed
| OffsetNotFound
| ArrayLiteralNotFound
| RotationDidNotConverge.

Inductive exn :=
| ValueError (why : value_error)
| RuntimeError (why : runtime_error)
| IndexError             (* IndexOutOfRange *)
| TypeError
| ZeroDivisionError
| OverflowError.

Inductive res (A : Type) :=
| Ok (a : A)
| Raise (e : exn).
Arguments Ok {A} a.
Arguments Raise {A} e.

#[global] Instance res_ret : MRet res := fun A a => Ok a.
#[global] Instance res_fmap : FMap res := fun A B f m =>
  match m with Ok a => Ok (f a) | Raise e => Raise e end.
#[global] Instance res_bind : MBind res := fun A B f m =>
  match m with Ok a => f a | Raise e => Raise e end.

(** What the script takes from the Python runtime. *)
Class PyRuntime := {
  (** alphanumeric code points above ASCII ([str.isalnum]) *)
  uni_alnum : Z → bool;
  (** value of a decimal digit above ASCII (category Nd) *)
  uni_decimal : Z → option Z;
  (** [repr] of a float *)
  float_repr : spec_float → list Z
}.

(** ** Python built-ins used by the script *)

Module Py.

Abbreviation str := (list Z).

(** A string literal of this file as a Python string (ASCII only). *)
Definition lit (s : string) : str :=
  (fun a => Z.of_N (N_of_ascii a)) <$> list_ascii_of_string s.

Definition len {A} (l : list A) : Z := Z.of_nat (length l).

(** [l[i]]: a negative index counts from the end. *)
Definition index {A} (l : list A) (i : Z) : res A :=
  let j := if i <? 0 then i + len l else i in
  if j <? 0 then Raise IndexError
  else match l !! Z.to_nat j with
       | Some x => Ok x
       | None => Raise IndexError
       end.

(** Bound of a slice: negative bounds count from the end, then clamp. *)
Definition clamp {A} (l : list A) (i : Z) : nat :=
  let j := if i <? 0 then i + len l else i in
  Z.to_nat (Z.min (Z.max j 0) (len l)).

(** [l[a:b]] *)
Definition slice {A} (l : list A) (a b : Z) : list A :=
  take (clamp l b - clamp l a)%nat (drop (clamp l a) l).

(** [l[a:]] *)
Definition slice_from {A} (l : list A) (a : Z) : list A :=
  drop (clamp l a) l.

Fixpoint starts_with (sub s : str) : bool :=
  match sub, s with
  | [], _ => true
  | _ :: _, [] => false
  | a :: sub', b :: s' => (a =? b) && starts_with sub' s'
  end.

Fixpoint find_from (sub s : str) (i : Z) : Z :=
  if starts_with sub s then i
  else match s with
       | [] => -1
       | _ :: s' => find_from sub s' (i + 1)
       end.

(** [s.find(sub, start)] for [0 <= start]. *)
Definition find (s sub : str) (start : Z) : Z :=
  if len s <? start then -1
  else find_from sub (drop (Z.to_nat start) s) start.

(** [Py_UNICODE_ISSPACE]: what [str.strip], [str.isspace] and the
    pattern [\s] call white space. *)
Definition isspace (c : Z) : bool :=
  ((9 <=? c) && (c <=? 13)) || ((28 <=? c) && (c <=? 32))
  || (c =? 133) || (c =? 160) || (c =? 5760)
  || ((8192 <=? c) && (c <=? 8202))
  || (c =? 8232) || (c =? 8233) || (c =? 8239) || (c =? 8287)
  || (c =? 12288).

Fixpoint lstrip (s : str) : str :=
  match s with
  | c :: s' => if isspace c then lstrip s' else s
  | [] => []
  end.

(** [s.strip()] *)
Definition strip (s : str) : str := reverse (lstrip (reverse (lstrip s))).

(** [chr(n)]: the argument is converted to a C int, which fails with
    OverflowError outside 32 bits, before its range is checked. *)
Definition chr (n : Z) : res Z :=
  if (0 <=? n) && (n <=? 1114111) then Ok n
  else if (-2147483648 <=? n) && (n <=? 2147483647)
  then Raise (ValueError ChrOutOfRange)
  else Raise OverflowError.

(** [_PyLong_DigitValue]: the value of a digit or letter, 37 otherwise. *)
Definition digit_value (c : Z) : Z :=
  if (48 <=? c) && (c <=? 57) then c - 48
  else if (97 <=? c) && (c <=? 122) then c - 97 + 10
  else if (65 <=? c) && (c <=? 90) then c - 65 + 10
  else 37.

(** [Py_ISSPACE]: the ASCII white space of the C parser of [int]. *)
Definition c_isspace (c : Z) : bool :=
  ((9 <=? c) && (c <=? 13)) || (c =? 32).

Fixpoint skip_c_space (s : str) : str :=
  match s with
  | c :: s' => if c_isspace c then skip_c_space s' else s
  | [] => []
  end.

(** The digit loop of [PyLong_FromString]: digits below [base] and
    single underscores between them.  Returns the value, the number of
    digits and the unread text. *)
Fixpoint int_digits (base : Z) (p : str) (prev_underscore : bool)
    (acc : Z) (digits : Z) : option (Z * Z * str) :=
  match p with
  | c :: p' =>
    if c =? 95 then
      if prev_underscore then None
      else int_digits base p' true acc digits
    else if digit_value c <? base then
      int_digits base p' false (acc * base + digit_value c) (digits + 1)
    else if prev_underscore then None
    else Some (acc, digits, p)
  | [] => if prev_underscore then None else Some (acc, digits, [])
  end.

(** A zero followed by one of the two letters of a base prefix. *)
Definition prefixed (t : str) (lower upper : Z) : bool :=
  match t with
  | z :: x :: _ => (z =? 48) && ((x =? lower) || (x =? upper))
  | _ => false
  end.

(** [sys.int_info.default_max_str_digits] *)
Definition max_str_digits : Z := 4300.

Section WithRuntime.
Context `{PyRuntime}.

(** [_PyUnicode_TransformDecimalAndSpaceToASCII]: white space becomes
    a blank and a decimal digit its ASCII digit; [None] stands for the
    question mark no number contains. *)
Fixpoint to_ascii_decimal (s : str) : option str :=
  match s with
  | [] => Some []
  | c :: s' =>
    c' ← (if c <? 127 then Some c
          else if isspace c then Some 32
          else (λ d, 48 + d) <$> uni_decimal c);
    (c' ::.) <$> to_ascii_decimal s'
  end.

(** [int(s, base)] for [base] 0 or 2..36. *)
Definition int (s : str) (base : Z) : res Z :=
  let invalid := Raise (ValueError InvalidIntLiteral) in
  let all_ascii := forallb (λ c, c <? 128) s in
  match (if all_ascii then Some s else to_ascii_decimal s) with
  | None => invalid
  | Some t =>
    let t := skip_c_space t in
    let '(negative, t) :=
      match t with
      | c :: t' =>
        if c =? 43 then (false, t')
        else if c =? 45 then (true, t')
        else (false, t)
      | [] => (false, t)
      end in
    let '(base, error_if_nonzero) :=
      if base =? 0 then
        if negb (starts_with [48] t) then (10, false)
        else if prefixed t 120 88 then (16, false)
        else if prefixed t 111 79 then (8, false)
        else if prefixed t 98 66 then (2, false)
        else (10, true)
      else (base, false) in
    let t :=
      if ((base =? 16) && prefixed t 120 88)
         || ((base =? 8) && prefixed t 111 79)
         || ((base =? 2) && prefixed t 98 66)
      then if starts_with [95] (drop 2 t) then drop 3 t else drop 2 t
      else t in
    if starts_with [95] t then invalid
    else
      match int_digits base t false 0 0 with
      | None => invalid
      | Some (z, digits, t') =>
        let binary := (base =? 2) || (base =? 4) || (base =? 8)
                      || (base =? 16) || (base =? 32) in
        if digits =? 0 then invalid
        else if negb binary && (max_str_digits <? digits) then invalid
        else if error_if_nonzero && negb (z =? 0) then invalid
        else match skip_c_space t' with
             | [] => Ok (if negative then - z else z)
             | _ => invalid
             end
      end
  end.
End WithRuntime.

End Py.

(** ** The decode function of [main] *)

(** [def decode(num): return arr[num - offset]] *)
Definition decode (arr : list Py.str) (offset : Z) (num : Z) : res Py.str :=
  Py.index arr (num - offset).

(** ** The balanced-region scanner *)

Definition backslash : Z := 92.
Definition squote : Z := 39.
Definition dquote : Z := 34.

(** [ch] is one of the two quote characters of the script's tuple. *)
Definition is_quote (ch : Z) : bool := (ch =? squote) || (ch =? dquote).

(** The [while i < len(js)] loop of [_extract_balanced]; [rest] holds the
    characters [js[i]], [js[i+1]], ... still to be read.  [Some e] is the
    second component of the returned pair, [None] is falling out of the
    loop. *)
Fixpoint scan_loop (open_ch close_ch : Z) (rest : Py.str) (i depth : Z)
    (in_str : option Z) (escape : bool) : option Z :=
  match rest with
  | [] => None
  | ch :: rest' =>
    match in_str with
    | Some q =>
      if escape then scan_loop open_ch close_ch rest' (i + 1) depth (Some q) false
      else if ch =? backslash then
        scan_loop open_ch close_ch rest' (i + 1) depth (Some q) true
      else if ch =? q then
        scan_loop open_ch close_ch rest' (i + 1) depth None escape
      else scan_loop open_ch close_ch rest' (i + 1) depth (Some q) escape
    | None =>
      if is_quote ch then
        scan_loop open_ch close_ch rest' (i + 1) depth (Some ch) escape
      else if ch =? open_ch then
        scan_loop open_ch close_ch rest' (i + 1) (depth + 1) None escape
      else if ch =? close_ch then
        if depth - 1 =? 0 then Some (i + 1)
        else scan_loop open_ch close_ch rest' (i + 1) (depth - 1) None escape
      else scan_loop open_ch close_ch rest' (i + 1) depth None escape
    end
  end.

(** The characters [js[start]], [js[start+1]], ..., [js[len(js)-1]] the
    loop reads: a negative [start] begins near the end of the text and
    runs into the text a second time. *)
Definition chars_from (js : Py.str) (start : Z) : Py.str :=
  if start <? 0 then drop (Z.to_nat (start + Py.len js)) js ++ js
  else drop (Z.to_nat start) js.

Definition _extract_balanced (js : Py.str) (start : Z) (open_ch close_ch : Z)
    : res (Py.str * Z) :=
  ch0 ← Py.index js start;
  if negb (ch0 =? open_ch) then Raise (ValueError ExpectedOpen)
  else match scan_loop open_ch close_ch (chars_from js start) start 0 None false with
       | Some e => Ok (Py.slice js start e, e)
       | None => Raise (ValueError UnbalancedBrackets)
       end.

(** The structure the scanner is meant to recognise, as a grammar:
    a region is [open items close]; an item is a quoted string (opaque),
    a nested region, or any other character. *)
Section Grammar.
Variables open_ch close_ch : Z.

(** Body of a string quoted by [q]: escaped pairs and characters other
    than the quote and the backslash. *)
Inductive StrBody (q : Z) : Py.str → Prop :=
| sb_nil : StrBody q []
| sb_esc c l : StrBody q l → StrBody q (backslash :: c :: l)
| sb_chr c l : c ≠ q → c ≠ backslash → StrBody q l → StrBody q (c :: l).

Inductive Items : Py.str → Prop :=
| items_nil : Items []
| items_plain c l :
    is_quote c = false → c ≠ open_ch → c ≠ close_ch →
    Items l → Items (c :: l)
| items_str q b l :
    is_quote q = true → StrBody q b → Items l → Items (q :: b ++ q :: l)
| items_nest r l :
    Items r → Items l → Items (open_ch :: r ++ close_ch :: l).

Definition Balanced (region : Py.str) : Prop :=
  ∃ body, Items body ∧ region = open_ch :: body ++ [close_ch].

(** [Closes d l]: [l] closes [d] pending regions, the last one with its
    last character. *)
Inductive Closes : nat → Py.str → Prop :=
| closes_O : Closes 0 []
| closes_S d r l : Items r → Closes d l → Closes (S d) (r ++ close_ch :: l).

(** Two distinct characters, neither of them a quote. *)
Definition proper_pair : Prop :=
  open_ch ≠ close_ch ∧ is_quote open_ch = false ∧ is_quote close_ch = false.
End Grammar.

(** ** The string-literal decoder *)

Section Literals.
Context `{PyRuntime}.

(** The [while i < len(body)] loop of [_decode_js_string_literal];
    the argument is [body[i:]] and the result what the loop appends to
    [out] from there on. *)
Fixpoint decode_body (body : Py.str) : res Py.str :=
  match body with
  | [] => Ok []
  | ch :: rest =>
    if negb (ch =? backslash) then (ch ::.) <$> decode_body rest
    else
      match rest with
      | [] => Ok []                                   (* break *)
      | esc :: rest =>
        let simple (c : Z) := (c ::.) <$> decode_body rest in
        if esc =? 120 then                            (* x *)
          match rest with
          | h1 :: h2 :: rest2 =>
            n ← Py.int [h1; h2] 16;
            c ← Py.chr n;
            (c ::.) <$> decode_body rest2
          | _ => simple esc       (* i + 2 <= len(body) fails: last else *)
          end
        else if esc =? 117 then                       (* u *)
          let four :=
            match rest with
            | h1 :: h2 :: h3 :: h4 :: rest4 =>
              n ← Py.int [h1; h2; h3; h4] 16;
              c ← Py.chr n;
              (c ::.) <$> decode_body rest4
            | short =>               (* body[i : i + 4] is what is left *)
              n ← Py.int short 16;
              c ← Py.chr n;
              Ok [c]
            end in
          match rest with
          | h1 :: rest2 =>
            if h1 =? 123 then                         (* u and a brace *)
              (fix find_close (l hex : Py.str) : res Py.str :=
                 match l with
                 | [] => simple 117                   (* j == -1 *)
                 | x :: l' =>
                   if x =? 125 then
                     n ← Py.int hex 16;
                     c ← Py.chr n;
                     (c ::.) <$> decode_body l'
                   else find_close l' (hex ++ [x])
                 end) rest2 []
            else four
          | [] => four
          end
        else if esc =? 110 then simple 10             (* n *)
        else if esc =? 114 then simple 13             (* r *)
        else if esc =? 116 then simple 9              (* t *)
        else if esc =? 98 then simple 8               (* b *)
        else if esc =? 102 then simple 12             (* f *)
        else if esc =? 118 then simple 11             (* v *)
        else if esc =? 48 then simple 0               (* 0 *)
        else simple esc
      end
  end.

Definition _decode_js_string_literal (literal : Py.str) : res Py.str :=
  let quoted :=
    (2 <=? Py.len literal)
    && match Py.index literal 0, Py.index literal (-1) with
       | Ok first, Ok last => (first =? last) && is_quote first
       | _, _ => false
       end in
  if quoted then decode_body (Py.slice literal 1 (-1))
  else Raise (ValueError NotAStringLiteral).
End Literals.

(** ** [json.dumps(s, ensure_ascii=False)] on a string

    The encoder of Python's [json] module: the escape table [ESCAPE_DCT]
    of [json.encoder] applied to the characters matched by [ESCAPE]. *)

(** ["0123456789abcdef"[n]] *)
Definition hex_digit (n : Z) : Z := if n <? 10 then 48 + n else 97 + (n - 10).

Definition json_escape (c : Z) : Py.str :=
  if c =? dquote then [backslash; dquote]
  else if c =? backslash then [backslash; backslash]
  else if c =? 10 then [backslash; 110]
  else if c =? 13 then [backslash; 114]
  else if c =? 9 then [backslash; 116]
  else if c =? 8 then [backslash; 98]
  else if c =? 12 then [backslash; 102]
  else if c <=? 31 then
    [backslash; 117; 48; 48; hex_digit (c / 16); hex_digit (c mod 16)]
  else [c].

Definition json_dumps (s : Py.str) : Py.str :=
  [dquote] ++ concat (json_escape <$> s) ++ [dquote].

(** A Python string holds code points. *)
Definition code_points (s : Py.str) : Prop := Forall (λ c, 0 ≤ c ≤ 1114111) s.

(** ** ECMAScript double-quoted string literals

    The productions of StringLiteral (ECMA-262, strict mode) for the
    double quote: what "syntactically valid, properly quoted" means. *)

Definition is_hex (c : Z) : bool :=
  ((48 <=? c) && (c <=? 57)) || ((97 <=? c) && (c <=? 102))
  || ((65 <=? c) && (c <=? 70)).

Definition is_line_terminator (c : Z) : bool :=
  (c =? 10) || (c =? 13) || (c =? 8232) || (c =? 8233).

(** SingleEscapeCharacter: the two quotes, the backslash, b f n r t v *)
Definition is_single_escape (c : Z) : bool :=
  (c =? squote) || (c =? dquote) || (c =? backslash) || (c =? 98)
  || (c =? 102) || (c =? 110) || (c =? 114) || (c =? 116) || (c =? 118).

Definition is_decimal_digit (c : Z) : bool := (48 <=? c) && (c <=? 57).

Inductive DoubleStringChars : Py.str → Prop :=
| dsc_nil : DoubleStringChars []
| dsc_char c l :
    c ≠ dquote → c ≠ backslash → c ≠ 10 → c ≠ 13 →
    DoubleStringChars l → DoubleStringChars (c :: l)
| dsc_single e l :
    is_single_escape e = true →
    DoubleStringChars l → DoubleStringChars (backslash :: e :: l)
| dsc_non_escape e l :
    is_single_escape e = false → is_decimal_digit e = false →
    e ≠ 120 → e ≠ 117 → is_line_terminator e = false →
    DoubleStringChars l → DoubleStringChars (backslash :: e :: l)
| dsc_nul l :
    (∀ d l', l = d :: l' → is_decimal_digit d = false) →
    DoubleStringChars l → DoubleStringChars (backslash :: 48 :: l)
| dsc_hex h1 h2 l :
    is_hex h1 = true → is_hex h2 = true →
    DoubleStringChars l → DoubleStringChars (backslash :: 120 :: h1 :: h2 :: l)
| dsc_unicode h1 h2 h3 h4 l :
    is_hex h1 = true → is_hex h2 = true → is_hex h3 = true →
    is_hex h4 = true →
    DoubleStringChars l →
    DoubleStringChars (backslash :: 117 :: h1 :: h2 :: h3 :: h4 :: l)
| dsc_code_point hs l :
    hs ≠ [] → forallb is_hex hs = true →
    fold_left (λ acc h, acc * 16 + Py.digit_value h) hs 0 ≤ 1114111 →
    DoubleStringChars l →
    DoubleStringChars (backslash :: 117 :: 123 :: hs ++ 125 :: l)
| dsc_continuation t l :
    is_line_terminator t = true →
    DoubleStringChars l → DoubleStringChars (backslash :: t :: l).

Definition JsStringLiteral (literal : Py.str) : Prop :=
  ∃ body, DoubleStringChars body ∧ literal = dquote :: body ++ [dquote].

(** ** Python's [re] on the patterns of the script

    A backtracking matcher with Python's priorities (greedy repetition,
    alternatives left to right) for the constructs the script's patterns
    use: literals, character classes, their greedy repetition, optional
    parts, alternatives, capture groups, the word boundary and the two
    anchors. *)

Module Re.

Inductive regex :=
| Eps
| Chr (p : Z → bool)        (* one character of a class *)
| Seq (r1 r2 : regex)
| Alt (r1 r2 : regex)       (* r1|r2 *)
| Star (p : Z → bool)       (* greedy repetition of a class *)
| Opt (r : regex)           (* greedy r? *)
| Group (n : nat) (r : regex)
| WordB                     (* the word boundary, backslash b *)
| Bol                       (* ^ *)
| Eol.                      (* $ *)

(** The parts of a pattern one after the other. *)
Definition Cat (rs : list regex) : regex := foldr Seq Eps rs.

(** p+ *)
Definition Plus (p : Z → bool) : regex := Seq (Chr p) (Star p).

(** A literal text. *)
Fixpoint Lit (s : Py.str) : regex :=
  match s with
  | [] => Eps
  | c :: s' => Seq (Chr (Z.eqb c)) (Lit s')
  end.

(** Captures, most recent first. *)
Abbreviation caps := (list (nat * Py.str)).

(** [m.group(n)] of a group that took part in the match. *)
Fixpoint group (n : nat) (c : caps) : Py.str :=
  match c with
  | [] => []
  | (k, t) :: c' => if (k =? n)%nat then t else group n c'
  end.

(** [[A-Za-z_$]] *)
Definition id_start (c : Z) : bool :=
  ((65 <=? c) && (c <=? 90)) || ((97 <=? c) && (c <=? 122))
  || (c =? 95) || (c =? 36).

(** [[0-9a-fA-F]] *)
Definition hex (c : Z) : bool :=
  ((48 <=? c) && (c <=? 57)) || ((97 <=? c) && (c <=? 102))
  || ((65 <=? c) && (c <=? 70)).

Section Matcher.
Context `{PyRuntime}.

(** The class of backslash w of a [str] pattern. *)
Definition word (c : Z) : bool :=
  if c <? 128 then
    ((48 <=? c) && (c <=? 57)) || ((65 <=? c) && (c <=? 90))
    || ((97 <=? c) && (c <=? 122)) || (c =? 95)
  else uni_alnum c.

(** The class of backslash d of a [str] pattern. *)
Definition digit (c : Z) : bool :=
  if c <? 128 then (48 <=? c) && (c <=? 57)
  else bool_decide (is_Some (uni_decimal c)).

(** [[\w$]] *)
Definition id_cont (c : Z) : bool := word c || (c =? 36).

Definition word_opt (c : option Z) : bool :=
  match c with Some c => word c | None => false end.

(** Where [$] matches: at the end of the text and before a line
    feed that ends it. *)
Definition at_end (s : Py.str) : bool :=
  match s with
  | [] => true
  | [x] => x =? 10
  | _ => false
  end.

Section Run.
Context {A : Type}.

(** A continuation receives the character before the position, the
    text from the position on, and the captures. *)
Definition cont := option Z → Py.str → caps → option A.

Fixpoint star (p : Z → bool) (k : cont) (prev : option Z)
    (s : Py.str) (c : caps) : option A :=
  match s with
  | x :: s' =>
    if p x then
      match star p k (Some x) s' c with
      | Some a => Some a
      | None => k prev s c
      end
    else k prev s c
  | [] => k prev s c
  end.

Fixpoint run (r : regex) (k : cont) (prev : option Z) (s : Py.str)
    (c : caps) : option A :=
  match r with
  | Eps => k prev s c
  | Chr p =>
    match s with
    | x :: s' => if p x then k (Some x) s' c else None
    | [] => None
    end
  | Seq r1 r2 => run r1 (run r2 k) prev s c
  | Alt r1 r2 =>
    match run r1 k prev s c with
    | Some a => Some a
    | None => run r2 k prev s c
    end
  | Star p => star p k prev s c
  | Opt r =>
    match run r k prev s c with
    | Some a => Some a
    | None => k prev s c
    end
  | Group n r =>
    run r (λ prev' s' c',
           k prev' s' ((n, take (length s - length s') s) :: c'))
        prev s c
  | WordB =>
    if xorb (word_opt prev) (word_opt (head s)) then k prev s c
    else None
  | Bol => match prev with None => k prev s c | Some _ => None end
  | Eol => if at_end s then k prev s c else None
  end.
End Run.

(** A match of [r] starting at the head of [s], [prev] being the
    character before it: the matched text and the captures. *)
Definition match_at (r : regex) (prev : option Z) (s : Py.str)
    : option (Py.str * caps) :=
  run r (λ _ s' c, Some (take (length s - length s') s, c)) prev s [].

(** [re.match(r, s)] *)
Definition match_ (r : regex) (s : Py.str) : option (Py.str * caps) :=
  match_at r None s.

(** [re.fullmatch(r, s)] *)
Definition fullmatch (r : regex) (s : Py.str) : option caps :=
  run r (λ _ s' c, match s' with [] => Some c | _ => None end) None s [].

(** [re.search(r, s)]: the offset of the first match, its text and
    captures; [i] is the offset of the head of [s]. *)
Fixpoint search_from (r : regex) (prev : option Z) (s : Py.str) (i : Z)
    : option (Z * Py.str * caps) :=
  match match_at r prev s with
  | Some (mt, c) => Some (i, mt, c)
  | None =>
    match s with
    | x :: s' => search_from r (Some x) s' (i + 1)
    | [] => None
    end
  end.

Definition search (r : regex) (s : Py.str) : option (Z * Py.str * caps) :=
  search_from r None s 0.

(** The text cut into the successive matches of [re.finditer] and
    [re.sub] and the characters between them.  [skip] counts the
    characters of the current match still to be passed.  The patterns
    of the script match no empty text; an empty match counts as
    none. *)
Inductive piece :=
| Text (x : Z)
| Match (mt : Py.str) (c : caps).

Fixpoint pieces (r : regex) (prev : option Z) (s : Py.str) (skip : nat)
    : list piece :=
  match s with
  | [] => []
  | x :: s' =>
    match skip with
    | S n => pieces r (Some x) s' n
    | O =>
      match match_at r prev s with
      | Some ((_ :: _) as mt, c) =>
        Match mt c :: pieces r (Some x) s' (length mt - 1)
      | _ => Text x :: pieces r (Some x) s' 0
      end
    end
  end.

(** The matches among the pieces, each with its start offset. *)
Fixpoint match_spans (ps : list piece) (i : Z)
    : list (Z * Py.str * caps) :=
  match ps with
  | [] => []
  | Text _ :: ps' => match_spans ps' (i + 1)
  | Match mt c :: ps' => (i, mt, c) :: match_spans ps' (i + Py.len mt)
  end.

(** [re.finditer(r, s)]: start offset, text and captures. *)
Definition finditer (r : regex) (s : Py.str) : list (Z * Py.str * caps) :=
  match_spans (pieces r None s 0) 0.

(** [re.sub(r, repl, s)] for a callable [repl] that reads and updates
    a state and may raise. *)
Fixpoint sub_pieces {S} (repl : Py.str → caps → S → res (Py.str * S))
    (ps : list piece) (st : S) : res (Py.str * S) :=
  match ps with
  | [] => Ok ([], st)
  | Text x :: ps' =>
    '(out, st') ← sub_pieces repl ps' st;
    Ok (x :: out, st')
  | Match mt c :: ps' =>
    '(new, st1) ← repl mt c st;
    '(out, st2) ← sub_pieces repl ps' st1;
    Ok (new ++ out, st2)
  end.

Definition sub_with {S} (r : regex)
    (repl : Py.str → caps → S → res (Py.str * S))
    (s : Py.str) (st : S) : res (Py.str * S) :=
  sub_pieces repl (pieces r None s 0) st.

(** What [re.sub(r, "", s)] keeps of a piece. *)
Definition kept (p : piece) : Py.str :=
  match p with Text x => [x] | Match _ _ => [] end.

(** [re.sub(r, "", s)] *)
Definition remove (r : regex) (s : Py.str) : Py.str :=
  concat (kept <$> pieces r None s 0).
End Matcher.

End Re.

(** What a match of a pattern is, without the search order: [Matches r
    prev mt rest c c'] says that [r] matches the text [mt], preceded by
    the character [prev] and followed by [rest], and turns the captures
    [c] into [c']. *)
Section Matches.
Context `{PyRuntime}.

Definition last_char (prev : option Z) (mt : Py.str) : option Z :=
  match last mt with Some x => Some x | None => prev end.

Inductive Matches : Re.regex → option Z → Py.str → Py.str →
                    Re.caps → Re.caps → Prop :=
| m_eps prev rest c : Matches Re.Eps prev [] rest c c
| m_chr p x prev rest c :
    p x = true → Matches (Re.Chr p) prev [x] rest c c
| m_seq r1 r2 prev m1 m2 rest c c1 c2 :
    Matches r1 prev m1 (m2 ++ rest) c c1 →
    Matches r2 (last_char prev m1) m2 rest c1 c2 →
    Matches (Re.Seq r1 r2) prev (m1 ++ m2) rest c c2
| m_alt_l r1 r2 prev mt rest c c' :
    Matches r1 prev mt rest c c' → Matches (Re.Alt r1 r2) prev mt rest c c'
| m_alt_r r1 r2 prev mt rest c c' :
    Matches r2 prev mt rest c c' → Matches (Re.Alt r1 r2) prev mt rest c c'
| m_star p prev mt rest c :
    forallb p mt = true → Matches (Re.Star p) prev mt rest c c
| m_opt_some r prev mt rest c c' :
    Matches r prev mt rest c c' → Matches (Re.Opt r) prev mt rest c c'
| m_opt_none r prev rest c : Matches (Re.Opt r) prev [] rest c c
| m_group n r prev mt rest c c' :
    Matches r prev mt rest c c' →
    Matches (Re.Group n r) prev mt rest c ((n, mt) :: c')
| m_wordb prev rest c :
    xorb (Re.word_opt prev) (Re.word_opt (head rest)) = true →
    Matches Re.WordB prev [] rest c c
| m_bol rest c : Matches Re.Bol None [] rest c c
| m_eol prev rest c :
    Re.at_end rest = true → Matches Re.Eol prev [] rest c c.
End Matches.

(** ** The alias resolver *)

Section Script.
Context `{PyRuntime}.

(** [[A-Za-z_$][\w$]*], the identifiers of the patterns. *)
Definition identifier : Re.regex :=
  Re.Cat [Re.Chr Re.id_start; Re.Star Re.id_cont].

(** The pattern [assign_re], its parts spaced out:
    [\b (?:const|let|var) \s+ ( [A-Za-z_$][\w$]* ) \s* = \s*
     ( [A-Za-z_$][\w$]* ) \s* ;] *)
Definition assign_re : Re.regex :=
  Re.Cat [Re.WordB;
          Re.Alt (Re.Lit (Py.lit "const"))
                 (Re.Alt (Re.Lit (Py.lit "let")) (Re.Lit (Py.lit "var")));
          Re.Plus Py.isspace;
          Re.Group 1 identifier;
          Re.Star Py.isspace; Re.Chr (Z.eqb 61); Re.Star Py.isspace;
          Re.Group 2 identifier;
          Re.Star Py.isspace; Re.Chr (Z.eqb 59)].

(** The list [edges] of [_collect_aliases]. *)
Definition alias_edges (js : Py.str) : list (Py.str * Py.str) :=
  (λ m, (Re.group 1 m.2, Re.group 2 m.2)) <$> Re.finditer assign_re js.

(** The body of the [for left, right in edges] loop on the set and
    the flag [changed]. *)
Definition alias_step (st : gset Py.str * bool) (e : Py.str * Py.str)
    : gset Py.str * bool :=
  if bool_decide (e.2 ∈ st.1) && negb (bool_decide (e.1 ∈ st.1))
  then ({[e.1]} ∪ st.1, true)
  else st.

(** One run of the [for] loop: the set and the flag after it. *)
Definition alias_pass (edges : list (Py.str * Py.str))
    (aliases : gset Py.str) : gset Py.str * bool :=
  foldl alias_step (aliases, false) edges.

(** The [while changed] loop, run at most [fuel] times. *)
Fixpoint alias_loop (fuel : nat) (edges : list (Py.str * Py.str))
    (aliases : gset Py.str) : gset Py.str :=
  match fuel with
  | O => aliases
  | S fuel' =>
    let '(aliases', changed) := alias_pass edges aliases in
    if changed then alias_loop fuel' edges aliases' else aliases'
  end.

(** The canonical decoder name. *)
Definition canonical : Py.str := Py.lit "Q".

(** Every changing pass adds the left name of an edge, so the loop ends
    within as many passes as there are edges, and one more. *)
Definition _collect_aliases (js : Py.str) : gset Py.str :=
  let edges := alias_edges js in
  alias_loop (S (length edges)) edges {[canonical]}.

(** ** The call-site rewriter *)

(** The pattern [call_re], its parts spaced out:
    [\b ( [A-Za-z_$][\w$]* ) \( \s* ( 0x[0-9a-fA-F]+ ) \s* \)] *)
Definition call_re : Re.regex :=
  Re.Cat [Re.WordB;
          Re.Group 1 identifier;
          Re.Chr (Z.eqb 40); Re.Star Py.isspace;
          Re.Group 2 (Re.Cat [Re.Lit (Py.lit "0x"); Re.Plus Re.hex]);
          Re.Star Py.isspace; Re.Chr (Z.eqb 41)].

(** The closure [replace] of [main]; the dictionary [cache] is its
    state.  On a miss the entry is stored and then read back. *)
Definition replace (aliases : gset Py.str) (arr : list Py.str) (offset : Z)
    (mt : Py.str) (c : Re.caps) (cache : gmap Z Py.str)
    : res (Py.str * gmap Z Py.str) :=
  let name := Re.group 1 c in
  if bool_decide (name ∈ aliases) then
    num ← Py.int (Re.group 2 c) 16;
    match cache !! num with
    | Some v => Ok (json_dumps v, cache)
    | None =>
      v ← decode arr offset num;
      Ok (json_dumps v, <[num := v]> cache)
    end
  else Ok (mt, cache).

(** [deobf = call_re.sub(replace, src)], with the cache it leaves. *)
Definition rewrite_calls (aliases : gset Py.str) (arr : list Py.str)
    (offset : Z) (src : Py.str) : res (Py.str * gmap Z Py.str) :=
  Re.sub_with call_re (replace aliases arr offset) src ∅.

(** Lines 301 to 316 of [main]: the aliases are collected from the
    text [src] read from the input, and the calls are rewritten in that
    same text; [arr] and [offset] are the table after the rotation and
    the offset of the decoder. *)
Definition main_rewrite (src : Py.str) (arr : list Py.str) (offset : Z)
    : res (Py.str * gmap Z Py.str) :=
  rewrite_calls (_collect_aliases src) arr offset src.
End Script.

(** ** The recognisers of [main]: bootstrap, offset and string array *)

(** The dictionary [_extract_bootstrap] returns. *)
Record bootstrap := {
  iife_end : Z;
  arr_fn_name : Py.str;
  target : Z;
  alias : Py.str;
  k_expr_js : Py.str
}.

(** What a loop of the script does: it ends with a result or an
    exception, or it runs for ever. *)
Inductive outcome (A : Type) :=
| Ends (r : res A)
| Loops.
Arguments Ends {A} r.
Arguments Loops {A}.

Section Recognisers.
Context `{PyRuntime}.

(** The first of two searches that finds something. *)
Definition search_or (r1 r2 : Re.regex) (s : Py.str)
    : option (Z * Py.str * Re.caps) :=
  match Re.search r1 s with
  | Some m => Some m
  | None => Re.search r2 s
  end.

(** [0x[0-9a-fA-F]+] *)
Definition hex_literal : Re.regex :=
  Re.Cat [Re.Lit (Py.lit "0x"); Re.Plus Re.hex].

(** [([A-Za-z_$][\w$]* ) \s* , \s* (0x[0-9a-fA-F]+)] *)
Definition tail_re : Re.regex :=
  Re.Cat [Re.Group 1 identifier; Re.Star Py.isspace; Re.Chr (Z.eqb 44);
          Re.Star Py.isspace; Re.Group 2 hex_literal].

(** [const \s+ ([A-Za-z_$][\w$]* ) \s* = \s* Q \s*] and the character
    [last], a comma or a semicolon. *)
Definition alias_re (last : Z) : Re.regex :=
  Re.Cat [Re.Lit (Py.lit "const"); Re.Plus Py.isspace;
          Re.Group 1 identifier; Re.Star Py.isspace; Re.Chr (Z.eqb 61);
          Re.Star Py.isspace; Re.Chr (Z.eqb 81); Re.Star Py.isspace;
          Re.Chr (Z.eqb last)].

(** [const \s+ K \s* = ([^;]+) ; if\(K===O\)], the semicolon optional
    when [relaxed]. *)
Definition k_re (relaxed : bool) : Re.regex :=
  Re.Cat [Re.Lit (Py.lit "const"); Re.Plus Py.isspace; Re.Chr (Z.eqb 75);
          Re.Star Py.isspace; Re.Chr (Z.eqb 61);
          Re.Group 1 (Re.Plus (λ c, negb (c =? 59)));
          (if relaxed then Re.Opt (Re.Chr (Z.eqb 59)) else Re.Chr (Z.eqb 59));
          Re.Lit (Py.lit "if(K===O)")].

Definition _extract_bootstrap (js : Py.str) : res bootstrap :=
  let iife_start := Py.find js (Py.lit "(function(X,O){") 0 in
  if iife_start =? -1 then Raise (RuntimeError BootstrapNotFound)
  else
    '(iife_expr, iife_end) ← _extract_balanced js iife_start 40 41;
    (* the last match of the brace followed by the parenthesis *)
    match last (Re.finditer (Re.Lit (Py.lit "}(")) iife_expr) with
    | None => Raise (RuntimeError InvocationNotFound)
    | Some (start, _, _) =>
      let call_open := start + 1 in
      '(arg_group, _) ← _extract_balanced iife_expr call_open 40 41;
      let args_str := Py.strip (Py.slice arg_group 1 (-1)) in
      match Re.fullmatch tail_re args_str with
      | None => Raise (RuntimeError MalformedInvocation)
      | Some m_tail =>
        let arr_fn_name := Re.group 1 m_tail in
        target ← Py.int (Re.group 2 m_tail) 16;
        let alias :=
          match search_or (alias_re 44) (alias_re 59) iife_expr with
          | Some (_, _, c) => Re.group 1 c
          | None => Py.lit "Q"
          end in
        match search_or (k_re false) (k_re true) iife_expr with
        | None => Raise (RuntimeError KExpressionNotFound)
        | Some (_, _, c) =>
          Ok {| iife_end := iife_end; arr_fn_name := arr_fn_name;
                target := target; alias := alias;
                k_expr_js := Re.group 1 c |}
        end
      end
    end.

Definition _extract_function (js fn_name : Py.str) : res Py.str :=
  let idx := Py.find js (Py.lit "function " ++ fn_name ++ [40]) 0 in
  if idx =? -1 then Raise (RuntimeError FunctionNotFound)
  else
    let brace := Py.find js [123] idx in
    if brace =? -1 then Raise (RuntimeError FunctionNotFound)
    else
      '(body, _) ← _extract_balanced js brace 123 125;
      Ok (Py.slice js idx brace ++ body).

(** [function \s+ Q\( \s* ([A-Za-z_$][\w$]* )] *)
Definition q_head_re : Re.regex :=
  Re.Cat [Re.Lit (Py.lit "function"); Re.Plus Py.isspace;
          Re.Lit (Py.lit "Q("); Re.Star Py.isspace; Re.Group 1 identifier].

(** [\b arg0 \s* = \s* arg0 \s* - \s* (0x[0-9a-fA-F]+)], the name
    [arg0] escaped. *)
Definition normalisation_re (arg0 : Py.str) : Re.regex :=
  Re.Cat [Re.WordB; Re.Lit arg0; Re.Star Py.isspace; Re.Chr (Z.eqb 61);
          Re.Star Py.isspace; Re.Lit arg0; Re.Star Py.isspace;
          Re.Chr (Z.eqb 45); Re.Star Py.isspace; Re.Group 1 hex_literal].

(** [- \s* (0x[0-9a-fA-F]+)] *)
Definition minus_hex_re : Re.regex :=
  Re.Cat [Re.Chr (Z.eqb 45); Re.Star Py.isspace; Re.Group 1 hex_literal].

(** The offset of the opening brace is used as [find] returns it, -1
    included. *)
Definition _extract_q_offset (js : Py.str) : res Z :=
  let idx := Py.find js (Py.lit "function Q(") 0 in
  if idx =? -1 then Raise (RuntimeError DecoderNotFound)
  else
    match Re.search q_head_re (Py.slice js idx (idx + 200)) with
    | None => Raise (RuntimeError ParameterListNotParsed)
    | Some (_, _, m_head) =>
      let arg0 := Re.group 1 m_head in
      let brace := Py.find js [123] idx in
      '(fn_body, _) ← _extract_balanced js brace 123 125;
      match Re.search (normalisation_re arg0) fn_body with
      | Some (_, _, m) => Py.int (Re.group 1 m) 16
      | None =>
        match Re.search minus_hex_re fn_body with
        | Some (_, _, m2) => Py.int (Re.group 1 m2) 16
        | None => Raise (RuntimeError OffsetNotFound)
        end
      end
    end.

(** [\b const \s+ [A-Za-z_$][\w$]* \s* = \s* \[] *)
Definition array_decl_re : Re.regex :=
  Re.Cat [Re.WordB; Re.Lit (Py.lit "const"); Re.Plus Py.isspace;
          identifier; Re.Star Py.isspace; Re.Chr (Z.eqb 61);
          Re.Star Py.isspace; Re.Chr (Z.eqb 91)].

(** Where the element loop is, seen from the character it reads:
    between elements, inside the string literal that began with the
    quote [q] (read so far: [acc]), or inside another element. *)
Inductive element_mode :=
| Between
| InString (q : Z) (esc : bool) (acc : Py.str)
| InToken (acc : Py.str).

(** [ch in " \t\r\n,"] *)
Definition is_separator (c : Z) : bool :=
  (c =? 32) || (c =? 9) || (c =? 13) || (c =? 10) || (c =? 44).

(** [ch in ",]"] *)
Definition ends_token (c : Z) : bool := (c =? 44) || (c =? 93).

(** The element loop of [_extract_string_array] on
    [array_literal[1 : len - 1]], character by character; [final] is
    the last character of the literal, which an unterminated string
    takes in.  A closing bracket met between two elements is appended
    as an empty element without moving on: the loop [Loops]. *)
Fixpoint parse_elements (inner : Py.str) (final : Py.str)
    (mode : element_mode) : outcome (list Py.str) :=
  let emit (r : res Py.str) (k : outcome (list Py.str)) :=
    match r with
    | Raise e => Ends (Raise e)
    | Ok x => match k with
              | Ends (Ok xs) => Ends (Ok (x :: xs))
              | other => other
              end
    end in
  match inner with
  | [] =>
    match mode with
    | Between => Ends (Ok [])
    | InString q esc acc =>
      emit (_decode_js_string_literal (acc ++ final)) (Ends (Ok []))
    | InToken acc => emit (Ok (Py.strip acc)) (Ends (Ok []))
    end
  | c :: inner' =>
    match mode with
    | Between =>
      if is_separator c then parse_elements inner' final Between
      else if is_quote c then parse_elements inner' final (InString c false [c])
      else if ends_token c then Loops
      else parse_elements inner' final (InToken [c])
    | InString q esc acc =>
      if esc then parse_elements inner' final (InString q false (acc ++ [c]))
      else if c =? backslash then
        parse_elements inner' final (InString q true (acc ++ [c]))
      else if c =? q then
        emit (_decode_js_string_literal (acc ++ [c]))
             (parse_elements inner' final Between)
      else parse_elements inner' final (InString q false (acc ++ [c]))
    | InToken acc =>
      if ends_token c then
        emit (Ok (Py.strip acc))
             (if c =? 44 then parse_elements inner' final Between else Loops)
      else parse_elements inner' final (InToken (acc ++ [c]))
    end
  end.

Definition _extract_string_array (js arr_fn_name : Py.str)
    : outcome (list Py.str) :=
  match _extract_function js arr_fn_name with
  | Raise e => Ends (Raise e)
  | Ok fn_src =>
    match Re.search array_decl_re fn_src with
    | None => Ends (Raise (RuntimeError ArrayLiteralNotFound))
    | Some (m_start, m_text, _) =>
      let array_start := m_start + Py.len m_text - 1 in
      match _extract_balanced fn_src array_start 91 93 with
      | Raise e => Ends (Raise e)
      | Ok (array_literal, _) =>
        parse_elements (Py.slice array_literal 1 (-1))
                       (Py.slice_from array_literal (-1)) Between
      end
    end
  end.

(** The first steps of [main]: the three recognisers on the text read
    from the input file. *)
Definition main_recognise (src : Py.str)
    : outcome (bootstrap * Z * list Py.str) :=
  match _extract_bootstrap src with
  | Raise e => Ends (Raise e)
  | Ok bootstrap =>
    match _extract_q_offset src with
    | Raise e => Ends (Raise e)
    | Ok offset =>
      match _extract_string_array src (arr_fn_name bootstrap) with
      | Ends (Ok arr) => Ends (Ok (bootstrap, offset, arr))
      | Ends (Raise e) => Ends (Raise e)
      | Loops => Loops
      end
    end
  end.
End Recognisers.

(** The runtime with nothing above ASCII, for the evaluation of the
    script on ASCII texts. *)
Definition ascii_runtime : PyRuntime :=
  {| uni_alnum := λ _, false; uni_decimal := λ _, None; float_repr := λ _, [] |}.

(** The shape of a decoder call in the text: an identifier, an opening
    parenthesis, a hexadecimal literal between optional white space and a
    closing parenthesis. *)
Section CallShape.
Context `{PyRuntime}.

Definition is_identifier (name : Py.str) : bool :=
  match name with
  | c :: t => Re.id_start c && forallb Re.id_cont t
  | [] => false
  end.

Definition call_text (name ws1 hexs ws2 : Py.str) : Py.str :=
  name ++ [40] ++ ws1 ++ Py.lit "0x" ++ hexs ++ ws2 ++ [41].

Definition call_shape (name ws1 hexs ws2 : Py.str) : Prop :=
  is_identifier name = true
  ∧ forallb Py.isspace ws1 = true
  ∧ hexs ≠ [] ∧ forallb Re.hex hexs = true
  ∧ forallb Py.isspace ws2 = true.

(** No call of an alias anywhere in the text. *)
Definition no_alias_call (aliases : gset Py.str) (src : Py.str) : Prop :=
  ∀ pre name ws1 hexs ws2 post,
    src = pre ++ call_text name ws1 hexs ws2 ++ post →
    name ∈ aliases → ¬ call_shape name ws1 hexs ws2.

(** A call that the pattern [call_re] matches at a position, [prev]
    being the character before it: the shape of a call, at a word
    boundary. *)
Definition call_at (prev : option Z) (name ws1 hexs ws2 : Py.str) : Prop :=
  call_shape name ws1 hexs ws2
  ∧ xorb (Re.word_opt prev) (Re.word_opt (head name)) = true.

(** No such call starts at the head of the text [s]. *)
Definition no_call_at (prev : option Z) (s : Py.str) : Prop :=
  ∀ name ws1 hexs ws2 rest,
    s = call_text name ws1 hexs ws2 ++ rest →
    ¬ call_at prev name ws1 hexs ws2.

End CallShape.

(** Every name [left] of an edge. *)
Definition lefts (es : list (Py.str * Py.str)) : gset Py.str :=
  list_to_set es.*1.

(** A set that holds [left] whenever it holds [right]. *)
Definition closed_under (es : list (Py.str * Py.str)) (al : gset Py.str)
    : Prop :=
  ∀ left right, (left, right) ∈ es → right ∈ al → left ∈ al.


(** The names reachable from the decoder name by following the
    declaration edges backward: [left = right] makes [left] an alias as
    soon as [right] is one. *)
Inductive Reaches (edges : list (Py.str * Py.str)) : Py.str → Prop :=
| reaches_root : Reaches edges (Py.lit "Q")
| reaches_edge left right :
    (left, right) ∈ edges → Reaches edges right → Reaches edges left.

(** ** The rotation loop of [main] *)

(** [arr.append(arr.pop(0))] *)
Definition rotate_once (arr : list Py.str) : res (list Py.str) :=
  match arr with
  | [] => Raise IndexError                       (* pop from empty list *)
  | x :: arr' => Ok (arr' ++ [x])
  end.

(** [max_iter = max(10_000, len(arr) * 5)] *)
Definition max_iter (arr : list Py.str) : Z := Z.max 10000 (Py.len arr * 5).

(** The [for _ in range(max_iter)] loop and its [else] clause.
    [converged arr] is the body of the [try]: the evaluation of the
    expression returned a value equal to the target; an exception of the
    evaluation is caught and counts as no.  The loop returns the table it
    stops on, or the exception that leaves it, and the number of
    evaluations made. *)
Fixpoint rotate_loop (converged : list Py.str → bool) (n : nat)
    (arr : list Py.str) (evaluations : nat) : res (list Py.str) * nat :=
  match n with
  | O => (Raise (RuntimeError RotationDidNotConverge), evaluations)
  | S n' =>
    if converged arr then (Ok arr, S evaluations)
    else match rotate_once arr with
         | Ok arr' => rotate_loop converged n' arr' (S evaluations)
         | Raise e => (Raise e, S evaluations)
         end
  end.

Definition rotate_until (converged : list Py.str → bool) (arr : list Py.str)
    : res (list Py.str) * nat :=
  rotate_loop converged (Z.to_nat (max_iter arr)) arr 0.

(** The table after [k] rotations: the first entry moved to the end,
    [k] times. *)
Definition rotate_left (arr : list Py.str) : list Py.str :=
  match arr with
  | [] => []
  | x :: arr' => arr' ++ [x]
  end.

Definition rotated (k : nat) (arr : list Py.str) : list Py.str :=
  Nat.iter k rotate_left arr.

(** ** The convergence expression and its evaluation by [eval]

    The expressions of the bootstrap check: integer literals, calls of
    [decode] and [parse_int], the unary minus and the four arithmetic
    operators, with the meaning Python gives them on its integers,
    [Fraction]s, floats and strings. *)

Inductive binop := Add | Sub | Mul | Div.

Inductive expr :=
| Lit (n : Z)
| DecodeCall (e : expr)
| ParseInt (e : expr)
| Neg (e : expr)
| Bin (op : binop) (a b : expr).

Inductive value :=
| VInt (n : Z)
| VFraction (q : Q)         (* in lowest terms *)
| VFloat (f : spec_float)   (* binary64 *)
| VStr (s : Py.str).

Module Float.
Definition prec : Z := 53.
Definition emax : Z := 1024.

(** An integer as an unrounded float. *)
Definition exact (n : Z) : spec_float :=
  match n with
  | Z0 => S754_zero false
  | Zpos p => S754_finite false p 0
  | Zneg p => S754_finite true p 0
  end.

Definition finite_or_overflow (f : spec_float) : res spec_float :=
  match f with
  | S754_infinity _ => Raise OverflowError
  | _ => Ok f
  end.

(** [float(n)] for an integer: rounded to nearest even. *)
Definition of_int (n : Z) : res spec_float :=
  finite_or_overflow (binary_normalize prec emax n 0 false).

(** [a / b] on integers: the correctly rounded quotient. *)
Definition true_divide (a b : Z) : res spec_float :=
  if b =? 0 then Raise ZeroDivisionError
  else finite_or_overflow (SFdiv prec emax (exact a) (exact b)).

(** [float(q)] for a Fraction: numerator / denominator. *)
Definition of_fraction (q : Q) : res spec_float :=
  true_divide (Qnum q) (Z.pos (Qden q)).

Definition is_zero (f : spec_float) : bool :=
  match f with S754_zero _ => true | _ => false end.

Definition binary (op : binop) (x y : spec_float) : res spec_float :=
  match op with
  | Add => Ok (SFadd prec emax x y)
  | Sub => Ok (SFsub prec emax x y)
  | Mul => Ok (SFmul prec emax x y)
  | Div => if is_zero y then Raise ZeroDivisionError
           else Ok (SFdiv prec emax x y)
  end.

(** [f == Fraction(t)]: the exact value of the float is [t]. *)
Definition eq_int (f : spec_float) (t : Z) : bool :=
  match f with
  | S754_zero _ => t =? 0
  | S754_finite s m e =>
    Qeq_bool (inject_Z (if s then Z.neg m else Z.pos m) * Qpower 2 e)
             (inject_Z t)
  | _ => false
  end.
End Float.

(** The operators on two Fractions. *)
Definition fraction_binary (op : binop) (x y : Q) : res Q :=
  match op with
  | Add => Ok (Qred (x + y))
  | Sub => Ok (Qred (x - y))
  | Mul => Ok (Qred (x * y))
  | Div => if Qeq_bool y 0 then Raise ZeroDivisionError
           else Ok (Qred (x / y))
  end.

(** [s * n] on a string. *)
Definition str_repeat (s : Py.str) (n : Z) : Py.str :=
  concat (replicate (Z.to_nat n) s).

(** The decimal text of an integer. *)
Definition decimal_of_int (n : Z) : Py.str :=
  Py.lit (NilZero.string_of_int (Z.to_int n)).

(** The text of a fraction in lowest terms: the numerator alone for an
    integer, numerator/denominator otherwise. *)
Definition decimal_of_fraction (q : Q) : Py.str :=
  if (Qden q =? 1)%positive then decimal_of_int (Qnum q)
  else decimal_of_int (Qnum q) ++ [47] ++ decimal_of_int (Z.pos (Qden q)).

(** [str(n)] of an integer: a ValueError when the number has more
    digits than [sys.get_int_max_str_digits()]. *)
Definition str_of_int (n : Z) : res Py.str :=
  if Py.max_str_digits <? Py.len (decimal_of_int (Z.abs n))
  then Raise (ValueError DigitLimit)
  else Ok (decimal_of_int n).

(** [str(q)] of a Fraction: the numerator is converted first. *)
Definition str_of_fraction (q : Q) : res Py.str :=
  if (Qden q =? 1)%positive then str_of_int (Qnum q)
  else
    a ← str_of_int (Qnum q);
    b ← str_of_int (Z.pos (Qden q));
    Ok (a ++ [47] ++ b).

Section Evaluation.
Context `{PyRuntime}.

(** The pattern of [parse_int], its parts spaced out:
    [^ [+-]? (?: 0x[0-9a-fA-F]+ | \d+ )] *)
Definition parse_int_re : Re.regex :=
  Re.Cat [Re.Bol;
          Re.Opt (Re.Chr (λ c, (c =? 43) || (c =? 45)));
          Re.Alt (Re.Cat [Re.Lit (Py.lit "0x"); Re.Plus Re.hex])
                 (Re.Plus Re.digit)].

(** [parse_int] of [main] on the text [str(x)]. *)
Definition parse_int_text (text : Py.str) : res Q :=
  let s := Py.strip text in
  match Re.match_ parse_int_re s with
  | None => Raise (ValueError ParseIntFailed)
  | Some (m, _) => n ← Py.int m 0; Ok (inject_Z n)
  end.

(** [str(x)] *)
Definition str_of_value (v : value) : res Py.str :=
  match v with
  | VInt n => str_of_int n
  | VFraction q => str_of_fraction q
  | VFloat f => Ok (float_repr f)
  | VStr s => Ok s
  end.

Definition parse_int (x : value) : res Q :=
  s ← str_of_value x; parse_int_text s.

(** A number as a float, for an operation whose other operand is one. *)
Definition to_float (v : value) : res spec_float :=
  match v with
  | VInt n => Float.of_int n
  | VFraction q => Float.of_fraction q
  | VFloat f => Ok f
  | VStr _ => Raise TypeError
  end.

Definition py_binary (op : binop) (x y : value) : res value :=
  match x, y with
  | VInt a, VInt b =>
    match op with
    | Add => Ok (VInt (a + b))
    | Sub => Ok (VInt (a - b))
    | Mul => Ok (VInt (a * b))
    | Div => VFloat <$> Float.true_divide a b
    end
  | VInt a, VFraction q => VFraction <$> fraction_binary op (inject_Z a) q
  | VFraction q, VInt b => VFraction <$> fraction_binary op q (inject_Z b)
  | VFraction p, VFraction q => VFraction <$> fraction_binary op p q
  | VFloat _, VStr _ | VStr _, VFloat _ => Raise TypeError
  | VFloat _, _ | _, VFloat _ =>
    f ← to_float x; g ← to_float y; VFloat <$> Float.binary op f g
  | VStr s, VStr t =>
    match op with Add => Ok (VStr (s ++ t)) | _ => Raise TypeError end
  | VStr s, VInt n | VInt n, VStr s =>
    match op with Mul => Ok (VStr (str_repeat s n)) | _ => Raise TypeError end
  | VStr _, VFraction _ | VFraction _, VStr _ => Raise TypeError
  end.

Definition py_neg (x : value) : res value :=
  match x with
  | VInt n => Ok (VInt (- n))
  | VFraction q => Ok (VFraction (Qred (- q)))
  | VFloat f => Ok (VFloat (SFopp f))
  | VStr _ => Raise TypeError
  end.

(** [eval(k_expr, env)] on the current table. *)
Fixpoint eval_py (arr : list Py.str) (offset : Z) (e : expr) : res value :=
  match e with
  | Lit n => Ok (VInt n)
  | DecodeCall e =>
    v ← eval_py arr offset e;
    match v with
    | VInt num => VStr <$> decode arr offset num
    | _ => Raise TypeError
    end
  | ParseInt e => v ← eval_py arr offset e; VFraction <$> parse_int v
  | Neg e => v ← eval_py arr offset e; py_neg v
  | Bin op a b =>
    x ← eval_py arr offset a;
    y ← eval_py arr offset b;
    py_binary op x y
  end.

(** [k_val == target] for [target = Fraction(t)]. *)
Definition equals_target (v : value) (t : Z) : bool :=
  match v with
  | VInt n => n =? t
  | VFraction q => Qeq_bool q (inject_Z t)
  | VFloat f => Float.eq_int f t
  | VStr _ => false
  end.

(** The body of the [try] of the rotation loop. *)
Definition converged (e : expr) (target offset : Z) (arr : list Py.str)
    : bool :=
  match eval_py arr offset e with
  | Ok v => equals_target v target
  | Raise _ => false
  end.

(** The rotation of [main] for a bootstrap with the expression [e]. *)
Definition rotate_table (e : expr) (target offset : Z) (arr : list Py.str)
    : res (list Py.str) * nat :=
  rotate_until (converged e target offset) arr.

(** *** The same expressions in exact rational arithmetic

    Numbers are rationals in lowest terms whatever their origin;
    strings are as in Python. *)
Inductive xvalue :=
| XNum (q : Q)
| XStr (s : Py.str).

Definition exact_binary (op : binop) (x y : xvalue) : res xvalue :=
  match x, y with
  | XNum p, XNum q => XNum <$> fraction_binary op p q
  | XStr s, XStr t =>
    match op with Add => Ok (XStr (s ++ t)) | _ => Raise TypeError end
  | XStr s, XNum q | XNum q, XStr s =>
    match op with
    | Mul => if (Qden q =? 1)%positive then Ok (XStr (str_repeat s (Qnum q)))
             else Raise TypeError
    | _ => Raise TypeError
    end
  end.

Fixpoint eval_exact (arr : list Py.str) (offset : Z) (e : expr)
    : res xvalue :=
  match e with
  | Lit n => Ok (XNum (inject_Z n))
  | DecodeCall e =>
    v ← eval_exact arr offset e;
    match v with
    | XNum q => if (Qden q =? 1)%positive
                then XStr <$> decode arr offset (Qnum q)
                else Raise TypeError
    | XStr _ => Raise TypeError
    end
  | ParseInt e =>
    v ← eval_exact arr offset e;
    XNum <$> parse_int_text
               match v with XNum q => decimal_of_fraction q | XStr s => s end
  | Neg e =>
    v ← eval_exact arr offset e;
    match v with
    | XNum q => Ok (XNum (Qred (- q)))
    | XStr _ => Raise TypeError
    end
  | Bin op a b =>
    x ← eval_exact arr offset a;
    y ← eval_exact arr offset b;
    exact_binary op x y
  end.

(** The exact value a Python value stands for; a float stands for
    none. *)
Definition exact_of (v : value) : option xvalue :=
  match v with
  | VInt n => Some (XNum (inject_Z n))
  | VFraction q => Some (XNum q)
  | VFloat _ => None
  | VStr s => Some (XStr s)
  end.

(** Expressions whose value is an integer: literals under minus, plus
    and times. *)
Fixpoint is_int_expr (e : expr) : bool :=
  match e with
  | Lit _ => true
  | Neg e => is_int_expr e
  | Bin Div _ _ => false
  | Bin _ a b => is_int_expr a && is_int_expr b
  | DecodeCall _ | ParseInt _ => false
  end.

(** No division of an integer expression by an integer expression. *)
Fixpoint fraction_divisions (e : expr) : bool :=
  match e with
  | Lit _ => true
  | DecodeCall e | ParseInt e | Neg e => fraction_divisions e
  | Bin op a b =>
    fraction_divisions a && fraction_divisions b
    && match op with
       | Div => negb (is_int_expr a && is_int_expr b)
       | _ => true
       end
  end.
End Evaluation.

(** ** The export stripper *)

Section StripExports.
Context `{PyRuntime}.

(** The first pattern of [_strip_exports], its parts spaced out:
    [\b export \s* \{ [^}]* \} \s* ;? \s* $] *)
Definition export_clause_re : Re.regex :=
  Re.Cat [Re.WordB; Re.Lit (Py.lit "export"); Re.Star Py.isspace;
          Re.Chr (Z.eqb 123); Re.Star (λ c, negb (c =? 125));
          Re.Chr (Z.eqb 125); Re.Star Py.isspace;
          Re.Opt (Re.Chr (Z.eqb 59)); Re.Star Py.isspace; Re.Eol].

(** The second pattern: [\b export \s+ default \s+] *)
Definition export_default_re : Re.regex :=
  Re.Cat [Re.WordB; Re.Lit (Py.lit "export"); Re.Plus Py.isspace;
          Re.Lit (Py.lit "default"); Re.Plus Py.isspace].

Definition _strip_exports (js : Py.str) : Py.str :=
  let js := Re.remove export_clause_re js in
  Re.remove export_default_re js.
End StripExports.

(** A trailing export clause: the keyword, a brace group without a
    closing brace inside, an optional semicolon, white space around. *)
Definition ExportClause (clause : Py.str) : Prop :=
  ∃ ws1 body ws2 semi ws3,
    clause = Py.lit "export" ++ ws1 ++ [123] ++ body ++ [125]
             ++ ws2 ++ semi ++ ws3
    ∧ forallb Py.isspace ws1 = true ∧ forallb (λ c, negb (c =? 125)) body = true
    ∧ forallb Py.isspace ws2 = true ∧ (semi = [] ∨ semi = [59])
    ∧ forallb Py.isspace ws3 = true.

(** The words [export default], white space between them, nowhere in
    the text. *)
Definition no_export_default (js : Py.str) : Prop :=
  ∀ pre ws post,
    js = pre ++ Py.lit "export" ++ ws ++ Py.lit "default" ++ post →
    ¬ (ws ≠ [] ∧ forallb Py.isspace ws = true).

(** A place where a pattern of the stripper can match: the word
    [export] followed, after optional white space, by an opening brace,
    or, after white space, by the word [default]; [before] is the text
    before the place. *)
Definition export_start (before js : Py.str) : Prop :=
  ∃ ws after,
    js = before ++ Py.lit "export" ++ ws ++ after
    ∧ forallb Py.isspace ws = true
    ∧ ((∃ r, after = 123 :: r)
       ∨ ws ≠ [] ∧ ∃ r, after = Py.lit "default" ++ r).

(** A text [export default <expr>]: the two words, white space after
    each, and the expression. *)
Definition ExportDefault (post expr : Py.str) : Prop :=
  ∃ ws ws',
    post = Py.lit "export" ++ ws ++ Py.lit "default" ++ ws' ++ expr
    ∧ ws ≠ [] ∧ forallb Py.isspace ws = true
    ∧ ws' ≠ [] ∧ forallb Py.isspace ws' = true
    ∧ ∀ x r, expr = x :: r → Py.isspace x = false.

(** A test for such a place at the head of a text. *)
Definition export_start_here (js : Py.str) : bool :=
  Py.starts_with (Py.lit "export") js
  && (let after := drop 6 js in
      Py.starts_with [123] (Py.lstrip after)
      || negb (length (Py.lstrip after) =? length after)%nat
         && Py.starts_with (Py.lit "default") (Py.lstrip after)).

(** The offsets of a text, from [i] on and [n] of them at most, at
    which the test holds. *)
Fixpoint export_starts (js : Py.str) (i n : nat) {struct n} : list nat :=
  match n with
  | O => []
  | S n' =>
    (if export_start_here js then [i] else [])
    ++ match js with
       | [] => []
       | _ :: js' => export_starts js' (S i) n'
       end
  end.

(** ** A sample worker

    A worker of the shape the script expects: the bootstrap IIFE, the
    decoder [Q] with offset 1, the array provider [a] whose first string
    holds the words [export default], and the export clause at the end. *)
Definition sample_worker : Py.str :=
  Py.lit "(function(X,O){const un=Q,c=X();while(!![]){try{const K=-parseInt(un(0x1))/0x1+parseInt(un(0x2))/0x2;if(K===O)break;else c['push'](c['shift']());}catch(e){c['push'](c['shift']());}}}(a,0x7));function Q(p,k){p=p-0x1;const t=a();return t[p];}function a(){const r=["
  ++ [dquote] ++ Py.lit "export default x" ++ [dquote]
  ++ Py.lit ",'14','z'];a=function(){return r;};return a();}"
  ++ Py.lit "export{Q as default};".

(** The string table in what the recognisers return. *)
Definition table_of (r : outcome (bootstrap * Z * list Py.str))
    : option (list Py.str) :=
  match r with
  | Ends (Ok (_, _, arr)) => Some arr
  | _ => None
  end.

(** * Further definitions: shapes of texts and of results *)

(** ** Cyclic shifts of the string table *)

(** The table with its first [k] entries moved to the end, in order. *)
Definition cyclic_shift (k : nat) (arr : list Py.str) : list Py.str :=
  drop k arr ++ take k arr.

(** ** Hexadecimal digit strings and the first closing brace *)

(** The number a string of hexadecimal digits denotes. *)
Definition hex_value (hs : Py.str) : Z :=
  fold_left (λ acc h, acc * 16 + Py.digit_value h) hs 0.

(** [body.find("}", i + 1)] seen from [body[i + 1:]]: the text before
    the first closing brace and the text after it. *)
Fixpoint split_at_brace (l : Py.str) : option (Py.str * Py.str) :=
  match l with
  | [] => None
  | x :: l' =>
    if x =? 125 then Some ([], l')
    else (λ ab, (x :: ab.1, ab.2)) <$> split_at_brace l'
  end.

(** The character a one-letter escape stands for: n r t b f v and
    the digit 0; any other letter stands for itself. *)
Definition simple_escape (esc : Z) : Z :=
  if esc =? 110 then 10
  else if esc =? 114 then 13
  else if esc =? 116 then 9
  else if esc =? 98 then 8
  else if esc =? 102 then 12
  else if esc =? 118 then 11
  else if esc =? 48 then 0
  else esc.

(** ** Occurrences of a text in another *)

(** [sub] occurs in [s]. *)
Definition occurs (sub s : Py.str) : Prop := ∃ pre post, s = pre ++ sub ++ post.

(** The marker of the bootstrap IIFE. *)
Definition bootstrap_marker : Py.str := Py.lit "(function(X,O){".

(** The text [function name(] that [_extract_function] looks for. *)
Definition function_header (fn_name : Py.str) : Py.str :=
  Py.lit "function " ++ fn_name ++ [40].

(** The text [function Q(] that [_extract_q_offset] looks for. *)
Definition decoder_header : Py.str := Py.lit "function Q(".

(** ** String literals in the array of the provider *)

(** A string literal as the element loop reads it: a quote, a body of
    escaped pairs and of characters other than the quote and the
    backslash, and the quote again. *)
Definition QuotedLiteral (literal : Py.str) : Prop :=
  ∃ q body, is_quote q = true ∧ StrBody q body ∧ literal = q :: body ++ [q].

(** The literals of an array, a comma between two of them. *)
Fixpoint comma_separated (literals : list Py.str) : Py.str :=
  match literals with
  | [] => []
  | [l] => l
  | l :: ls => l ++ [44] ++ comma_separated ls
  end.

Section DecodeAll.
Context `{PyRuntime}.

(** The decoder on each literal in turn; the first failure ends the
    run. *)
Fixpoint decode_all (literals : list Py.str) : res (list Py.str) :=
  match literals with
  | [] => Ok []
  | l :: ls =>
    x ← _decode_js_string_literal l;
    xs ← decode_all ls;
    Ok (x :: xs)
  end.
End DecodeAll.

(** [elements.append(x)] and then the rest of the element loop: the
    result of the loop with [x] in front, unless the element could not
    be decoded. *)
Definition emit_element (r : res Py.str) (k : outcome (list Py.str))
    : outcome (list Py.str) :=
  match r with
  | Raise e => Ends (Raise e)
  | Ok x => match k with
            | Ends (Ok xs) => Ends (Ok (x :: xs))
            | other => other
            end
  end.

(** The number a string of decimal digits denotes. *)
Definition dec_value (ds : Py.str) : Z :=
  fold_left (λ acc d, acc * 10 + Py.digit_value d) ds 0.

(** ** The expression handed to [eval] *)

(** [s.replace(old, new)] for a non-empty [old]: the occurrences of
    [old], left to right and without overlap, become [new].  [skip]
    counts the characters of the current occurrence still to be
    passed. *)
Fixpoint replace_text (old new s : Py.str) (skip : nat) : Py.str :=
  match s with
  | [] => []
  | x :: s' =>
    match skip with
    | S n => replace_text old new s' n
    | O =>
      if Py.starts_with old s
      then new ++ replace_text old new s' (length old - 1)
      else x :: replace_text old new s' 0
    end
  end.

Definition str_replace (old new s : Py.str) : Py.str := replace_text old new s 0.

(** [k_expr] of [main]: the K expression of the bootstrap with
    parseInt renamed and then the alias of the decoder renamed. *)
Definition k_expr (b : bootstrap) : Py.str :=
  str_replace (alias b) (Py.lit "decode")
    (str_replace (Py.lit "parseInt") (Py.lit "parse_int") (k_expr_js b)).

(* ================================================================= *)
(** * Properties *)

(** ** Python built-ins *)

(** Case analysis on the integer tests of the goal. *)
(** Reassociate appended lists to the right. *)
Ltac lassoc := repeat (progress (simpl; rewrite <- ?app_assoc)).

Ltac no_test a :=
  lazymatch a with
  | context [if _ then _ else _] => fail
  | _ => idtac
  end.

Ltac ztest :=
  cbv zeta;
  repeat match goal with
  | |- context [?a <? ?b] =>
      no_test a; no_test b; destruct (Z.ltb_spec a b); try lia
  | |- context [?a <=? ?b] =>
      no_test a; no_test b; destruct (Z.leb_spec a b); try lia
  | |- context [?a =? ?b] =>
      no_test a; no_test b; destruct (Z.eqb_spec a b); try lia
  end.

Lemma len_nonneg {A} (l : list A) : 0 ≤ Py.len l.
Proof. unfold Py.len. lia. Qed.

Lemma index_in_range {A} (l : list A) (i : Z) :
  0 ≤ i < Py.len l → ∃ x, l !! Z.to_nat i = Some x ∧ Py.index l i = Ok x.
Proof.
  intros Hi. unfold Py.index, Py.len in *.
  destruct (lookup_lt_is_Some_2 l (Z.to_nat i)) as [x Hx]; [lia|].
  exists x. split; [done|]. ztest. by rewrite Hx.
Qed.

Lemma index_above {A} (l : list A) (i : Z) :
  Py.len l ≤ i → Py.index l i = Raise IndexError.
Proof.
  intros Hi. pose proof (len_nonneg l). unfold Py.index, Py.len in *.
  ztest. rewrite (lookup_ge_None_2 l (Z.to_nat i)); [done | lia].
Qed.

Lemma index_wraps {A} (l : list A) (i : Z) :
  - Py.len l ≤ i < 0 → Py.index l i = Py.index l (i + Py.len l).
Proof. intros Hi. unfold Py.index. ztest. done. Qed.

Lemma index_below {A} (l : list A) (i : Z) :
  i < - Py.len l → Py.index l i = Raise IndexError.
Proof.
  intros Hi. pose proof (len_nonneg l). unfold Py.index. ztest. done.
Qed.

(** ** Decode function *)

Lemma decode_in_table (arr : list Py.str) (offset n : Z) :
  0 ≤ n - offset < Py.len arr →
  ∃ s, arr !! Z.to_nat (n - offset) = Some s ∧ decode arr offset n = Ok s.
Proof. apply index_in_range. Qed.

Lemma decode_past_end (arr : list Py.str) (offset n : Z) :
  Py.len arr ≤ n - offset → decode arr offset n = Raise IndexError.
Proof. apply index_above. Qed.

Lemma decode_before_start (arr : list Py.str) (offset n : Z) :
  n - offset < - Py.len arr → decode arr offset n = Raise IndexError.
Proof. apply index_below. Qed.

Lemma decode_negative_wraps (arr : list Py.str) (offset n : Z) :
  - Py.len arr ≤ n - offset < 0 →
  ∃ s, arr !! Z.to_nat (n - offset + Py.len arr) = Some s
       ∧ decode arr offset n = Ok s.
Proof.
  intros H. unfold decode. rewrite index_wraps by done.
  apply index_in_range. lia.
Qed.

(** C1 (fails on the code): with the table ["a"; "b"] and offset 1, the
    index 0 gives the computed position -1, which lies outside the table;
    [decode] does not fail there but returns the last entry, "b". *)
Theorem decode_negative_position_returns_last :
  let arr := [Py.lit "a"; Py.lit "b"] in
  0 - 1 < 0 ∧ decode arr 1 0 = Ok (Py.lit "b").
Proof. split; [lia | reflexivity]. Qed.

(** ** Balanced-region scanner *)

Lemma is_quote_cases q : is_quote q = true → q = squote ∨ q = dquote.
Proof. unfold is_quote. intros H. apply orb_prop in H. lia. Qed.

Lemma quote_not_backslash q : is_quote q = true → q ≠ backslash.
Proof. intros [-> | ->]%is_quote_cases; done. Qed.

Lemma len_app {A} (l1 l2 : list A) : Py.len (l1 ++ l2) = Py.len l1 + Py.len l2.
Proof. unfold Py.len. rewrite length_app. lia. Qed.

Lemma len_cons {A} (x : A) (l : list A) : Py.len (x :: l) = 1 + Py.len l.
Proof. unfold Py.len. simpl. lia. Qed.

Section ScanProofs.
Variables o c : Z.
Local Abbreviation scan := (scan_loop o c).

(** The loop reads a whole string body and its closing quote. *)
Lemma scan_string_body q b :
  StrBody q b → q ≠ backslash → ∀ l i d,
  scan (b ++ q :: l) i d (Some q) false
  = scan l (i + Py.len b + 1) d None false.
Proof.
  induction 1 as [| x l' _ IH | x l' Hq Hb _ IH]; intros Hne l i d.
  - simpl. rewrite (proj2 (Z.eqb_neq q backslash)) by done.
    rewrite Z.eqb_refl. f_equal. unfold Py.len. simpl. lia.
  - simpl. rewrite IH by done. f_equal. rewrite !len_cons. lia.
  - simpl. rewrite (proj2 (Z.eqb_neq x backslash)) by done.
    rewrite (proj2 (Z.eqb_neq x q)) by done.
    rewrite IH by done. f_equal. rewrite len_cons. lia.
Qed.

(** Outside strings and at positive depth, the loop reads a sequence of
    items and comes back to the depth it started from. *)
Lemma scan_items r :
  proper_pair o c → Items o c r → ∀ l i d, 0 < d →
  scan (r ++ l) i d None false = scan l (i + Py.len r) d None false.
Proof.
  intros (Hoc & Ho & Hc).
  induction 1 as [| x r' Hq Hxo Hxc _ IH | q b r' Hq Hb _ IH
                  | r1 r2 _ IH1 _ IH2]; intros l i d Hd.
  - simpl. f_equal. unfold Py.len. simpl. lia.
  - simpl. rewrite Hq.
    rewrite (proj2 (Z.eqb_neq x o)), (proj2 (Z.eqb_neq x c)) by done.
    rewrite IH by done. f_equal. rewrite len_cons. lia.
  - simpl. rewrite Hq. rewrite <- app_assoc. simpl.
    rewrite scan_string_body by eauto using quote_not_backslash.
    rewrite IH by done. f_equal.
    rewrite len_cons, len_app, len_cons. lia.
  - simpl. rewrite Ho, Z.eqb_refl. rewrite <- app_assoc. simpl.
    rewrite IH1 by lia. simpl. rewrite Hc.
    rewrite (proj2 (Z.eqb_neq c o)) by done. rewrite Z.eqb_refl.
    rewrite (proj2 (Z.eqb_neq (d + 1 - 1) 0)) by lia.
    replace (d + 1 - 1) with d by lia.
    rewrite IH2 by done. f_equal.
    rewrite len_cons, len_app, len_cons. lia.
Qed.

(** Completeness: a text that closes the [n] pending regions makes the
    loop return at its last character. *)
Lemma scan_closes n pre :
  proper_pair o c → Closes o c n pre → (0 < n)%nat → ∀ post i,
  scan (pre ++ post) i (Z.of_nat n) None false = Some (i + Py.len pre).
Proof.
  intros Hp. induction 1 as [| n r l Hr Hl IH]; intros Hn post i; [lia|].
  rewrite <- app_assoc. rewrite scan_items by (done || lia).
  destruct Hp as (Hoc & Ho & Hc). simpl. rewrite Hc.
  rewrite (proj2 (Z.eqb_neq c o)) by done. rewrite Z.eqb_refl.
  destruct n as [|n].
  - inversion Hl; subst. simpl. f_equal.
    rewrite len_app, len_cons. unfold Py.len; simpl. lia.
  - rewrite (proj2 (Z.eqb_neq (Z.of_nat (S (S n)) - 1) 0)) by lia.
    replace (Z.of_nat (S (S n)) - 1) with (Z.of_nat (S n)) by lia.
    rewrite IH by lia. f_equal. rewrite len_app, len_cons. lia.
Qed.

(** Soundness inside a string: a returning loop has read a string body
    and its closing quote first. *)
Lemma scan_string_inv n : ∀ rest, (length rest ≤ n)%nat →
  ∀ q i d e, q ≠ backslash →
  scan rest i d (Some q) false = Some e →
  ∃ b rest', rest = b ++ q :: rest' ∧ StrBody q b
             ∧ scan rest' (i + Py.len b + 1) d None false = Some e.
Proof.
  induction n as [n IH] using lt_wf_ind.
  intros [|ch rest] Hlen q i d e Hq; simpl; [done|].
  destruct (Z.eqb_spec ch backslash) as [-> | Hch].
  - destruct rest as [|x rest]; simpl; [done|]. intros H.
    destruct (IH (length rest)) with (rest := rest) (q := q)
      (i := i + 1 + 1) (d := d) (e := e) as (b & rest' & -> & Hb & Hs);
      simpl in *; try lia; try done.
    exists (backslash :: x :: b), rest'. split; [done|].
    split; [by constructor|]. rewrite <- Hs. f_equal.
    rewrite !len_cons. lia.
  - destruct (Z.eqb_spec ch q) as [-> | Hchq]; intros H.
    + exists [], rest. split; [done|]. split; [constructor|].
      rewrite <- H. f_equal. unfold Py.len; simpl. lia.
    + destruct (IH (length rest)) with (rest := rest) (q := q)
        (i := i + 1) (d := d) (e := e) as (b & rest' & -> & Hb & Hs);
        simpl in *; try lia; try done.
      exists (ch :: b), rest'. split; [done|].
      split; [by constructor|]. rewrite <- Hs. f_equal.
      rewrite !len_cons. lia.
Qed.

Lemma Closes_inv d pre :
  Closes o c (S d) pre →
  ∃ r l, pre = r ++ c :: l ∧ Items o c r ∧ Closes o c d l.
Proof. inversion 1; subst. eauto. Qed.

Lemma closes_S' d r l pre :
  Items o c r → Closes o c d l → pre = r ++ c :: l → Closes o c (S d) pre.
Proof. intros ?? ->. by constructor. Qed.

(** Soundness outside strings: a loop returning from depth [d] has read
    a text that closes [d] pending regions. *)
Lemma scan_code_inv n : ∀ rest, (length rest ≤ n)%nat →
  ∀ i d e, 0 < d →
  scan rest i d None false = Some e →
  ∃ pre post, rest = pre ++ post ∧ Closes o c (Z.to_nat d) pre
              ∧ e = i + Py.len pre.
Proof.
  induction n as [n IH] using lt_wf_ind.
  intros [|ch rest] Hlen i d e Hd; simpl; [done|].
  destruct (is_quote ch) eqn:Hq.
  { intros H.
    apply (scan_string_inv (length rest)) in H
      as (b & rest' & -> & Hb & H); [|done|by apply quote_not_backslash].
    apply (IH (length rest')) in H as (pre & post & -> & Hpre & ->);
      [| simpl in Hlen; rewrite length_app in Hlen; simpl in Hlen; lia
       | done | done].
    replace (Z.to_nat d) with (S (Z.to_nat (d - 1))) in * by lia.
    apply Closes_inv in Hpre as (r & l & -> & Hr & Hl).
    exists (ch :: b ++ ch :: r ++ c :: l), post. split.
    { by lassoc. }
    split.
    { apply (closes_S' _ (ch :: b ++ ch :: r) l);
        [by constructor | done | by lassoc]. }
    rewrite !len_cons, !len_app, !len_cons, len_app, len_cons. lia. }
  destruct (Z.eqb_spec ch o) as [-> | Hcho].
  { intros H.
    apply (IH (length rest)) in H as (pre & post & -> & Hpre & ->);
      [| simpl in Hlen; lia | done | lia].
    replace (Z.to_nat (d + 1)) with (S (S (Z.to_nat (d - 1)))) in * by lia.
    apply Closes_inv in Hpre as (r1 & l1 & -> & Hr1 & Hl1).
    apply Closes_inv in Hl1 as (r2 & l2 & -> & Hr2 & Hl2).
    exists (o :: r1 ++ c :: r2 ++ c :: l2), post. split.
    { by lassoc. }
    split.
    { replace (Z.to_nat d) with (S (Z.to_nat (d - 1))) by lia.
      apply (closes_S' _ (o :: r1 ++ c :: r2) l2);
        [by constructor | done | by lassoc]. }
    rewrite !len_cons. lia. }
  destruct (Z.eqb_spec ch c) as [-> | Hchc].
  { destruct (Z.eqb_spec (d - 1) 0) as [Hd1 | Hd1].
    - intros [= <-]. exists [c], rest. split; [done|]. split.
      + replace (Z.to_nat d) with 1%nat by lia.
        apply (closes_S o c 0 [] []); constructor.
      + unfold Py.len; simpl. lia.
    - intros H.
      apply (IH (length rest)) in H as (pre & post & -> & Hpre & ->);
        [| simpl in Hlen; lia | done | lia].
      exists (c :: pre), post. split; [done|]. split.
      + replace (Z.to_nat d) with (S (Z.to_nat (d - 1))) by lia.
        apply (closes_S o c _ [] pre); [constructor | done].
      + rewrite len_cons. lia. }
  intros H.
  apply (IH (length rest)) in H as (pre & post & -> & Hpre & ->);
    [| simpl in Hlen; lia | done | lia].
  replace (Z.to_nat d) with (S (Z.to_nat (d - 1))) in * by lia.
  apply Closes_inv in Hpre as (r & l & -> & Hr & Hl).
  exists (ch :: r ++ c :: l), post. split; [done|]. split.
  - apply (closes_S' _ (ch :: r) l); [by constructor | done | done].
  - rewrite !len_cons. lia.
Qed.

(** A pair whose close character is a quote, or is the open character,
    never brings the depth down: the loop falls off the text. *)
Lemma scan_no_close rest :
  is_quote c = true ∨ c = o →
  ∀ i d s esc, scan rest i d s esc = None.
Proof.
  intros Hc. induction rest as [|ch rest IH]; intros i d s esc; [done|].
  simpl. destruct s as [q|].
  - destruct esc; [apply IH|]. repeat case_match; apply IH.
  - destruct (is_quote ch) eqn:Hq; [apply IH|].
    destruct (Z.eqb_spec ch o) as [-> | Hcho]; [apply IH|].
    destruct (Z.eqb_spec ch c) as [-> | Hchc]; [|apply IH].
    destruct Hc; congruence.
Qed.

(** A pair whose open character is a quote never raises the depth. *)
Lemma scan_no_open rest :
  is_quote o = true →
  ∀ i d s esc, d ≤ 0 → scan rest i d s esc = None.
Proof.
  intros Ho. induction rest as [|ch rest IH]; intros i d s esc Hd; [done|].
  simpl. destruct s as [q|].
  - destruct esc; [by apply IH|]. repeat case_match; by apply IH.
  - destruct (is_quote ch) eqn:Hq; [by apply IH|].
    destruct (Z.eqb_spec ch o) as [-> | Hcho]; [congruence|].
    destruct (Z.eqb_spec ch c) as [-> | Hchc]; [|by apply IH].
    destruct (Z.eqb_spec (d - 1) 0); [lia|]. apply IH. lia.
Qed.
End ScanProofs.

Lemma clamp_in_range {A} (l : list A) (i : Z) :
  0 ≤ i ≤ Py.len l → Py.clamp l i = Z.to_nat i.
Proof. intros H. unfold Py.clamp. ztest. Qed.

Lemma slice_of_drop {A} (l pre post : list A) (a : Z) :
  0 ≤ a → drop (Z.to_nat a) l = pre ++ post →
  Py.slice l a (a + Py.len pre) = pre.
Proof.
  intros Ha Hd.
  destruct pre as [|x pre].
  { unfold Py.slice, Py.len. simpl. rewrite Z.add_0_r, Nat.sub_diag.
    apply take_0. }
  assert (Hlen : a + Py.len (x :: pre) ≤ Py.len l).
  { apply (f_equal length) in Hd. rewrite length_drop, length_app in Hd.
    unfold Py.len. simpl in *. lia. }
  pose proof (len_nonneg (x :: pre)).
  unfold Py.slice. rewrite !clamp_in_range by lia. rewrite Hd.
  replace (Z.to_nat (a + Py.len (x :: pre)) - Z.to_nat a)%nat
    with (length (x :: pre)) by (unfold Py.len; lia).
  by rewrite take_app_length.
Qed.

Lemma extract_balanced_unfold (js : Py.str) (start o c : Z) :
  0 ≤ start → Py.index js start = Ok o →
  ∃ rest, drop (Z.to_nat start) js = o :: rest
    ∧ _extract_balanced js start o c
      = match scan_loop o c (o :: rest) start 0 None false with
        | Some e => Ok (Py.slice js start e, e)
        | None => Raise (ValueError UnbalancedBrackets)
        end.
Proof.
  intros Hs Hi. unfold _extract_balanced, chars_from. rewrite Hi.
  unfold Py.index in Hi. revert Hi. ztest.
  destruct (js !! Z.to_nat start) as [x|] eqn:Hx; intros Hi;
    [|discriminate Hi].
  injection Hi as ->.
  exists (drop (S (Z.to_nat start)) js). split.
  { by apply drop_S. }
  rewrite (drop_S js o (Z.to_nat start)) by done.
  unfold mbind, res_bind. by rewrite Z.eqb_refl.
Qed.

Lemma proper_pair_dec (o c : Z) :
  proper_pair o c ∨ (is_quote o = true ∨ is_quote c = true ∨ c = o).
Proof.
  unfold proper_pair.
  destruct (is_quote o); [by auto|]. destruct (is_quote c); [by auto|].
  destruct (decide (c = o)) as [->|]; [by auto|]. left. by auto.
Qed.

Lemma extract_balanced_improper (js : Py.str) (start o c : Z) :
  0 ≤ start → Py.index js start = Ok o → ¬ proper_pair o c →
  _extract_balanced js start o c = Raise (ValueError UnbalancedBrackets).
Proof.
  intros Hs Hi Hnp.
  destruct (extract_balanced_unfold js start o c Hs Hi) as (rest & _ & ->).
  destruct (proper_pair_dec o c) as [|[Ho | Hc]]; [done | |].
  - by rewrite scan_no_open.
  - rewrite scan_no_close; [done|]. destruct Hc; auto.
Qed.

Lemma extract_balanced_sound (js : Py.str) (start o c : Z) region e :
  0 ≤ start → Py.index js start = Ok o →
  _extract_balanced js start o c = Ok (region, e) →
  Balanced o c region ∧ region `prefix_of` drop (Z.to_nat start) js
  ∧ e = start + Py.len region.
Proof.
  intros Hs Hi.
  destruct (proper_pair_dec o c) as [(Hoc & Ho & Hc) | Hnp]; cycle 1.
  { rewrite extract_balanced_improper; [done..|].
    unfold proper_pair. intros (? & ? & ?).
    destruct Hnp as [? | [? | ?]]; congruence. }
  destruct (extract_balanced_unfold js start o c Hs Hi) as (rest & Hd & ->).
  simpl. rewrite Ho, Z.eqb_refl.
  destruct (scan_loop o c rest (start + 1) (0 + 1) None false) as [e'|] eqn:Hsc;
    [|done].
  apply (scan_code_inv o c (length rest)) in Hsc
    as (pre & post & -> & Hpre & ->); [|done|lia].
  change (Z.to_nat (0 + 1)) with 1%nat in Hpre.
  apply Closes_inv in Hpre as (r & l & -> & Hr & Hl). inversion Hl; subst.
  intros [= <- <-].
  assert (Hreg : Py.slice js start (start + 1 + Py.len (r ++ [c]))
                 = o :: r ++ [c]).
  { replace (start + 1 + Py.len (r ++ [c]))
      with (start + Py.len (o :: r ++ [c])) by (rewrite len_cons; lia).
    apply (slice_of_drop js _ post); [done|]. rewrite Hd. by lassoc. }
  rewrite Hreg. split; [by exists r|]. split.
  - rewrite Hd. exists post. by lassoc.
  - rewrite len_cons. lia.
Qed.

Lemma extract_balanced_complete (js : Py.str) (start o c : Z) region :
  0 ≤ start → proper_pair o c →
  Balanced o c region → region `prefix_of` drop (Z.to_nat start) js →
  _extract_balanced js start o c = Ok (region, start + Py.len region).
Proof.
  intros Hs Hp (body & Hbody & ->) [post Hpost].
  assert (Hi : Py.index js start = Ok o).
  { unfold Py.index. ztest.
    rewrite <- (Nat.add_0_r (Z.to_nat start)), <- lookup_drop, Hpost. done. }
  destruct (extract_balanced_unfold js start o c Hs Hi) as (rest & Hd & ->).
  assert (rest = (body ++ [c]) ++ post) as ->.
  { rewrite Hd in Hpost. simpl in Hpost. by injection Hpost. }
  destruct Hp as (Hoc & Ho & Hc). simpl. rewrite Ho, Z.eqb_refl.
  rewrite (scan_closes o c 1 (body ++ [c])); [|done| |lia].
  - replace (start + 1 + Py.len (body ++ [c]))
      with (start + Py.len (o :: body ++ [c])) by (rewrite len_cons; lia).
    by rewrite (slice_of_drop js (o :: body ++ [c]) post).
  - apply (closes_S o c 0 body []); [done | constructor].
Qed.

(** C4: for a start position holding the open character, the scanner
    returns the one prefix of the text from [start] that is a balanced
    region of the grammar (quoted strings are opaque items of it, so the
    delimiters inside them do not count), with the offset just after its
    closing delimiter; it raises "Unbalanced brackets" exactly when no
    prefix is a balanced region; and it does nothing else.  A pair made
    of equal characters or of a quote has no balanced region at all. *)
Theorem extract_balanced_structural (js : Py.str) (start o c : Z) :
  0 ≤ start → Py.index js start = Ok o →
  let rest := drop (Z.to_nat start) js in
  let unbalanced := Raise (ValueError UnbalancedBrackets) in
  (proper_pair o c →
     (∀ region e,
        _extract_balanced js start o c = Ok (region, e) ↔
        Balanced o c region ∧ region `prefix_of` rest
        ∧ e = start + Py.len region)
     ∧ (_extract_balanced js start o c = unbalanced ↔
        ∀ region, region `prefix_of` rest → ¬ Balanced o c region))
  ∧ (¬ proper_pair o c → _extract_balanced js start o c = unbalanced)
  ∧ ((∃ region e, _extract_balanced js start o c = Ok (region, e))
     ∨ _extract_balanced js start o c = unbalanced).
Proof.
  intros Hs Hi rest unbalanced.
  assert (Htotal : (∃ region e, _extract_balanced js start o c = Ok (region, e))
                   ∨ _extract_balanced js start o c = unbalanced).
  { destruct (extract_balanced_unfold js start o c Hs Hi) as (r & _ & ->).
    destruct (scan_loop o c (o :: r) start 0 None false); eauto. }
  split; [|split; [by apply extract_balanced_improper | done]].
  intros Hp. split.
  - intros region e. split; [by apply extract_balanced_sound|].
    intros (Hb & Hpre & ->). by apply extract_balanced_complete.
  - split.
    + intros Hu region Hpre Hb.
      rewrite (extract_balanced_complete js start o c region) in Hu; done.
    + intros Hno. destruct Htotal as [(region & e & He) | ->]; [|done].
      apply extract_balanced_sound in He as (Hb & Hpre & _); [|done..].
      by destruct (Hno region).
Qed.

(** The script's use: a brace region whose string holds a closing brace. *)
Lemma extract_balanced_structural_witness :
  let js := Py.lit "f{a'}'{b}}c" in
  0 ≤ 1 ∧ Py.index js 1 = Ok 123
  ∧ _extract_balanced js 1 123 125 = Ok (Py.lit "{a'}'{b}}", 10).
Proof.
  split; [lia|]. split; [reflexivity|].
  pose proof (extract_balanced_structural (Py.lit "f{a'}'{b}}c") 1 123 125)
    as H.
  destruct H as [H _]; [lia | reflexivity |].
  destruct H as [H _]; [by repeat split|].
  reflexivity.
Defined.

(** ** String literals: decoding and encoding *)

Lemma index_first {A} (x : A) (l : list A) : Py.index (x :: l) 0 = Ok x.
Proof. reflexivity. Qed.

Lemma index_last {A} (l : list A) (y : A) : Py.index (l ++ [y]) (-1) = Ok y.
Proof.
  unfold Py.index. rewrite len_app. pose proof (len_nonneg l).
  change (Py.len [y]) with 1. ztest.
  replace (Z.to_nat (-1 + (Py.len l + 1))) with (length l)
    by (unfold Py.len; lia).
  by rewrite lookup_app_r, Nat.sub_diag by lia.
Qed.

Lemma slice_inner {A} (x y : A) (l : list A) :
  Py.slice (x :: l ++ [y]) 1 (-1) = l.
Proof.
  unfold Py.slice, Py.clamp. rewrite len_cons, len_app.
  pose proof (len_nonneg l). change (Py.len [y]) with 1.
  ztest.
  replace (Z.to_nat ((1 `max` 0) `min` (1 + (Py.len l + 1))))
    with 1%nat by lia.
  replace (Z.to_nat (((-1 + (1 + (Py.len l + 1))) `max` 0)
                     `min` (1 + (Py.len l + 1))))
    with (S (length l)) by (unfold Py.len; lia).
  simpl. rewrite Nat.sub_0_r, drop_0. by rewrite take_app_length.
Qed.

Lemma small_cases (P : Z → Prop) :
  (∀ i, (i < 32)%nat → P (Z.of_nat i)) → ∀ c, 0 ≤ c ≤ 31 → P c.
Proof.
  intros HP c Hc. replace c with (Z.of_nat (Z.to_nat c)) by lia.
  apply HP. lia.
Qed.

Section LiteralProofs.
Context `{PyRuntime}.

(** The decoder undoes the escape of one character. *)
Lemma decode_body_escape (c : Z) (rest : Py.str) :
  0 ≤ c →
  decode_body (json_escape c ++ rest) = (c ::.) <$> decode_body rest.
Proof.
  intros Hc. destruct (Z.leb_spec c 31) as [Hlow | Hhigh].
  - revert rest. pattern c. apply small_cases; [|lia]. clear c Hc Hlow.
    intros i Hi rest.
    do 32 (destruct i as [|i]; [reflexivity|]). lia.
  - unfold json_escape.
    destruct (Z.eqb_spec c dquote) as [-> | ?]; [reflexivity|].
    destruct (Z.eqb_spec c backslash) as [-> | ?]; [reflexivity|].
    unfold backslash, dquote in *. ztest. simpl.
    by rewrite (proj2 (Z.eqb_neq c backslash)).
Qed.

Lemma decode_body_escaped (s : Py.str) :
  code_points s → decode_body (concat (json_escape <$> s)) = Ok s.
Proof.
  induction 1 as [| c s Hc _ IH]; [done|].
  rewrite fmap_cons. simpl concat.
  rewrite decode_body_escape by lia. by rewrite IH.
Qed.

Lemma escape_is_valid (c : Z) (l : Py.str) :
  0 ≤ c → DoubleStringChars l → DoubleStringChars (json_escape c ++ l).
Proof.
  intros Hc Hl. destruct (Z.leb_spec c 31) as [Hlow | Hhigh].
  - revert l Hl. pattern c. apply small_cases; [|lia]. clear c Hc Hlow.
    intros i Hi l Hl.
    do 32 (destruct i as [|i];
           [first [by apply dsc_unicode | by apply dsc_single]|]).
    lia.
  - unfold json_escape.
    destruct (Z.eqb_spec c dquote) as [-> | ?]; [by apply dsc_single|].
    destruct (Z.eqb_spec c backslash) as [-> | ?]; [by apply dsc_single|].
    unfold backslash, dquote in *. ztest. simpl.
    apply dsc_char; unfold backslash, dquote; (done || lia).
Qed.

Lemma escaped_is_valid (s : Py.str) :
  code_points s → DoubleStringChars (concat (json_escape <$> s)).
Proof.
  induction 1 as [| c s Hc _ IH]; [constructor|].
  rewrite fmap_cons. simpl concat. apply escape_is_valid; [lia | done].
Qed.

(** C7: decoding the literal that the rewriter's encoder (json.dumps
    with ensure_ascii off) produces for a string gives the string back,
    and that literal is a double-quoted ECMAScript string literal. *)
Theorem literal_round_trip (s : Py.str) :
  code_points s →
  _decode_js_string_literal (json_dumps s) = Ok s
  ∧ JsStringLiteral (json_dumps s).
Proof.
  intros Hs. split.
  - unfold _decode_js_string_literal, json_dumps. simpl app.
    rewrite index_first, slice_inner.
    change (dquote :: concat (json_escape <$> s) ++ [dquote])
      with ((dquote :: concat (json_escape <$> s)) ++ [dquote]) at 2.
    rewrite (index_last (dquote :: concat (json_escape <$> s)) dquote).
    replace (2 <=? Py.len (dquote :: concat (json_escape <$> s) ++ [dquote]))
      with true.
    + simpl. by apply decode_body_escaped.
    + rewrite len_cons, len_app.
      pose proof (len_nonneg (concat (json_escape <$> s))).
      change (Py.len [dquote]) with 1. symmetry. apply Z.leb_le. lia.
  - exists (concat (json_escape <$> s)). split; [|done].
    by apply escaped_is_valid.
Qed.

(** An escape cut short by the end of the body, case by case. *)
Lemma decode_trailing_backslash :
  _decode_js_string_literal ([dquote] ++ Py.lit "ab\" ++ [dquote])
  = Ok (Py.lit "ab").
Proof. reflexivity. Qed.

Lemma decode_short_hex_escape :
  _decode_js_string_literal ([dquote] ++ Py.lit "a\x4" ++ [dquote])
  = Ok (Py.lit "ax4").
Proof. reflexivity. Qed.

Lemma decode_short_unicode_escape :
  _decode_js_string_literal ([dquote] ++ Py.lit "a\u41" ++ [dquote])
  = Ok (Py.lit "aA").
Proof. reflexivity. Qed.

Lemma decode_open_brace_escape :
  _decode_js_string_literal ([dquote] ++ Py.lit "a\u{41" ++ [dquote])
  = Ok (Py.lit "au{41").
Proof. reflexivity. Qed.

(** C8 (fails on the code): the literal whose body is a backslash and
    the letter u, with no digit before the body ends, is not decoded:
    the conversion of the empty digit string raises ValueError. *)
Theorem decode_bare_unicode_escape_raises :
  _decode_js_string_literal ([dquote] ++ Py.lit "\u" ++ [dquote])
  = Raise (ValueError InvalidIntLiteral).
Proof. reflexivity. Qed.
End LiteralProofs.

(** ** The matcher finds matches of the pattern *)

Section MatcherProofs.
Context `{PyRuntime}.

Lemma last_char_app prev m1 m2 :
  last_char (last_char prev m1) m2 = last_char prev (m1 ++ m2).
Proof.
  unfold last_char. rewrite last_app.
  destruct (last m2); [done|]. by destruct (last m1).
Qed.

Lemma last_char_cons prev x mt :
  last_char (Some x) mt = last_char prev (x :: mt).
Proof.
  change (x :: mt) with ([x] ++ mt). by rewrite <- last_char_app.
Qed.

Lemma take_matched {A} (mt rest : list A) :
  take (length (mt ++ rest) - length rest) (mt ++ rest) = mt.
Proof.
  rewrite length_app.
  replace (length mt + length rest - length rest)%nat with (length mt)
    by lia.
  by rewrite take_app_length.
Qed.

Section Sound.
Context {A : Type}.
Implicit Types k : @Re.cont A.

Lemma star_sound p k : ∀ s prev c a,
  Re.star p k prev s c = Some a →
  ∃ mt rest, s = mt ++ rest ∧ forallb p mt = true
             ∧ k (last_char prev mt) rest c = Some a.
Proof.
  induction s as [|x s IH]; intros prev c a; simpl.
  { intros Hk. by exists [], []. }
  destruct (p x) eqn:Hp; cycle 1.
  { intros Hk. by exists [], (x :: s). }
  destruct (Re.star p k (Some x) s c) as [a'|] eqn:Hs.
  - intros [= ->]. apply IH in Hs as (mt & rest & -> & Hall & Hk).
    exists (x :: mt), rest. split; [done|]. split.
    + simpl. by rewrite Hp.
    + by rewrite <- (last_char_cons prev).
  - intros Hk. by exists [], (x :: s).
Qed.

Lemma run_sound r : ∀ k prev s c a,
  Re.run r k prev s c = Some a →
  ∃ mt rest c', s = mt ++ rest ∧ Matches r prev mt rest c c'
                ∧ k (last_char prev mt) rest c' = Some a.
Proof using Type.
  induction r as [| p | r1 IH1 r2 IH2 | r1 IH1 r2 IH2 | p | r IH
                  | n r IH | | |]; intros k prev s c a; simpl.
  - intros Hk. exists [], s, c. by repeat split; [constructor|].
  - destruct s as [|x s]; [done|]. destruct (p x) eqn:Hp; [|done].
    intros Hk. exists [x], s, c. by repeat split; [constructor|].
  - intros Hr. apply IH1 in Hr as (m1 & rest1 & c1 & -> & Hm1 & Hr).
    apply IH2 in Hr as (m2 & rest & c2 & -> & Hm2 & Hk).
    exists (m1 ++ m2), rest, c2. split; [by rewrite app_assoc|].
    split; [by econstructor|]. by rewrite <- last_char_app.
  - destruct (Re.run r1 k prev s c) as [a'|] eqn:H1.
    + intros [= ->]. apply IH1 in H1 as (mt & rest & c' & -> & Hm & Hk).
      exists mt, rest, c'. by repeat split; [apply m_alt_l|].
    + intros H2. apply IH2 in H2 as (mt & rest & c' & -> & Hm & Hk).
      exists mt, rest, c'. by repeat split; [apply m_alt_r|].
  - intros Hs. apply star_sound in Hs as (mt & rest & -> & Hall & Hk).
    exists mt, rest, c. by repeat split; [constructor|].
  - destruct (Re.run r k prev s c) as [a'|] eqn:H1.
    + intros [= ->]. apply IH in H1 as (mt & rest & c' & -> & Hm & Hk).
      exists mt, rest, c'. by repeat split; [apply m_opt_some|].
    + intros Hk. exists [], s, c. by repeat split; [constructor|].
  - intros Hr. apply IH in Hr as (mt & rest & c' & -> & Hm & Hk).
    rewrite take_matched in Hk.
    exists mt, rest, ((n, mt) :: c'). by repeat split; [constructor|].
  - destruct (xorb _ _) eqn:Hx; [|done].
    intros Hk. exists [], s, c. by repeat split; [constructor|].
  - destruct prev; [done|].
    intros Hk. exists [], s, c. by repeat split; [constructor|].
  - destruct (Re.at_end s) eqn:He; [|done].
    intros Hk. exists [], s, c. by repeat split; [constructor|].
Qed.
End Sound.

Lemma match_at_sound r prev s mt c :
  Re.match_at r prev s = Some (mt, c) →
  ∃ rest, s = mt ++ rest ∧ Matches r prev mt rest [] c.
Proof.
  unfold Re.match_at. intros Hr.
  apply run_sound in Hr as (mt' & rest & c' & -> & Hm & [= <- <-]).
  rewrite take_matched. by exists rest.
Qed.

(** Skipping the rest of a match. *)
Lemma pieces_skip r : ∀ mt prev s,
  Re.pieces r prev (mt ++ s) (length mt)
  = Re.pieces r (last_char prev mt) s 0.
Proof.
  induction mt as [|x mt IH]; intros prev s.
  - simpl. by destruct s.
  - simpl. rewrite IH. by rewrite (last_char_cons prev).
Qed.

(** The pieces of a text, one at a time. *)
Lemma pieces_unfold r prev s :
  Re.pieces r prev s 0 = []  ∧ s = []
  ∨ (∃ x s', s = x :: s'
       ∧ Re.pieces r prev s 0 = Re.Text x :: Re.pieces r (Some x) s' 0)
  ∨ (∃ mt c rest, s = mt ++ rest ∧ mt ≠ []
       ∧ Matches r prev mt rest [] c
       ∧ Re.pieces r prev s 0
         = Re.Match mt c :: Re.pieces r (last_char prev mt) rest 0).
Proof.
  destruct s as [|x s']; [by left|]. right. simpl.
  destruct (Re.match_at r prev (x :: s')) as [[[|y mt] c]|] eqn:Hm;
    [left; eauto | | left; eauto].
  right. apply match_at_sound in Hm as (rest & Hs & Hm).
  exists (y :: mt), c, rest. split; [done|]. split; [done|].
  split; [done|]. f_equal. simpl in Hs. injection Hs as -> ->.
  simpl. rewrite Nat.sub_0_r, pieces_skip.
  by rewrite (last_char_cons prev).
Qed.

Lemma sub_pieces_text {S} (repl : Py.str → Re.caps → S → res (Py.str * S))
    x ps st :
  Re.sub_pieces repl (Re.Text x :: ps) st
  = match Re.sub_pieces repl ps st with
    | Ok (out, st') => Ok (x :: out, st')
    | Raise e => Raise e
    end.
Proof. simpl. by destruct (Re.sub_pieces repl ps st) as [[]|]. Qed.

Lemma sub_pieces_match {S} (repl : Py.str → Re.caps → S → res (Py.str * S))
    mt c ps st :
  Re.sub_pieces repl (Re.Match mt c :: ps) st
  = match repl mt c st with
    | Ok (new, st1) =>
      match Re.sub_pieces repl ps st1 with
      | Ok (out, st2) => Ok (new ++ out, st2)
      | Raise e => Raise e
      end
    | Raise e => Raise e
    end.
Proof.
  simpl. destruct (repl mt c st) as [[new st1]|]; [|done]. simpl.
  by destruct (Re.sub_pieces repl ps st1) as [[]|].
Qed.
End MatcherProofs.

(** ** Call sites *)

(** Inversion of a match of a pattern given by its parts. *)
Ltac inv_matches :=
  repeat match goal with
  | H : Matches (Re.Seq _ _) _ _ _ _ _ |- _ => inversion H; subst; clear H
  | H : Matches Re.Eps _ _ _ _ _ |- _ => inversion H; subst; clear H
  | H : Matches (Re.Chr _) _ _ _ _ _ |- _ => inversion H; subst; clear H
  | H : Matches (Re.Star _) _ _ _ _ _ |- _ => inversion H; subst; clear H
  | H : Matches (Re.Opt _) _ _ _ _ _ |- _ => inversion H; subst; clear H
  | H : Matches (Re.Alt _ _) _ _ _ _ _ |- _ => inversion H; subst; clear H
  | H : Matches (Re.Group _ _) _ _ _ _ _ |- _ => inversion H; subst; clear H
  | H : Matches Re.WordB _ _ _ _ _ |- _ => inversion H; subst; clear H
  | H : Matches Re.Eol _ _ _ _ _ |- _ => inversion H; subst; clear H
  | H : (_ =? _) = true |- _ => apply Z.eqb_eq in H; subst
  end.

Section CallProofs.
Context `{PyRuntime}.

Lemma call_re_shape prev mt rest c :
  Matches call_re prev mt rest [] c →
  ∃ name ws1 hexs ws2,
    mt = call_text name ws1 hexs ws2 ∧ call_shape name ws1 hexs ws2
    ∧ Re.group 1 c = name ∧ Re.group 2 c = Py.lit "0x" ++ hexs.
Proof.
  unfold call_re, identifier, Re.Cat, Re.Plus, call_text.
  change (Py.lit "0x") with [48; 120]. cbn [foldr Re.Lit]. intros Hm.
  inv_matches.
  match goal with
  | |- ∃ _ _ _ _,
        [] ++ ([?x] ++ ?m ++ []) ++ [40] ++ ?w1
           ++ (_ ++ ([?h] ++ ?hs) ++ []) ++ ?w2 ++ _ = _ ∧ _ =>
    exists (x :: m), w1, (h :: hs), w2
  end.
  split; [by lassoc; rewrite ?app_nil_r|].
  split; [|split; simpl; by rewrite ?app_nil_r].
  repeat split; simpl; rewrite ?andb_true_iff; auto.
Qed.

Lemma hex_digit_facts h :
  Re.hex h = true → h ≠ 95 ∧ 0 ≤ Py.digit_value h < 16 ∧ h < 128.
Proof.
  unfold Re.hex, Py.digit_value.
  rewrite !orb_true_iff, !andb_true_iff, !Z.leb_le. intros Hh.
  split; [lia|]. split; [|lia]. ztest; simpl; lia.
Qed.




Section Rewrite.
Variables (aliases : gset Py.str) (arr : list Py.str) (offset : Z).

Lemma replace_unfold mt c cache :
  replace aliases arr offset mt c cache
  = if bool_decide (Re.group 1 c ∈ aliases) then
      match Py.int (Re.group 2 c) 16 with
      | Ok num =>
        match cache !! num with
        | Some v => Ok (json_dumps v, cache)
        | None =>
          match decode arr offset num with
          | Ok v => Ok (json_dumps v, <[num := v]> cache)
          | Raise e => Raise e
          end
        end
      | Raise e => Raise e
      end
    else Ok (mt, cache).
Proof.
  unfold replace. case_bool_decide; [|done].
  destruct (Py.int _ _); [|done]. simpl.
  destruct (cache !! _); [done|]. by destruct (decode _ _ _).
Qed.

Lemma no_alias_call_suffix pre s :
  no_alias_call aliases (pre ++ s) → no_alias_call aliases s.
Proof.
  intros Hno pre' name ws1 hexs ws2 post -> Hal.
  apply (Hno (pre ++ pre') name ws1 hexs ws2 post); [|done].
  by rewrite <- app_assoc.
Qed.

Lemma sub_unchanged n : ∀ s, (length s ≤ n)%nat → ∀ prev cache,
  no_alias_call aliases s →
  Re.sub_pieces (replace aliases arr offset)
    (Re.pieces call_re prev s 0) cache = Ok (s, cache).
Proof.
  induction n as [n IH] using lt_wf_ind. intros s Hn prev cache Hno.
  destruct (pieces_unfold call_re prev s)
    as [[-> ->] | [(x & s' & -> & ->) | (mt & c & rest & -> & Hne & Hm & ->)]].
  - done.
  - rewrite sub_pieces_text.
    rewrite (IH (length s')); [done | simpl in Hn; lia | done |].
    by apply (no_alias_call_suffix [x]).
  - apply call_re_shape in Hm
      as (name & ws1 & hexs & ws2 & -> & Hshape & Hg1 & Hg2).
    assert (Hlen : (length rest < n)%nat).
    { rewrite length_app in Hn.
      destruct (call_text name ws1 hexs ws2); [done | simpl in Hn; lia]. }
    rewrite sub_pieces_match, replace_unfold, Hg1.
    case_bool_decide as Hal.
    { by destruct (Hno [] name ws1 hexs ws2 rest). }
    rewrite (IH (length rest)); [done | lia | done |].
    by apply (no_alias_call_suffix (call_text name ws1 hexs ws2)).
Qed.
End Rewrite.

(** C9: on a text in which no alias of the decoder is called with a
    hexadecimal literal, the rewriter returns the text as it is (and
    decodes nothing); calls through other identifiers stay. *)
Theorem rewrite_without_alias_calls_is_noop
    (aliases : gset Py.str) (arr : list Py.str) (offset : Z) (src : Py.str) :
  no_alias_call aliases src →
  rewrite_calls aliases arr offset src = Ok (src, ∅).
Proof.
  intros Hno. unfold rewrite_calls, Re.sub_with.
  by apply (sub_unchanged aliases arr offset (length src)).
Qed.

End CallProofs.

(** ** The alias resolver *)

Section AliasProofs.
Variable edges : list (Py.str * Py.str).

Lemma lefts_cons e es : lefts (e :: es) = {[e.1]} ∪ lefts es.
Proof. reflexivity. Qed.

Lemma closed_under_cons l r es al :
  (r ∈ al → l ∈ al) → closed_under es al → closed_under ((l, r) :: es) al.
Proof.
  intros Hlr Hcl left right [[= -> ->] | Hin]%elem_of_cons; [done|].
  by apply Hcl.
Qed.

(** One pass over a part [es] of the edges. *)
Lemma alias_fold_spec (P : Py.str → Prop) : ∀ es al ch,
  (∀ left right, (left, right) ∈ es → P right → P left) →
  (∀ x, x ∈ al → P x) →
  let st := foldl alias_step (al, ch) es in
  al ⊆ st.1 ∧ st.1 ⊆ al ∪ lefts es
  ∧ (∀ x, x ∈ st.1 → P x)
  ∧ (st.2 = false → ch = false ∧ st.1 = al ∧ closed_under es al)
  ∧ (st.2 = true → ch = true ∨ (size al < size st.1)%nat).
Proof.
  induction es as [|[l r] es IH]; intros al ch HP Hal; simpl.
  { split; [done|]. split; [apply union_subseteq_l|]. split; [done|].
    split; [|by left]. intros ->. repeat split.
    intros ? ? ?%elem_of_nil. done. }
  assert (HP' : ∀ left right, (left, right) ∈ es → P right → P left).
  { intros ?? Hin. apply HP. by right. }
  rewrite lefts_cons.
  change (alias_step (al, ch) (l, r))
    with (if bool_decide (r ∈ al) && negb (bool_decide (l ∈ al))
          then ({[l]} ∪ al, true) else (al, ch)).
  simpl.
  destruct (bool_decide (r ∈ al)) eqn:Hr; simpl; cycle 1.
  { apply bool_decide_eq_false in Hr.
    destruct (IH al ch HP' Hal) as (H1 & H2 & H3 & H4 & H5).
    split; [done|].
    split; [intros x Hx%H2; rewrite !elem_of_union in *; tauto|].
    split; [done|]. split; [|done].
    intros Hf. destruct (H4 Hf) as (-> & Heq & Hcl). repeat split; try done.
    by apply closed_under_cons. }
  apply bool_decide_eq_true in Hr.
  destruct (bool_decide (l ∈ al)) eqn:Hl; simpl.
  { apply bool_decide_eq_true in Hl.
    destruct (IH al ch HP' Hal) as (H1 & H2 & H3 & H4 & H5).
    split; [done|].
    split; [intros x Hx%H2; rewrite !elem_of_union in *; tauto|].
    split; [done|]. split; [|done].
    intros Hf. destruct (H4 Hf) as (-> & Heq & Hcl). repeat split; try done.
    by apply closed_under_cons. }
  apply bool_decide_eq_false in Hl.
  assert (Hal' : ∀ x, x ∈ {[l]} ∪ al → P x).
  { intros x [->%elem_of_singleton | Hx]%elem_of_union; [|by apply Hal].
    apply (HP l r); [by left | by apply Hal]. }
  destruct (IH ({[l]} ∪ al) true HP' Hal') as (H1 & H2 & H3 & H4 & H5).
  split; [intros x Hx; apply H1, elem_of_union; by right|].
  split; [intros x Hx%H2; rewrite !elem_of_union in *; tauto|].
  split; [done|]. split.
  - intros Hf. by destruct (H4 Hf).
  - intros _. right.
    apply Nat.lt_le_trans with (size ({[l]} ∪ al)).
    + apply subset_size. split; [apply union_subseteq_r|].
      intros Hsub. apply Hl, Hsub, elem_of_union. left.
      by apply elem_of_singleton.
    + by apply subseteq_size.
Qed.

Lemma alias_pass_spec (P : Py.str → Prop) al :
  (∀ left right, (left, right) ∈ edges → P right → P left) →
  (∀ x, x ∈ al → P x) →
  let st := alias_pass edges al in
  al ⊆ st.1 ∧ st.1 ⊆ al ∪ lefts edges
  ∧ (∀ x, x ∈ st.1 → P x)
  ∧ (st.2 = false → st.1 = al ∧ closed_under edges al)
  ∧ (st.2 = true → (size al < size st.1)%nat).
Proof.
  intros HP Hal.
  destruct (alias_fold_spec P edges al false HP Hal)
    as (H1 & H2 & H3 & H4 & H5).
  repeat split; try done.
  - by destruct (H4 H) as (_ & ? & _).
  - by destruct (H4 H) as (_ & _ & ?).
  - intros Ht. by destruct (H5 Ht).
Qed.

(** With enough passes left the loop stops on a pass that changes
    nothing, and what it returns is closed under the edges. *)
Lemma alias_loop_spec (P : Py.str → Prop) (bound : gset Py.str) :
  (∀ left right, (left, right) ∈ edges → P right → P left) →
  lefts edges ⊆ bound →
  ∀ fuel al,
    al ⊆ bound → (size bound < size al + fuel)%nat →
    (∀ x, x ∈ al → P x) →
    let out := alias_loop fuel edges al in
    al ⊆ out ∧ closed_under edges out ∧ (∀ x, x ∈ out → P x).
Proof.
  intros HP Hb. induction fuel as [|fuel IH]; intros al Hal Hsize HPal.
  { apply subseteq_size in Hal. lia. }
  simpl.
  destruct (alias_pass_spec P al HP HPal) as (H1 & H2 & H3 & H4 & H5).
  destruct (alias_pass edges al) as [al' [|]]; simpl in *.
  - specialize (H5 eq_refl).
    destruct (IH al') as (I1 & I2 & I3); [| lia | done |].
    { intros x [Hx | Hx]%H2%elem_of_union; [by apply Hal | by apply Hb]. }
    split; [by etrans | done].
  - destruct (H4 eq_refl) as [-> Hcl]. done.
Qed.

Lemma size_lefts : (size (lefts edges) ≤ length edges)%nat.
Proof.
  induction edges as [|e es IH].
  { change (lefts []) with (∅ : gset Py.str). by rewrite size_empty. }
  rewrite lefts_cons, size_union_alt, size_singleton.
  pose proof (subseteq_size (lefts es ∖ {[e.1]}) (lefts es)
                ltac:(apply subseteq_difference_l; done)).
  simpl. lia.
Qed.

(** The loop of [_collect_aliases] returns the names that reach [Q]. *)
Lemma alias_loop_reaches x :
  x ∈ alias_loop (S (length edges)) edges {[Py.lit "Q"]} ↔ Reaches edges x.
Proof.
  destruct (alias_loop_spec (Reaches edges) ({[Py.lit "Q"]} ∪ lefts edges))
    with (fuel := S (length edges)) (al := ({[Py.lit "Q"]} : gset Py.str))
    as (H1 & H2 & H3).
  - intros left right Hin Hr. by eapply reaches_edge.
  - apply union_subseteq_r.
  - apply union_subseteq_l.
  - rewrite size_union_alt, size_singleton.
    pose proof size_lefts.
    pose proof (subseteq_size (lefts edges ∖ {[Py.lit "Q"]}) (lefts edges)
                  ltac:(apply subseteq_difference_l; done)).
    lia.
  - intros x' ->%elem_of_singleton. constructor.
  - split; [apply H3|].
    induction 1 as [| left right Hin _ IH].
    + apply H1. by apply elem_of_singleton.
    + by eapply H2.
Qed.
End AliasProofs.

Section AliasTheorem.
Context `{PyRuntime}.


(** An assignment without [const], [let] or [var] is no declaration of
    the pattern and gives no edge. *)
Lemma alias_edges_bare_assignments :
  alias_edges (Py.lit "a = Q; b = a; c = b;") = [].
Proof. reflexivity. Qed.

End AliasTheorem.

(** ** The rotation loop *)

Section RotationProofs.
Variable converged : list Py.str → bool.

Lemma rotate_left_length arr : length (rotate_left arr) = length arr.
Proof. destruct arr; simpl; [done|]. rewrite length_app. simpl. lia. Qed.

Lemma rotated_length k arr : length (rotated k arr) = length arr.
Proof.
  induction k as [|k IH]; simpl; [done|]. by rewrite rotate_left_length.
Qed.

Lemma rotated_S k arr : rotated (S k) arr = rotated k (rotate_left arr).
Proof. unfold rotated. by rewrite Nat.iter_succ_r. Qed.

Lemma rotate_once_nonempty arr :
  arr ≠ [] → rotate_once arr = Ok (rotate_left arr).
Proof. by destruct arr. Qed.

(** The loop never evaluates more often than it is allowed to. *)
Lemma rotate_loop_evaluations n : ∀ arr k,
  ((rotate_loop converged n arr k).2 ≤ k + n)%nat.
Proof.
  induction n as [|n IH]; intros arr k; simpl; [lia|].
  destruct (converged arr); simpl; [lia|].
  destruct (rotate_once arr); simpl; [|lia].
  specialize (IH a (S k)). lia.
Qed.

(** On a table with an entry the loop stops on the first of the first
    [n] rotations that converges, or raises after [n] evaluations. *)
Lemma rotate_loop_nonempty n : ∀ arr k,
  arr ≠ [] →
  (∃ i, (i < n)%nat ∧ converged (rotated i arr) = true
        ∧ (∀ j, (j < i)%nat → converged (rotated j arr) = false)
        ∧ rotate_loop converged n arr k = (Ok (rotated i arr), (k + i + 1)%nat))
  ∨ ((∀ j, (j < n)%nat → converged (rotated j arr) = false)
     ∧ rotate_loop converged n arr k
       = (Raise (RuntimeError RotationDidNotConverge), (k + n)%nat)).
Proof.
  induction n as [|n IH]; intros arr k Hne.
  { right. split; [lia|]. simpl. by rewrite Nat.add_0_r. }
  simpl. destruct (converged arr) eqn:Hc.
  { left. exists 0%nat. repeat split; [lia | done | lia |].
    simpl. f_equal; lia. }
  rewrite rotate_once_nonempty by done.
  assert (Hne' : rotate_left arr ≠ []).
  { intros Heq. apply (f_equal length) in Heq.
    rewrite rotate_left_length in Heq. by destruct arr. }
  destruct (IH (rotate_left arr) (S k) Hne')
    as [(i & Hi & Hci & Hlt & ->) | (Hall & ->)].
  - left. exists (S i). rewrite rotated_S. repeat split; [lia | done | |].
    + intros [|j] Hj; [done|]. rewrite rotated_S. apply Hlt. lia.
    + f_equal; lia.
  - right. split.
    + intros [|j] Hj; [done|]. rewrite rotated_S. apply Hall. lia.
    + f_equal; lia.
Qed.

Lemma max_iter_bounds arr :
  10000 ≤ max_iter arr ∧ Py.len arr * 5 ≤ max_iter arr
  ∧ (max_iter arr = 10000 ∨ max_iter arr = Py.len arr * 5).
Proof. unfold max_iter. lia. Qed.

(** The rotation of a table with an entry: at most [max_iter]
    evaluations, the run fails with RotationDidNotConverge when none of
    them converges, and otherwise stops on the first rotation that
    does. *)
Lemma rotate_until_nonempty arr :
  arr ≠ [] →
  let cap := Z.to_nat (max_iter arr) in
  ((rotate_until converged arr).2 ≤ cap)%nat
  ∧ ((∃ i, (i < cap)%nat ∧ converged (rotated i arr) = true
           ∧ (∀ j, (j < i)%nat → converged (rotated j arr) = false)
           ∧ rotate_until converged arr = (Ok (rotated i arr), S i))
     ∨ ((∀ j, (j < cap)%nat → converged (rotated j arr) = false)
        ∧ rotate_until converged arr
          = (Raise (RuntimeError RotationDidNotConverge), cap))).
Proof.
  intros Hne cap. split; [apply (rotate_loop_evaluations cap arr 0)|].
  destruct (rotate_loop_nonempty cap arr 0 Hne)
    as [(i & Hi & Hci & Hlt & Heq) | (Hall & Heq)].
  - left. exists i. repeat split; try done.
    unfold rotate_until. fold cap. rewrite Heq. f_equal; lia.
  - right. by split.
Qed.

(** The evaluations never exceed the cap, whatever the table. *)
Lemma rotate_until_evaluations arr :
  (Z.of_nat (rotate_until converged arr).2 ≤ max_iter arr).
Proof.
  pose proof (rotate_loop_evaluations (Z.to_nat (max_iter arr)) arr 0).
  pose proof (max_iter_bounds arr). unfold rotate_until. lia.
Qed.

(** The empty table: the first rotation raises, outside the [try]. *)
Lemma rotate_until_empty :
  converged [] = false → rotate_until converged [] = (Raise IndexError, 1%nat).
Proof.
  intros Hc. unfold rotate_until.
  change (Z.to_nat (max_iter [])) with (S 9999). simpl. by rewrite Hc.
Qed.
End RotationProofs.

Section RotationTheorem.
Context `{PyRuntime}.

(** C5 (fails on the code): with an empty table and the expression
    parseInt(decode(0x1)), which does not evaluate to the target, the
    run stops at the first iteration with IndexError (pop from an empty
    list), not with RotationDidNotConverge. *)
Theorem rotation_of_empty_table_raises_index_error :
  rotate_table (ParseInt (DecodeCall (Lit 1))) 8 1 []
  = (Raise IndexError, 1%nat).
Proof. by apply rotate_until_empty. Qed.
End RotationTheorem.

(** ** Evaluation of the convergence expression *)

Lemma Qred_inject_Z (n : Z) : Qred (inject_Z n) = inject_Z n.
Proof. apply Qred_identity. simpl. apply Z.gcd_1_r. Qed.

Lemma Qred_of_integer (q : Q) (n : Z) : (q == inject_Z n)%Q → Qred q = inject_Z n.
Proof. intros Hq. rewrite <- Qred_inject_Z. by apply Qred_complete. Qed.

Lemma fraction_binary_integers op a b :
  op ≠ Div →
  fraction_binary op (inject_Z a) (inject_Z b)
  = Ok (inject_Z match op with
                 | Add => a + b | Sub => a - b | Mul => a * b | Div => 0
                 end).
Proof.
  destruct op; intros Hop; [| | |done]; simpl; f_equal;
    apply Qred_of_integer; unfold Qeq; simpl; lia.
Qed.

Lemma fraction_binary_reduced op p q r :
  fraction_binary op p q = Ok r → Qred r = r.
Proof.
  destruct op; simpl; [| | |destruct (Qeq_bool q 0); [done|]];
    intros [= <-]; apply Qred_involutive.
Qed.

Section EvaluationProofs.
Context `{PyRuntime}.
Variables (arr : list Py.str) (offset : Z).

(** A Fraction that the evaluation returns is in lowest terms. *)
Lemma eval_py_fraction_reduced e : ∀ q,
  eval_py arr offset e = Ok (VFraction q) → Qred q = q.
Proof.
  destruct e as [n | e | e | e | op a b]; intros q; simpl.
  - done.
  - destruct (eval_py arr offset e) as [[]|]; simpl; try done.
    by destruct (decode _ _ _).
  - destruct (eval_py arr offset e) as [v|]; simpl; [|done].
    unfold parse_int. destruct (str_of_value v) as [s|]; simpl; [|done].
    unfold parse_int_text.
    destruct (Re.match_ _ _) as [[m c]|]; simpl; [|done].
    destruct (Py.int m 0); simpl; [|done].
    intros [= <-]. apply Qred_inject_Z.
  - destruct (eval_py arr offset e) as [[]|]; simpl; try done.
    intros [= <-]. apply Qred_involutive.
  - destruct (eval_py arr offset a) as [x|]; simpl; [|done].
    destruct (eval_py arr offset b) as [y|]; simpl; [|done].
    destruct x, y; simpl;
      repeat match goal with
      | |- context [fraction_binary ?o ?x ?y] =>
          destruct (fraction_binary o x y) eqn:?; simpl
      | |- context [Float.of_int ?x] => destruct (Float.of_int x); simpl
      | |- context [Float.of_fraction ?x] =>
          destruct (Float.of_fraction x); simpl
      | |- context [Float.binary ?o ?x ?y] =>
          destruct (Float.binary o x y); simpl
      | |- context [Float.true_divide ?x ?y] =>
          destruct (Float.true_divide x y); simpl
      end; try done; try (by destruct op);
      intros [= <-]; by eapply fraction_binary_reduced.
Qed.

(** Only an integer expression evaluates to an integer. *)
Lemma eval_py_int_expr e : ∀ n,
  eval_py arr offset e = Ok (VInt n) → is_int_expr e = true.
Proof.
  induction e as [n | e IH | e IH | e IH | op a IHa b IHb]; intros m; simpl.
  - done.
  - destruct (eval_py arr offset e) as [[]|]; simpl; try done.
    by destruct (decode _ _ _).
  - destruct (eval_py arr offset e) as [v|]; simpl; [|done].
    by destruct (parse_int v).
  - destruct (eval_py arr offset e) as [[]|]; simpl; try done.
    intros _. by eapply IH.
  - destruct (eval_py arr offset a) as [x|]; simpl; [|done].
    destruct (eval_py arr offset b) as [y|]; simpl; [|done].
    destruct x, y; simpl;
      repeat match goal with
      | |- context [fraction_binary ?o ?x ?y] =>
          destruct (fraction_binary o x y) eqn:?; simpl
      | |- context [Float.of_int ?x] => destruct (Float.of_int x); simpl
      | |- context [Float.of_fraction ?x] =>
          destruct (Float.of_fraction x); simpl
      | |- context [Float.binary ?o ?x ?y] =>
          destruct (Float.binary o x y); simpl
      end; try done; try (by destruct op).
    destruct op; simpl; try (by destruct (Float.true_divide _ _));
      intros _; rewrite (IHa _ eq_refl), (IHb _ eq_refl); done.
Qed.

(** A text that [str] returns is the decimal text of the number. *)
Lemma str_of_int_ok n s : str_of_int n = Ok s → s = decimal_of_int n.
Proof. unfold str_of_int. case_match; congruence. Qed.

Lemma str_of_fraction_ok q s :
  str_of_fraction q = Ok s → s = decimal_of_fraction q.
Proof.
  unfold str_of_fraction, decimal_of_fraction.
  destruct (Qden q =? 1)%positive; [apply str_of_int_ok|].
  destruct (str_of_int (Qnum q)) as [a|] eqn:Ha; simpl; [|done].
  destruct (str_of_int (Z.pos (Qden q))) as [b|] eqn:Hb; simpl; [|done].
  apply str_of_int_ok in Ha, Hb. by intros [= <-]; subst.
Qed.

(** Without a division of an integer by an integer, the value Python
    computes is the value of exact rational arithmetic. *)
Lemma eval_py_exact e : ∀ v,
  fraction_divisions e = true →
  eval_py arr offset e = Ok v →
  ∃ x, exact_of v = Some x ∧ eval_exact arr offset e = Ok x.
Proof.
  induction e as [n | e IH | e IH | e IH | op a IHa b IHb];
    intros v Hfd; simpl in *.
  - intros [= <-]. by eexists.
  - destruct (eval_py arr offset e) as [[num| | |]|]; simpl; try done.
    destruct (IH _ Hfd eq_refl) as (x & [= <-] & ->). simpl.
    destruct (decode arr offset num); simpl; [|done].
    intros [= <-]. by eexists.
  - destruct (eval_py arr offset e) as [w|]; simpl; [|done].
    destruct (IH _ Hfd eq_refl) as (x & Hx & ->). simpl.
    assert (Hstr : ∀ text, str_of_value w = Ok text →
                           text = match x with
                                  | XNum q => decimal_of_fraction q
                                  | XStr s => s
                                  end).
    { destruct w; simpl in Hx; try done; injection Hx as <-;
        intros text Htext.
      - by apply str_of_int_ok in Htext.
      - by apply str_of_fraction_ok in Htext.
      - by injection Htext as <-. }
    unfold parse_int.
    destruct (str_of_value w) as [text|] eqn:Htext; simpl; [|done].
    rewrite (Hstr text eq_refl).
    destruct (parse_int_text _); simpl; [|done].
    intros [= <-]. by eexists.
  - destruct (eval_py arr offset e) as [w|]; simpl; [|done].
    destruct (IH _ Hfd eq_refl) as (x & Hx & ->). simpl.
    destruct w; simpl in *; try done; injection Hx as <-; intros [= <-].
    + eexists. split; [done|]. do 2 f_equal.
      apply Qred_of_integer. unfold Qeq. simpl. lia.
    + by eexists.
  - apply andb_true_iff in Hfd as [Hfd Hdiv].
    apply andb_true_iff in Hfd as [Hfa Hfb].
    destruct (eval_py arr offset a) as [x|] eqn:Ha; simpl; [|done].
    destruct (eval_py arr offset b) as [y|] eqn:Hb; simpl; [|done].
    destruct (IHa _ Hfa eq_refl) as (x' & Hx & ->).
    destruct (IHb _ Hfb eq_refl) as (y' & Hy & ->). simpl.
    destruct x, y; simpl in *; try done;
      injection Hx as <-; injection Hy as <-; simpl.
    + destruct op;
        [rewrite fraction_binary_integers by done; simpl;
         intros [= <-]; by eexists..|].
      apply eval_py_int_expr in Ha, Hb. by rewrite Ha, Hb in Hdiv.
    + destruct (fraction_binary _ _ _); simpl; [|done].
      intros [= <-]. by eexists.
    + destruct op; simpl; try done. intros [= <-]. by eexists.
    + destruct (fraction_binary _ _ _); simpl; [|done].
      intros [= <-]. by eexists.
    + destruct (fraction_binary _ _ _); simpl; [|done].
      intros [= <-]. by eexists.
    + destruct op; simpl; try done. intros [= <-]. by eexists.
    + destruct op; simpl; try done. intros [= <-]. by eexists.
Qed.

Lemma equals_target_exact v x target :
  (∀ q, v = VFraction q → Qred q = q) →
  exact_of v = Some x →
  equals_target v target = true ↔ x = XNum (inject_Z target).
Proof.
  intros Hred Hx. destruct v as [n | q | f | s]; simpl in *; try done;
    injection Hx as <-.
  - rewrite Z.eqb_eq. split; [by intros -> | by intros [= ->]].
  - rewrite Qeq_bool_iff. split.
    + intros Hq. f_equal. rewrite <- (Hred q eq_refl).
      by apply Qred_of_integer.
    + by intros [= ->].
  - by split.
Qed.

(** C3 (amended): for an expression without a division of an integer
    by an integer, as the bootstrap writes them (the left operand of a
    division holds a parseInt), each evaluation yields no float: the
    value is the one of exact rational arithmetic, and the comparison
    with the target checksum is the exact one. *)
Theorem eval_exact_without_integer_division (e : expr) (target : Z) (v : value) :
  fraction_divisions e = true →
  eval_py arr offset e = Ok v →
  ∃ x, exact_of v = Some x ∧ eval_exact arr offset e = Ok x
       ∧ (equals_target v target = true ↔ x = XNum (inject_Z target)).
Proof.
  intros Hfd Hev. destruct (eval_py_exact e v Hfd Hev) as (x & Hx & Hex).
  exists x. repeat split; try done.
  - by apply equals_target_exact;
      [intros q ->; eapply eval_py_fraction_reduced|].
  - by apply equals_target_exact;
      [intros q ->; eapply eval_py_fraction_reduced|].
Qed.
End EvaluationProofs.

(** ** The export stripper and the scanner *)

(** One turn of the scanner's loop on the character [ch]: the variables
    after it, or the return. *)
Lemma scan_loop_step o c ch i d s esc :
  ∃ next : option (Z * option Z * bool),
    ∀ rest : Py.str,
      scan_loop o c (ch :: rest) i d s esc
      = match next with
        | None => Some (i + 1)
        | Some (d', s', esc') => scan_loop o c rest (i + 1) d' s' esc'
        end.
Proof.
  destruct s as [q|].
  - destruct esc.
    { by exists (Some (d, Some q, false)). }
    destruct (ch =? backslash) eqn:Hb.
    { exists (Some (d, Some q, true)). intros. simpl. by rewrite Hb. }
    destruct (ch =? q) eqn:Hq.
    { exists (Some (d, None, false)). intros. simpl. by rewrite Hb, Hq. }
    exists (Some (d, Some q, false)). intros. simpl. by rewrite Hb, Hq.
  - destruct (is_quote ch) eqn:Hq.
    { exists (Some (d, Some ch, esc)). intros. simpl. by rewrite Hq. }
    destruct (ch =? o) eqn:Ho.
    { exists (Some (d + 1, None, esc)). intros. simpl. by rewrite Hq, Ho. }
    destruct (ch =? c) eqn:Hc; cycle 1.
    { exists (Some (d, None, esc)). intros. simpl. by rewrite Hq, Ho, Hc. }
    destruct (d - 1 =? 0) eqn:Hd.
    { exists None. intros. simpl. by rewrite Hq, Ho, Hc, Hd. }
    exists (Some (d - 1, None, esc)). intros. simpl.
    by rewrite Hq, Ho, Hc, Hd.
Qed.

(** The scanner reads no further than the offset it returns. *)
Lemma scan_loop_prefix o c : ∀ rest i d s esc e,
  scan_loop o c rest i d s esc = Some e →
  ∃ n, e = i + Z.of_nat n ∧ (0 < n ≤ length rest)%nat
       ∧ ∀ other, scan_loop o c (take n rest ++ other) i d s esc = Some e.
Proof.
  induction rest as [|ch rest IH]; intros i d s esc e; [done|].
  destruct (scan_loop_step o c ch i d s esc) as (next & Hstep).
  rewrite Hstep. destruct next as [[[d' s'] esc']|].
  - intros Hs. destruct (IH _ _ _ _ _ Hs) as (n & -> & Hn & Hpre).
    exists (S n). split; [lia|]. split; [simpl; lia|].
    intros other.
    change (take (S n) (ch :: rest) ++ other) with (ch :: (take n rest ++ other)).
    by rewrite Hstep.
  - intros [= <-]. exists 1%nat. split; [lia|]. split; [simpl; lia|].
    intros other.
    change (take 1 (ch :: rest) ++ other) with (ch :: (take 0 rest ++ other)).
    by rewrite Hstep.
Qed.

Lemma index_app_l {A} (l r : list A) (i : Z) x :
  0 ≤ i → Py.index (l ++ r) i = Ok x → i < Py.len l →
  ∀ r', Py.index (l ++ r') i = Ok x.
Proof.
  intros Hi Hx Hlt r'. unfold Py.index in *. revert Hx. ztest.
  rewrite !lookup_app_l by (unfold Py.len in *; lia). done.
Qed.

Lemma slice_app_l {A} (l r : list A) (a b : Z) :
  0 ≤ a ≤ b → b ≤ Py.len l → Py.slice (l ++ r) a b = Py.slice l a b.
Proof.
  intros Hab Hb. pose proof (len_nonneg r). unfold Py.slice.
  rewrite !clamp_in_range by (rewrite ?len_app; lia).
  rewrite drop_app_le by (unfold Py.len in *; lia).
  rewrite take_app_le; [done|]. rewrite length_drop. unfold Py.len in *. lia.
Qed.

(** A region found within a prefix of the text does not depend on what
    follows the prefix. *)
Lemma extract_balanced_prefix (kept r1 r2 : Py.str) (start o c : Z) region e :
  0 ≤ start → e ≤ Py.len kept →
  _extract_balanced (kept ++ r1) start o c = Ok (region, e) →
  _extract_balanced (kept ++ r2) start o c = Ok (region, e).
Proof.
  intros Hs He. unfold _extract_balanced, chars_from.
  destruct (Py.index (kept ++ r1) start) as [ch0|] eqn:Hi; [|done]. simpl.
  destruct (negb (ch0 =? o)) eqn:Hne; [done|].
  destruct (Z.ltb_spec start 0) as [|_]; [lia|].
  destruct (scan_loop o c (drop (Z.to_nat start) (kept ++ r1)) start 0 None false)
    as [e'|] eqn:Hscan; [|done].
  intros [= <- ->].
  apply scan_loop_prefix in Hscan as (n & -> & Hn & Hpre).
  assert (Hlen : (Z.to_nat start + n ≤ length kept)%nat)
    by (unfold Py.len in *; lia).
  rewrite (index_app_l kept r1 start ch0) by (unfold Py.len in *; lia || done).
  simpl. rewrite Hne.
  rewrite !drop_app_le in * by lia.
  rewrite take_app_le in Hpre by (rewrite length_drop; lia).
  specialize (Hpre (drop n (drop (Z.to_nat start) kept) ++ r2)).
  rewrite app_assoc, take_drop in Hpre. rewrite Hpre.
  by rewrite !slice_app_l by lia.
Qed.

Section StripProofs.
Context `{PyRuntime}.

Lemma export_clause_shape prev mt rest c :
  Matches export_clause_re prev mt rest [] c →
  ExportClause mt ∧ Re.at_end rest = true.
Proof.
  unfold export_clause_re, Re.Cat.
  change (Py.lit "export") with [101; 120; 112; 111; 114; 116].
  cbn [foldr Re.Lit]. intros Hm. inv_matches.
  all: match goal with
       | H : Re.at_end _ = true |- _ =>
         rewrite ?app_nil_r in H; split; [|exact H]
       end.
  all: match goal with
       | |- ExportClause (_ ++ _ ++ ?w1 ++ _ ++ ?b ++ _ ++ ?w2 ++ ?semi ++ ?w3 ++ _) =>
         exists w1, b, w2, semi, w3
       end.
  all: rewrite ?app_nil_r; repeat split; auto; by lassoc.
Qed.
Lemma export_default_shape prev mt rest c :
  Matches export_default_re prev mt rest [] c →
  ∃ ws ws', mt = Py.lit "export" ++ ws ++ Py.lit "default" ++ ws'
            ∧ ws ≠ [] ∧ forallb Py.isspace ws = true.
Proof.
  unfold export_default_re, Re.Cat, Re.Plus.
  change (Py.lit "export") with [101; 120; 112; 111; 114; 116].
  change (Py.lit "default") with [100; 101; 102; 97; 117; 108; 116].
  cbn [foldr Re.Lit]. intros Hm. inv_matches.
  match goal with
  | |- ∃ _ _, _ ++ _ ++ ([?x] ++ ?ws) ++ _ ++ ([?y] ++ ?ws') ++ _ = _ ∧ _ =>
    exists (x :: ws), (y :: ws')
  end.
  split; [by lassoc; rewrite ?app_nil_r|]. split; [done|].
  simpl. by rewrite andb_true_iff.
Qed.

Lemma at_end_cases rest : Re.at_end rest = true → rest = [] ∨ rest = [10].
Proof.
  destruct rest as [|x [|y rest]]; simpl; [by left | | done].
  intros ->%Z.eqb_eq. by right.
Qed.

(** The first substitution removes at most one clause, at the end. *)
Lemma remove_clause_pieces n : ∀ s, (length s ≤ n)%nat → ∀ prev,
  ∃ kept clause tail,
    s = kept ++ clause ++ tail
    ∧ (clause = [] ∧ tail = []
       ∨ ExportClause clause ∧ (tail = [] ∨ tail = [10]))
    ∧ concat (Re.kept <$> Re.pieces export_clause_re prev s 0) = kept ++ tail.
Proof.
  induction n as [n IH] using lt_wf_ind. intros s Hn prev.
  destruct (pieces_unfold export_clause_re prev s)
    as [[-> ->] | [(x & s' & -> & ->) | (mt & c & rest & -> & Hne & Hm & ->)]].
  - exists [], [], []. split; [done|]. split; [by left | done].
  - destruct (IH (length s') ltac:(simpl in Hn; lia) s' ltac:(done) (Some x))
      as (kept & clause & tail & -> & Hcl & Heq).
    exists (x :: kept), clause, tail. split; [done|]. split; [done|].
    rewrite fmap_cons. simpl. by rewrite Heq.
  - apply export_clause_shape in Hm as [Hclause Hend].
    exists [], mt, rest. split; [done|].
    apply at_end_cases in Hend as [-> | ->].
    { split; [right; auto|]. by rewrite fmap_cons. }
    split; [right; auto|]. rewrite fmap_cons. cbn [concat Re.kept app].
    destruct (pieces_unfold export_clause_re (last_char prev mt) [10])
      as [[_ [=]] | [(x & s' & [= <- <-] & ->)
                     | (mt' & c' & rest' & Heq & Hne' & Hm' & _)]];
      [done|].
    apply export_clause_shape in Hm'
      as [(ws1 & body & ws2 & semi & ws3 & -> & _) _].
    by destruct rest'.
Qed.

Lemma no_export_default_suffix pre s :
  no_export_default (pre ++ s) → no_export_default s.
Proof.
  intros Hno pre' ws post ->.
  apply (Hno (pre ++ pre') ws post). by rewrite <- app_assoc.
Qed.

(** The second substitution removes nothing from a text without the
    words [export default]. *)
Lemma remove_default_pieces n : ∀ s, (length s ≤ n)%nat → ∀ prev,
  no_export_default s →
  concat (Re.kept <$> Re.pieces export_default_re prev s 0) = s.
Proof.
  induction n as [n IH] using lt_wf_ind. intros s Hn prev Hno.
  destruct (pieces_unfold export_default_re prev s)
    as [[-> ->] | [(x & s' & -> & ->) | (mt & c & rest & -> & Hne & Hm & ->)]].
  - done.
  - rewrite fmap_cons. simpl. f_equal.
    apply (IH (length s')); [simpl in Hn; lia | done |].
    by apply (no_export_default_suffix [x]).
  - apply export_default_shape in Hm as (ws & ws' & -> & Hws & Hsp).
    destruct (Hno [] ws (ws' ++ rest)); [by lassoc | done].
Qed.

End StripProofs.

(** ** Prefixes and leading white space *)

Lemma starts_with_app (sub rest : Py.str) : Py.starts_with sub (sub ++ rest) = true.
Proof.
  induction sub as [|x sub IH]; simpl; [by destruct rest|].
  by rewrite Z.eqb_refl.
Qed.

Lemma lstrip_spaces (ws : Py.str) (d : Z) (rest : Py.str) :
  forallb Py.isspace ws = true → Py.isspace d = false →
  Py.lstrip (ws ++ d :: rest) = d :: rest.
Proof.
  intros Hws Hd. induction ws as [|w ws IH]; simpl in *.
  - by rewrite Hd.
  - apply andb_true_iff in Hws as [-> Hws]. by apply IH.
Qed.

(* ================================================================= *)
(** * Further properties of the script *)

(** ** The rotation loop and the cyclic shifts of the table *)

Lemma rotated_succ k arr : rotated (S k) arr = rotate_left (rotated k arr).
Proof. done. Qed.

Lemma rotated_small k arr :
  (k ≤ length arr)%nat → rotated k arr = cyclic_shift k arr.
Proof.
  unfold cyclic_shift. induction k as [|k IH]; intros Hk.
  - by rewrite drop_0, app_nil_r.
  - rewrite rotated_succ, IH by lia.
    destruct (lookup_lt_is_Some_2 arr k) as [x Hx]; [lia|].
    rewrite (drop_S _ _ _ Hx), (take_S_r _ _ _ Hx). simpl.
    by rewrite <- app_assoc.
Qed.

Lemma rotated_full arr : rotated (length arr) arr = arr.
Proof.
  rewrite rotated_small by done. unfold cyclic_shift.
  by rewrite drop_all, firstn_all.
Qed.

Lemma rotated_add a b arr : rotated (a + b) arr = rotated a (rotated b arr).
Proof. unfold rotated. by rewrite Nat.iter_add. Qed.

Lemma rotated_periods q k arr :
  rotated (k + q * length arr) arr = rotated k arr.
Proof.
  induction q as [|q IH]; simpl.
  - by rewrite Nat.add_0_r.
  - rewrite (Nat.add_comm (length arr)), Nat.add_assoc, rotated_add.
    by rewrite rotated_full.
Qed.

(** Every number of rotations gives one of the [len(arr)] cyclic
    shifts. *)
Lemma rotated_is_shift k arr :
  arr ≠ [] → rotated k arr = cyclic_shift (k mod length arr) arr.
Proof.
  intros Harr.
  assert (Hlen : length arr ≠ 0%nat) by by destruct arr.
  pose proof (Nat.mod_upper_bound k (length arr) Hlen) as Hlt.
  pose proof (Nat.div_mod_eq k (length arr)) as Hk.
  rewrite <- rotated_small by lia.
  rewrite Hk at 1.
  rewrite (Nat.add_comm _ (k mod _)), (Nat.mul_comm (length arr)).
  apply rotated_periods.
Qed.

Lemma cyclic_shift_permutation k arr : cyclic_shift k arr ≡ₚ arr.
Proof.
  unfold cyclic_shift. rewrite (Permutation_app_comm _ _).
  by rewrite take_drop.
Qed.

(** X1: when the rotation loop stops with a table, that table is the
    input with its first [k] entries moved to the end, for the least [k]
    on which the check holds; [k] is below the length of the table, the
    loop has made [k + 1] evaluations, and no string is lost or
    duplicated. *)
Theorem rotation_returns_first_converging_shift
    (converged : list Py.str → bool) (arr arr' : list Py.str) (n : nat) :
  rotate_until converged arr = (Ok arr', n) →
  ∃ k, (k = 0 ∨ k < length arr)%nat
       ∧ arr' = cyclic_shift k arr
       ∧ converged arr' = true
       ∧ (∀ j, (j < k)%nat → converged (cyclic_shift j arr) = false)
       ∧ n = S k
       ∧ arr' ≡ₚ arr.
Proof.
  intros Hrun. destruct arr as [|x arr].
  - unfold rotate_until in Hrun. simpl in Hrun.
    destruct (converged []) eqn:Hc; [|done].
    injection Hrun as <- <-. exists 0%nat.
    repeat split; [by left|done|lia|done].
  - destruct (rotate_until_nonempty converged (x :: arr)) as [_ Hcases]; [done|].
    destruct Hcases as [(i & Hi & Hconv & Hleast & Heq) | [_ Heq]];
      [|by rewrite Heq in Hrun].
    rewrite Heq in Hrun. injection Hrun as <- <-.
    pose proof (rotated_is_shift i (x :: arr) ltac:(done)) as Hshift.
    set (m := (i mod length (x :: arr))%nat) in Hshift.
    assert (Hm : (m < length (x :: arr))%nat)
      by (apply Nat.mod_upper_bound; simpl; lia).
    assert (Hmi : (m ≤ i)%nat) by (apply Nat.Div0.mod_le).
    clearbody m.
    assert (m = i) as ->.
    { destruct (decide (m = i)) as [|Hne]; [done|].
      pose proof (Hleast m ltac:(lia)) as Hm'.
      rewrite rotated_small, <- Hshift in Hm' by lia. congruence. }
    exists i. rewrite Hshift. repeat split; try done.
    + by right.
    + by rewrite <- Hshift.
    + intros j Hj. rewrite <- rotated_small by lia. by apply Hleast.
    + apply cyclic_shift_permutation.
Qed.

(** X2: on a table with at least one entry the loop fails with
    RotationDidNotConverge exactly when the check holds on none of the
    [len(arr)] cyclic shifts of the table; it has then made [max_iter]
    evaluations.  The cap never stops a search that would succeed. *)
Theorem rotation_fails_iff_no_shift_converges
    (converged : list Py.str → bool) (arr : list Py.str) :
  arr ≠ [] →
  (∀ k, (k < length arr)%nat → converged (cyclic_shift k arr) = false)
  ↔ rotate_until converged arr
    = (Raise (RuntimeError RotationDidNotConverge), Z.to_nat (max_iter arr)).
Proof.
  intros Harr.
  destruct (rotate_until_nonempty converged arr Harr) as [_ Hcases].
  pose proof (max_iter_bounds arr) as (_ & Hcap & _).
  split.
  - intros Hnone.
    destruct Hcases as [(i & Hi & Hconv & _ & _) | [_ Heq]]; [|done].
    rewrite (rotated_is_shift i arr Harr), Hnone in Hconv; [done|].
    apply Nat.mod_upper_bound. by destruct arr.
  - intros Hfail k Hk.
    destruct Hcases as [(i & _ & _ & _ & Heq) | [Hnone _]];
      [by rewrite Heq in Hfail|].
    rewrite <- rotated_small by lia. apply Hnone.
    unfold Py.len in Hcap. lia.
Qed.

(** X3: after [k] rotations, whatever [k], [decode] reads at an index
    inside the table the entry that stood [k] places further on,
    counted round the table. *)
Theorem decode_after_rotation (arr : list Py.str) (offset : Z) (k : nat) (n : Z) :
  0 ≤ n - offset < Py.len arr →
  decode (rotated k arr) offset n
  = decode arr offset (offset + (n - offset + Z.of_nat k) mod Py.len arr).
Proof.
  intros Hn. unfold Py.len in *.
  assert (Harr : arr ≠ []) by (intros ->; simpl in Hn; lia).
  rewrite (rotated_is_shift k arr Harr).
  set (len := length arr) in *.
  assert (Hm : (k mod len < len)%nat) by (apply Nat.mod_upper_bound; lia).
  set (m := (k mod len)%nat) in *.
  set (p := n - offset) in *.
  assert (Hmod : (p + Z.of_nat k) mod Z.of_nat len
                 = (p + Z.of_nat m) mod Z.of_nat len).
  { unfold m. rewrite Nat2Z.inj_mod.
    by rewrite Zplus_mod_idemp_r. }
  rewrite Hmod.
  assert (Hlen : length (cyclic_shift m arr) = len).
  { apply Permutation_length, cyclic_shift_permutation. }
  destruct (decode_in_table (cyclic_shift m arr) offset n) as (s & Hs & ->).
  { unfold Py.len. rewrite Hlen. fold p. lia. }
  fold p in Hs.
  set (r := (p + Z.of_nat m) mod Z.of_nat len).
  assert (Hr : 0 ≤ r < Z.of_nat len) by (apply Z.mod_pos_bound; lia).
  destruct (decode_in_table arr offset (offset + r)) as (s' & Hs' & ->).
  { unfold Py.len. fold len. lia. }
  replace (offset + r - offset) with r in Hs' by lia.
  f_equal. apply (inj Some). rewrite <- Hs, <- Hs'.
  unfold cyclic_shift.
  destruct (Z.lt_ge_cases (p + Z.of_nat m) (Z.of_nat len)) as [Hlt | Hge].
  - rewrite lookup_app_l by (rewrite length_drop; lia).
    rewrite lookup_drop. f_equal.
    unfold r. rewrite Z.mod_small by lia. lia.
  - rewrite lookup_app_r by (rewrite length_drop; lia).
    rewrite length_drop, lookup_take_lt by lia. f_equal.
    assert (r = p + Z.of_nat m - Z.of_nat len) as ->; [|lia].
    unfold r. symmetry.
    apply (Z.mod_unique _ _ 1); lia.
Qed.

(** ** The string-literal decoder: shapes, errors and escapes *)

Section DecoderProofs.
Context `{PyRuntime}.

(** The test of the first line of the decoder. *)
Lemma decode_literal_cases (literal : Py.str) :
  (∃ q body, is_quote q = true ∧ literal = q :: body ++ [q]
             ∧ _decode_js_string_literal literal = decode_body body)
  ∨ ((¬ ∃ q body, is_quote q = true ∧ literal = q :: body ++ [q])
     ∧ _decode_js_string_literal literal = Raise (ValueError NotAStringLiteral)).
Proof.
  destruct literal as [|a l]; [right; split; [by intros (? & ? & ? & ?)|done]|].
  destruct l as [|y l _] using rev_ind.
  { right. split; [|done]. intros (q & body & _ & Heq).
    injection Heq as _ Heq. by destruct body. }
  assert (Hdec : _decode_js_string_literal (a :: l ++ [y])
                 = if (a =? y) && is_quote a then decode_body l
                   else Raise (ValueError NotAStringLiteral)).
  { unfold _decode_js_string_literal.
    rewrite index_first, slice_inner.
    change (a :: l ++ [y]) with ((a :: l) ++ [y]) at 2.
    rewrite (index_last (a :: l) y).
    replace (2 <=? Py.len (a :: l ++ [y])) with true; [done|].
    rewrite len_cons, len_app. pose proof (len_nonneg l).
    change (Py.len [y]) with 1. symmetry. apply Z.leb_le. lia. }
  rewrite Hdec. clear Hdec.
  destruct (Z.eqb_spec a y) as [<- | Hne]; simpl andb.
  - destruct (is_quote a) eqn:Hq.
    + left. by exists a, l.
    + right. split; [|done]. intros (q & body & Hq' & Heq).
      injection Heq as -> _. congruence.
  - right. split; [|done]. intros (q & body & Hq' & Heq).
    injection Heq as -> Heq. apply app_inj_tail in Heq as [_ ->]. done.
Qed.

Lemma int_raises (s : Py.str) (base : Z) e :
  Py.int s base = Raise e → e = ValueError InvalidIntLiteral.
Proof.
  unfold Py.int. cbv zeta.
  repeat case_match; congruence.
Qed.

Lemma chr_raises (n : Z) e :
  Py.chr n = Raise e → e = ValueError ChrOutOfRange ∨ e = OverflowError.
Proof. unfold Py.chr. repeat case_match; intros [= <-]; auto. Qed.

Lemma decode_body_char (ch : Z) (rest : Py.str) :
  ch ≠ backslash → decode_body (ch :: rest) = (ch ::.) <$> decode_body rest.
Proof.
  intros Hch. cbn [decode_body].
  by rewrite (proj2 (Z.eqb_neq ch backslash)).
Qed.

(** The loop that looks for the closing brace, by the text it
    splits. *)
Lemma find_close_split {A} (fallback : A) (found : Py.str → Py.str → A) :
  ∀ l hex,
    (fix find_close (l hex : Py.str) : A :=
       match l with
       | [] => fallback
       | x :: l' => if x =? 125 then found hex l' else find_close l' (hex ++ [x])
       end) l hex
    = match split_at_brace l with
      | None => fallback
      | Some (more, l') => found (hex ++ more) l'
      end.
Proof.
  induction l as [|x l IH]; intros hex; [done|].
  cbn [split_at_brace]. destruct (x =? 125).
  - by rewrite app_nil_r.
  - rewrite IH. destruct (split_at_brace l) as [[more l']|]; [|done].
    simpl. by rewrite <- app_assoc.
Qed.

(** One escape of the decoder, without the loop that looks for the
    closing brace. *)
Lemma decode_body_backslash (esc : Z) (rest : Py.str) :
  decode_body (backslash :: esc :: rest)
  = if esc =? 120 then
      match rest with
      | h1 :: h2 :: rest2 =>
        n ← Py.int [h1; h2] 16; c ← Py.chr n; (c ::.) <$> decode_body rest2
      | _ => (esc ::.) <$> decode_body rest
      end
    else if esc =? 117 then
      if Py.starts_with [123] rest then
        match split_at_brace (drop 1 rest) with
        | None => (117 ::.) <$> decode_body rest
        | Some (hex, l') =>
          n ← Py.int hex 16; c ← Py.chr n; (c ::.) <$> decode_body l'
        end
      else
        match rest with
        | h1 :: h2 :: h3 :: h4 :: rest4 =>
          n ← Py.int [h1; h2; h3; h4] 16; c ← Py.chr n;
          (c ::.) <$> decode_body rest4
        | short => n ← Py.int short 16; c ← Py.chr n; Ok [c]
        end
    else (simple_escape esc ::.) <$> decode_body rest.
Proof.
  cbn [decode_body]. change (backslash =? backslash) with true.
  cbv beta iota zeta. change (negb true) with false. cbv iota.
  destruct (esc =? 120); [done|].
  destruct (esc =? 117);
    [|unfold simple_escape; by repeat (case_match; [done|])].
  destruct rest as [|h1 rest2]; [done|].
  cbn [Py.starts_with drop]. rewrite andb_true_r, (Z.eqb_sym 123).
  destruct (h1 =? 123); [|done].
  generalize (h1 :: rest2). intros rest.
  by rewrite (find_close_split (cons 117 <$> decode_body rest)
             (λ hex l', Py.int hex 16
                        ≫= λ n, Py.chr n ≫= λ c, cons c <$> decode_body l')).
Qed.

Lemma split_at_brace_spec (l hex l' : Py.str) :
  split_at_brace l = Some (hex, l') → l = hex ++ 125 :: l' ∧ 125 ∉ hex.
Proof.
  revert hex. induction l as [|x l IH]; intros hex; [done|].
  cbn [split_at_brace]. destruct (Z.eqb_spec x 125) as [-> | Hx].
  - intros [= <- <-]. split; [done|]. apply not_elem_of_nil.
  - destruct (split_at_brace l) as [[a b]|]; [|done].
    intros [= <- <-]. destruct (IH a eq_refl) as [-> Ha].
    split; [done|]. by apply not_elem_of_cons.
Qed.

(** What one turn of the decoder's loop does to the text still to be read:
    it stops, raises, or appends one character and goes on with a
    shorter text. *)
Lemma decode_body_step (body : Py.str) :
  body = []
  ∨ decode_body body = Ok []
  ∨ (∃ e, decode_body body = Raise e
          ∧ (e = ValueError InvalidIntLiteral ∨ e = ValueError ChrOutOfRange
             ∨ e = OverflowError))
  ∨ (∃ c, decode_body body = Ok [c])
  ∨ (∃ c rest', (length rest' < length body)%nat
                ∧ decode_body body = (c ::.) <$> decode_body rest').
Proof.
  assert (Hint : ∀ (s : Py.str) (k : Z → res Py.str),
             (∃ e, (Py.int s 16 ≫= λ n, Py.chr n ≫= k) = Raise e
                   ∧ (e = ValueError InvalidIntLiteral
                      ∨ e = ValueError ChrOutOfRange ∨ e = OverflowError))
             ∨ ∃ c, (Py.int s 16 ≫= λ n, Py.chr n ≫= k) = k c).
  { intros s k. destruct (Py.int s 16) as [n|e] eqn:Hn; simpl.
    - destruct (Py.chr n) as [c|e] eqn:Hc; simpl; [right; by exists c|].
      left. exists e. split; [done|]. right. by eapply chr_raises.
    - left. exists e. split; [done|]. left. by eapply int_raises. }
  destruct body as [|ch rest]; [by left|]. right.
  destruct (decide (ch = backslash)) as [-> | Hch].
  2:{ do 3 right. exists ch, rest. split; [simpl; lia|].
      by apply decode_body_char. }
  destruct rest as [|esc rest]; [by left|]. right.
  rewrite decode_body_backslash.
  destruct (esc =? 120).
  { destruct rest as [|h1 [|h2 rest2]];
      [do 2 right; eexists _, _; split; [|done]; simpl; lia ..|].
    destruct (Hint [h1; h2] (λ c, cons c <$> decode_body rest2))
      as [(e & -> & He) | (c & ->)]; [left; by exists e|].
    do 2 right. exists c, rest2. split; [simpl; lia | done]. }
  destruct (esc =? 117).
  2:{ do 2 right. eexists _, _. split; [|done]. simpl; lia. }
  destruct (Py.starts_with [123] rest) eqn:Hbrace.
  { destruct (split_at_brace (drop 1 rest)) as [[hex l']|] eqn:Hsplit.
    - destruct (Hint hex (λ c, cons c <$> decode_body l'))
        as [(e & -> & He) | (c & ->)]; [left; by exists e|].
      do 2 right. exists c, l'. split; [|done].
      apply split_at_brace_spec in Hsplit as [Hsplit _].
      apply (f_equal length) in Hsplit.
      rewrite length_drop, length_app in Hsplit. simpl in *. lia.
    - do 2 right. eexists _, _. split; [|done]. simpl; lia. }
  destruct rest as [|h1 [|h2 [|h3 [|h4 rest4]]]].
  1-4: match goal with |- context [Py.int ?s 16] =>
         destruct (Hint s (λ c, Ok [c])) as [(e & -> & He) | (c & ->)];
         [left; by exists e | right; left; by exists c]
       end.
  destruct (Hint [h1; h2; h3; h4] (λ c, cons c <$> decode_body rest4))
    as [(e & -> & He) | (c & ->)]; [left; by exists e|].
  do 2 right. exists c, rest4. split; [simpl; lia | done].
Qed.

(** The decoder raises nothing but the errors of the conversion of an
    escape. *)
Lemma decode_body_raises (body : Py.str) e :
  decode_body body = Raise e →
  e = ValueError InvalidIntLiteral ∨ e = ValueError ChrOutOfRange
  ∨ e = OverflowError.
Proof.
  remember (length body) as n eqn:Hn. revert body Hn.
  induction n as [n IH] using lt_wf_ind. intros body -> Hraise.
  destruct (decode_body_step body)
    as [-> | [Hnil | [(e' & He' & Hwhy) | [(c & Hc) | (c & rest' & Hlen & Hstep)]]]];
    [done | congruence | congruence | congruence |].
  rewrite Hstep in Hraise.
  destruct (decode_body rest') as [out|e'] eqn:Hrest; [done|].
  injection Hraise as ->. by eapply (IH _ Hlen rest').
Qed.

(** The decoded text is no longer than the body. *)
Lemma decode_body_length (body out : Py.str) :
  decode_body body = Ok out → (length out ≤ length body)%nat.
Proof.
  remember (length body) as n eqn:Hn. revert body out Hn.
  induction n as [n IH] using lt_wf_ind. intros body out -> Hout.
  destruct (decode_body_step body)
    as [-> | [Hnil | [(e' & He' & Hwhy) | [(c & Hc) | (c & rest' & Hlen & Hstep)]]]].
  - injection Hout as <-. done.
  - rewrite Hnil in Hout. injection Hout as <-. simpl. lia.
  - congruence.
  - rewrite Hc in Hout. injection Hout as <-. destruct body; [done|simpl; lia].
  - rewrite Hstep in Hout.
    destruct (decode_body rest') as [out'|e'] eqn:Hrest; [|done].
    injection Hout as <-. simpl.
    pose proof (IH _ Hlen rest' out' eq_refl Hrest). lia.
Qed.

Lemma decode_body_plain (body : Py.str) :
  Forall (λ c, c ≠ backslash) body → decode_body body = Ok body.
Proof.
  induction 1 as [|c body Hc _ IH]; [done|].
  by rewrite decode_body_char, IH.
Qed.

(** The failures of the decoder. *)
Lemma decode_literal_raises (literal : Py.str) e :
  _decode_js_string_literal literal = Raise e →
  e = ValueError NotAStringLiteral
  ∨ e = ValueError InvalidIntLiteral
  ∨ e = ValueError ChrOutOfRange
  ∨ e = OverflowError.
Proof.
  destruct (decode_literal_cases literal)
    as [(q & body & Hq & Heq & ->) | [Hno ->]].
  - intros He. right. by apply decode_body_raises in He.
  - intros [= <-]. by left.
Qed.
End DecoderProofs.

(** ** Conversion of hexadecimal digits *)

Section IntProofs.
Context `{PyRuntime}.

Lemma int_digits_hex_value : ∀ hexs acc d,
  forallb Re.hex hexs = true →
  Py.int_digits 16 hexs false acc d
  = Some (fold_left (λ a h, a * 16 + Py.digit_value h) hexs acc,
          d + Py.len hexs, []).
Proof.
  induction hexs as [|h hexs IH]; intros acc d Hall.
  - simpl. do 3 f_equal. unfold Py.len. simpl. lia.
  - simpl in Hall. apply andb_true_iff in Hall as [Hh Hall].
    apply hex_digit_facts in Hh as (H95 & Hv & _). simpl.
    rewrite (proj2 (Z.eqb_neq h 95)) by done.
    rewrite (proj2 (Z.ltb_lt (Py.digit_value h) 16)) by lia.
    rewrite (IH (acc * 16 + Py.digit_value h) (d + 1) Hall).
    rewrite len_cons. do 3 f_equal. lia.
Qed.

Lemma hex_fold_nonneg : ∀ hexs acc,
  forallb Re.hex hexs = true → 0 ≤ acc →
  0 ≤ fold_left (λ a h, a * 16 + Py.digit_value h) hexs acc.
Proof.
  induction hexs as [|h hexs IH]; intros acc Hall Hacc; [done|].
  simpl in Hall. apply andb_true_iff in Hall as [Hh Hall].
  apply hex_digit_facts in Hh as (_ & Hv & _). simpl. apply IH; [done|lia].
Qed.

Lemma hex_value_nonneg hexs : forallb Re.hex hexs = true → 0 ≤ hex_value hexs.
Proof. intros Hall. by apply hex_fold_nonneg. Qed.

Lemma hex_not_space h : Re.hex h = true →
  Py.c_isspace h = false ∧ h ≠ 43 ∧ h ≠ 45 ∧ h ≠ 120 ∧ h ≠ 88.
Proof.
  unfold Re.hex, Py.c_isspace.
  rewrite !orb_true_iff, !andb_true_iff, !Z.leb_le. intros Hh.
  repeat split; lia.
Qed.

(** [int(hexs, 16)] on hexadecimal digits. *)
Lemma int_hex_digits hexs :
  hexs ≠ [] → forallb Re.hex hexs = true →
  Py.int hexs 16 = Ok (hex_value hexs).
Proof.
  intros Hne Hall.
  destruct hexs as [|h hexs]; [done|].
  assert (Hascii : forallb (λ c, c <? 128) (h :: hexs) = true).
  { apply forallb_forall. intros x Hx.
    eapply forallb_forall in Hall; [|done].
    apply hex_digit_facts in Hall. apply Z.ltb_lt. lia. }
  pose proof (int_digits_hex_value (h :: hexs) 0 0 Hall) as Hv.
  pose proof Hall as Hall'.
  simpl in Hall. apply andb_true_iff in Hall as [Hh Hrest].
  pose proof (hex_digit_facts h Hh) as (H95 & _ & _).
  pose proof (hex_not_space h Hh) as (Hsp & H43 & H45 & _).
  unfold Py.int. rewrite Hascii.
  cbn [Py.skip_c_space]. rewrite Hsp.
  rewrite (proj2 (Z.eqb_neq h 43)), (proj2 (Z.eqb_neq h 45)) by done.
  change (16 =? 0) with false. cbv iota.
  assert (Hpre : Py.prefixed (h :: hexs) 120 88 = false).
  { destruct hexs as [|x hexs]; [done|]. simpl in Hrest.
    apply andb_true_iff in Hrest as [Hx _].
    pose proof (hex_not_space x Hx) as (_ & _ & _ & H120 & H88).
    cbn [Py.prefixed].
    rewrite (proj2 (Z.eqb_neq x 120)), (proj2 (Z.eqb_neq x 88)) by done.
    by rewrite andb_false_r. }
  rewrite Hpre. cbn [Z.eqb andb orb Pos.eqb].
  cbn [Py.starts_with]. rewrite (Z.eqb_sym 95), (proj2 (Z.eqb_neq h 95)) by done.
  cbn [andb]. rewrite Hv.
  rewrite len_cons. pose proof (len_nonneg hexs).
  rewrite (proj2 (Z.eqb_neq (0 + (1 + Py.len hexs)) 0)) by lia.
  done.
Qed.

(** [int(text, 16)] on a literal with the prefix 0x. *)
Lemma int_hex_literal_value hexs :
  hexs ≠ [] → forallb Re.hex hexs = true →
  Py.int (Py.lit "0x" ++ hexs) 16 = Ok (hex_value hexs).
Proof.
  intros Hne Hall. change (Py.lit "0x" ++ hexs) with (48 :: 120 :: hexs).
  destruct hexs as [|h hexs]; [done|].
  assert (Hascii : forallb (λ c, c <? 128) (48 :: 120 :: h :: hexs) = true).
  { apply forallb_forall. intros x [<- | [<- | Hx]]; [done..|].
    eapply forallb_forall in Hall; [|done].
    apply hex_digit_facts in Hall. apply Z.ltb_lt. lia. }
  pose proof (int_digits_hex_value (h :: hexs) 0 0 Hall) as Hv.
  simpl in Hall. apply andb_true_iff in Hall as [Hh _].
  apply hex_digit_facts in Hh as (H95 & _ & _).
  unfold Py.int. rewrite Hascii.
  cbn [Py.skip_c_space Py.c_isspace Z.eqb Z.leb Z.compare Pos.compare
       Pos.compare_cont andb orb Py.prefixed Py.starts_with drop negb
       Pos.eqb].
  change (match h with Z.pos q => (95 =? q)%positive | _ => false end)
    with (95 =? h).
  rewrite !(proj2 (Z.eqb_neq 95 h)) by done. cbn [andb].
  change (match h with Z.pos q => (95 =? q)%positive | _ => false end)
    with (95 =? h).
  rewrite !(proj2 (Z.eqb_neq 95 h)) by done. cbn [andb]. rewrite Hv.
  pose proof (len_nonneg (h :: hexs)). rewrite len_cons in *.
  rewrite (proj2 (Z.eqb_neq (0 + (1 + Py.len hexs)) 0))
    by (pose proof (len_nonneg hexs); lia).
  done.
Qed.
End IntProofs.

Section DecoderTheorems.
Context `{PyRuntime}.

(** X4: a literal in either kind of quotes whose body holds no backslash
    decodes to its body, whatever else the body holds. *)
Theorem decode_plain_literal (q : Z) (body : Py.str) :
  is_quote q = true → Forall (λ c, c ≠ backslash) body →
  _decode_js_string_literal (q :: body ++ [q]) = Ok body.
Proof.
  intros Hq Hbody.
  destruct (decode_literal_cases (q :: body ++ [q]))
    as [(q' & body' & _ & Heq & ->) | [Hno _]].
  - injection Heq as <- Heq. apply app_inj_tail in Heq as [<- _].
    by apply decode_body_plain.
  - destruct Hno. by exists q, body.
Qed.

(** X5: the decoder fails with "Not a JS string literal" exactly on the
    texts that are not a body between two equal quote characters, and it
    never fails on an index: its reads past the end of the body are
    slices or are guarded by the length. *)
Theorem decode_literal_errors (literal : Py.str) :
  (_decode_js_string_literal literal = Raise (ValueError NotAStringLiteral)
   ↔ ¬ ∃ q body, is_quote q = true ∧ literal = q :: body ++ [q])
  ∧ _decode_js_string_literal literal ≠ Raise IndexError.
Proof.
  split.
  - destruct (decode_literal_cases literal)
      as [(q & body & Hq & Heq & Hdec) | [Hno Hdec]]; rewrite Hdec.
    + split.
      * intros Hraise.
        apply decode_body_raises in Hraise as [? | [? | ?]]; done.
      * intros []. by exists q, body.
    + done.
  - intros Hraise.
    by apply decode_literal_raises in Hraise as [? | [? | [? | ?]]].
Qed.

(** X6: the decoded string is never longer than the body of the
    literal: every escape stands for at most one character. *)
Theorem decode_literal_length (literal s : Py.str) :
  _decode_js_string_literal literal = Ok s →
  Py.len s ≤ Py.len literal - 2.
Proof.
  destruct (decode_literal_cases literal)
    as [(q & body & Hq & -> & ->) | [Hno ->]]; [|done].
  intros Hs%decode_body_length.
  rewrite len_cons, len_app. unfold Py.len. simpl. lia.
Qed.

(** X7: an escape of two hexadecimal digits after the letter x, or of
    four after the letter u, decodes to the character with that number,
    and decoding goes on after the digits. *)
Theorem decode_hex_escapes (h1 h2 h3 h4 : Z) (rest : Py.str) :
  Re.hex h1 = true → Re.hex h2 = true → Re.hex h3 = true → Re.hex h4 = true →
  decode_body (backslash :: 120 :: h1 :: h2 :: rest)
  = (hex_value [h1; h2] ::.) <$> decode_body rest
  ∧ decode_body (backslash :: 117 :: h1 :: h2 :: h3 :: h4 :: rest)
    = (hex_value [h1; h2; h3; h4] ::.) <$> decode_body rest.
Proof.
  intros H1 H2 H3 H4.
  pose proof (hex_digit_facts h1 H1) as (_ & Hd1 & _).
  pose proof (hex_digit_facts h2 H2) as (_ & Hd2 & _).
  pose proof (hex_digit_facts h3 H3) as (_ & Hd3 & _).
  pose proof (hex_digit_facts h4 H4) as (_ & Hd4 & _).
  split; rewrite decode_body_backslash.
  - change (120 =? 120) with true. cbv iota.
    rewrite int_hex_digits by (done || simpl; by rewrite H1, H2).
    simpl mbind. unfold Py.chr.
    replace ((0 <=? hex_value [h1; h2]) && (hex_value [h1; h2] <=? 1114111))
      with true by (unfold hex_value; simpl; lia).
    done.
  - change (117 =? 120) with false. change (117 =? 117) with true. cbv iota.
    replace (Py.starts_with [123] (h1 :: h2 :: h3 :: h4 :: rest)) with false.
    2:{ cbn [Py.starts_with]. rewrite andb_true_r. symmetry.
        apply Z.eqb_neq. unfold Re.hex in H1. lia. }
    rewrite int_hex_digits by (done || simpl; by rewrite H1, H2, H3, H4).
    simpl mbind. unfold Py.chr.
    replace ((0 <=? hex_value [h1; h2; h3; h4])
             && (hex_value [h1; h2; h3; h4] <=? 1114111))
      with true by (unfold hex_value; simpl; lia).
    done.
Qed.

Lemma split_at_brace_app (hexs rest : Py.str) :
  125 ∉ hexs → split_at_brace (hexs ++ 125 :: rest) = Some (hexs, rest).
Proof.
  induction hexs as [|h hexs IH]; intros Hno; [done|].
  apply not_elem_of_cons in Hno as [Hh Hno]. cbn [app split_at_brace].
  rewrite (proj2 (Z.eqb_neq h 125)) by done. by rewrite IH.
Qed.

(** X8: an escape of hexadecimal digits between braces after the
    letter u decodes to the code point with that number when there is
    one, and raises ValueError when the number is above 0x10FFFF (and
    within the range of a C int, which [chr] takes). *)
Theorem decode_code_point_escape (hexs rest : Py.str) :
  hexs ≠ [] → forallb Re.hex hexs = true → hex_value hexs < 2147483648 →
  decode_body (backslash :: 117 :: 123 :: hexs ++ 125 :: rest)
  = if hex_value hexs <=? 1114111
    then (hex_value hexs ::.) <$> decode_body rest
    else Raise (ValueError ChrOutOfRange).
Proof.
  intros Hne Hall Hint. rewrite decode_body_backslash.
  change (117 =? 120) with false. change (117 =? 117) with true. cbv iota.
  cbn [Py.starts_with drop Z.eqb Pos.eqb andb]. rewrite drop_0.
  rewrite split_at_brace_app.
  2:{ intros Hin. eapply forallb_forall in Hall; [|by apply list_elem_of_In].
      done. }
  rewrite int_hex_digits by done. simpl mbind. unfold Py.chr.
  pose proof (hex_value_nonneg hexs Hall).
  replace (0 <=? hex_value hexs) with true by lia. cbn [andb].
  replace ((-2147483648 <=? hex_value hexs) && (hex_value hexs <=? 2147483647))
    with true by lia.
  by destruct (hex_value hexs <=? 1114111).
Qed.
End DecoderTheorems.

(** ** [str.find] and the searches of [re] *)

Lemma starts_with_spec (sub s : Py.str) :
  Py.starts_with sub s = true ↔ ∃ post, s = sub ++ post.
Proof.
  revert s. induction sub as [|a sub IH]; intros s; simpl.
  - split; [by exists s|done].
  - destruct s as [|b s]; [split; [done|by intros [? ?]]|].
    rewrite andb_true_iff, Z.eqb_eq, IH. split.
    + intros [-> [post ->]]. by exists post.
    + intros [post [= -> ->]]. split; [done|by exists post].
Qed.

(** [find] returns the offset of the first occurrence, or -1 when there
    is none. *)
Lemma find_from_spec (sub : Py.str) : ∀ s i, 0 ≤ i →
  (Py.find_from sub s i = -1 ∧ ¬ occurs sub s)
  ∨ (∃ pre post, s = pre ++ sub ++ post
                 ∧ Py.find_from sub s i = i + Py.len pre
                 ∧ ∀ pre' post', s = pre' ++ sub ++ post' →
                                 Py.len pre ≤ Py.len pre').
Proof.
  assert (Hhead : ∀ s i, Py.starts_with sub s = true →
            ∃ pre post, s = pre ++ sub ++ post
                 ∧ i = i + Py.len pre
                 ∧ ∀ pre' post', s = pre' ++ sub ++ post' →
                                 Py.len pre ≤ Py.len pre').
  { intros s i [post Hpost]%starts_with_spec.
    exists [], post. split; [done|]. split; [unfold Py.len; simpl; lia|].
    intros pre' post' _. change (Py.len []) with 0. apply len_nonneg. }
  induction s as [|x s IH]; intros i Hi; cbn [Py.find_from].
  - destruct (Py.starts_with sub []) eqn:Hst; [right; by apply Hhead|].
    left. split; [done|].
    intros (pre & post & Heq). symmetry in Heq.
    apply app_eq_nil in Heq as [-> Heq].
    apply not_true_iff_false in Hst. apply Hst, starts_with_spec.
    by exists post.
  - destruct (Py.starts_with sub (x :: s)) eqn:Hst; [right; by apply Hhead|].
    apply not_true_iff_false in Hst.
    destruct (IH (i + 1)) as [[Hr Hno] | (pre & post & -> & Hr & Hfirst)]; [lia|..].
    + left. split; [done|]. intros (pre & post & Heq).
      destruct pre as [|y pre].
      * apply Hst, starts_with_spec. by exists post.
      * injection Heq as _ ->. apply Hno. by exists pre, post.
    + right. exists (x :: pre), post. split; [done|].
      split; [rewrite len_cons; lia|].
      intros pre' post' Heq. destruct pre' as [|y pre'].
      * destruct Hst. apply starts_with_spec. by exists post'.
      * injection Heq as _ Heq. rewrite !len_cons.
        pose proof (Hfirst pre' post' Heq). lia.
Qed.

Lemma find_spec (s sub : Py.str) (start : Z) :
  0 ≤ start ≤ Py.len s →
  (Py.find s sub start = -1 ∧ ¬ occurs sub (drop (Z.to_nat start) s))
  ∨ (∃ pre post, drop (Z.to_nat start) s = pre ++ sub ++ post
                 ∧ Py.find s sub start = start + Py.len pre
                 ∧ ∀ pre' post', drop (Z.to_nat start) s = pre' ++ sub ++ post' →
                                 Py.len pre ≤ Py.len pre').
Proof.
  intros Hstart. unfold Py.find.
  rewrite (proj2 (Z.ltb_ge (Py.len s) start)) by lia.
  apply find_from_spec. lia.
Qed.

(** The first occurrence from the start of the text. *)
Lemma find_first (s sub : Py.str) :
  (Py.find s sub 0 = -1 ∧ ¬ occurs sub s)
  ∨ (∃ pre post, s = pre ++ sub ++ post
                 ∧ Py.find s sub 0 = Py.len pre
                 ∧ ∀ pre' post', s = pre' ++ sub ++ post' →
                                 Py.len pre ≤ Py.len pre').
Proof.
  pose proof (len_nonneg s).
  destruct (find_spec s sub 0) as [Hno | (pre & post & Heq & Hr & Hfirst)];
    [lia | by left |].
  right. exists pre, post. rewrite drop_0 in *. by repeat split.
Qed.

Lemma index_middle {A} (pre : list A) (x : A) (post : list A) :
  Py.index (pre ++ x :: post) (Py.len pre) = Ok x.
Proof.
  unfold Py.index. pose proof (len_nonneg pre).
  rewrite (proj2 (Z.ltb_ge (Py.len pre) 0)) by done.
  rewrite (proj2 (Z.ltb_ge (Py.len pre) 0)) by done.
  unfold Py.len. rewrite Nat2Z.id.
  by rewrite list_lookup_middle.
Qed.

Section SearchProofs.
Context `{PyRuntime}.

Lemma fullmatch_sound r s c :
  Re.fullmatch r s = Some c → Matches r None s [] [] c.
Proof.
  unfold Re.fullmatch. intros Hrun.
  apply run_sound in Hrun as (mt & rest & c' & -> & Hm & Hk).
  destruct rest; [|done]. injection Hk as <-. by rewrite app_nil_r.
Qed.

Lemma search_from_sound r : ∀ s prev i j mt c,
  Re.search_from r prev s i = Some (j, mt, c) →
  ∃ pre rest, s = pre ++ mt ++ rest ∧ j = i + Py.len pre
              ∧ Matches r (last_char prev pre) mt rest [] c.
Proof.
  induction s as [|x s IH]; intros prev i j mt c; cbn [Re.search_from].
  - destruct (Re.match_at r prev []) as [[mt' c']|] eqn:Hm; [|done].
    intros [= <- <- <-]. apply match_at_sound in Hm as (rest & Heq & Hm).
    exists [], rest. split; [done|]. split; [unfold Py.len; simpl; lia | done].
  - destruct (Re.match_at r prev (x :: s)) as [[mt' c']|] eqn:Hm.
    + intros [= <- <- <-]. apply match_at_sound in Hm as (rest & Heq & Hm).
      exists [], rest. split; [done|]. split; [unfold Py.len; simpl; lia | done].
    + intros Hs. apply IH in Hs as (pre & rest & -> & -> & Hmatch).
      exists (x :: pre), rest. split; [done|].
      split; [rewrite len_cons; lia|].
      by rewrite <- (last_char_cons prev).
Qed.

Lemma search_sound r s j mt c :
  Re.search r s = Some (j, mt, c) →
  ∃ pre rest, s = pre ++ mt ++ rest ∧ j = Py.len pre
              ∧ Matches r (last_char None pre) mt rest [] c.
Proof.
  intros Hs. apply search_from_sound in Hs as (pre & rest & -> & -> & Hm).
  exists pre, rest. split; [done|]. split; [lia | done].
Qed.

Lemma search_or_sound r1 r2 s j mt c :
  search_or r1 r2 s = Some (j, mt, c) →
  ∃ pre rest, s = pre ++ mt ++ rest
              ∧ (Matches r1 (last_char None pre) mt rest [] c
                 ∨ Matches r2 (last_char None pre) mt rest [] c).
Proof.
  unfold search_or. destruct (Re.search r1 s) as [[[j' mt'] c']|] eqn:H1.
  - intros [= -> -> ->]. apply search_sound in H1 as (pre & rest & -> & _ & Hm).
    exists pre, rest. auto.
  - intros H2. apply search_sound in H2 as (pre & rest & -> & _ & Hm).
    exists pre, rest. auto.
Qed.

(** The matches of [finditer] are matches of the pattern, at the
    offsets given. *)
Lemma match_spans_sound r n : ∀ s, (length s ≤ n)%nat → ∀ prev i0 j mt c,
  (j, mt, c) ∈ Re.match_spans (Re.pieces r prev s 0) i0 →
  ∃ pre rest, s = pre ++ mt ++ rest ∧ j = i0 + Py.len pre ∧ mt ≠ []
              ∧ Matches r (last_char prev pre) mt rest [] c.
Proof.
  induction n as [|n IH]; intros s Hlen prev i0 j mt c.
  - destruct s; [|simpl in Hlen; lia]. simpl. by intros ?%elem_of_nil.
  - destruct (pieces_unfold r prev s)
      as [[-> _] | [(x & s' & -> & ->) | (mt' & c' & rest & -> & Hne & Hm & ->)]].
    + simpl. by intros ?%elem_of_nil.
    + cbn [Re.match_spans]. intros Hin.
      apply IH in Hin as (pre & rest & -> & -> & Hne & Hm);
        [|simpl in Hlen; lia].
      exists (x :: pre), rest. split; [done|].
      split; [rewrite len_cons; lia|]. split; [done|].
      by rewrite <- (last_char_cons prev).
    + cbn [Re.match_spans]. intros [[= -> -> ->] | Hin]%elem_of_cons.
      * exists [], rest. split; [done|]. split; [unfold Py.len; simpl; lia | done].
      * apply IH in Hin as (pre & rest' & -> & -> & Hne' & Hm').
        2:{ rewrite length_app in Hlen. destruct mt'; [done|].
            simpl in Hlen. lia. }
        exists (mt' ++ pre), rest'. split; [by rewrite <- app_assoc|].
        split; [rewrite len_app; lia|]. split; [done|].
        by rewrite <- last_char_app.
Qed.

Lemma finditer_sound r s j mt c :
  (j, mt, c) ∈ Re.finditer r s →
  ∃ pre rest, s = pre ++ mt ++ rest ∧ j = Py.len pre ∧ mt ≠ []
              ∧ Matches r (last_char None pre) mt rest [] c.
Proof.
  intros Hin. eapply match_spans_sound in Hin as (pre & rest & -> & -> & Hm);
    [|done].
  exists pre, rest. split; [done|]. split; [lia | done].
Qed.
End SearchProofs.

(** ** The shapes the patterns of the recognisers match *)

Section ShapeProofs.
Context `{PyRuntime}.

Lemma tail_re_shape prev mt rest c :
  Matches tail_re prev mt rest [] c →
  ∃ name ws1 ws2 hexs,
    mt = name ++ ws1 ++ [44] ++ ws2 ++ Py.lit "0x" ++ hexs
    ∧ is_identifier name = true
    ∧ hexs ≠ [] ∧ forallb Re.hex hexs = true
    ∧ Re.group 1 c = name ∧ Re.group 2 c = Py.lit "0x" ++ hexs.
Proof.
  unfold tail_re, hex_literal, identifier, Re.Cat, Re.Plus.
  change (Py.lit "0x") with [48; 120]. cbn [foldr Re.Lit]. intros Hm.
  inv_matches.
  match goal with
  | |- ∃ _ _ _ _,
        ([?x] ++ ?m ++ []) ++ ?w1 ++ [44] ++ ?w2
           ++ (_ ++ ([?h] ++ ?hs) ++ []) ++ [] = _ ∧ _ =>
    exists (x :: m), w1, w2, (h :: hs)
  end.
  split; [by lassoc; rewrite ?app_nil_r|].
  split; [simpl; rewrite ?app_nil_r; by apply andb_true_iff|].
  split; [done|]. split; [simpl; by apply andb_true_iff|].
  split; simpl; by rewrite ?app_nil_r.
Qed.

Lemma alias_re_shape last prev mt rest c :
  Matches (alias_re last) prev mt rest [] c →
  is_identifier (Re.group 1 c) = true ∧ occurs (Re.group 1 c) mt.
Proof.
  unfold alias_re, identifier, Re.Cat, Re.Plus.
  change (Py.lit "const") with [99; 111; 110; 115; 116].
  cbn [foldr Re.Lit]. intros Hm.
  inv_matches. cbn [Re.group Nat.eqb]. split.
  - simpl. rewrite app_nil_r. by apply andb_true_iff.
  - match goal with
    | |- occurs ?g (?a ++ ?b ++ ?g ++ ?post) => by exists (a ++ b), post; lassoc
    end.
Qed.

Lemma k_re_shape relaxed prev mt rest c :
  Matches (k_re relaxed) prev mt rest [] c →
  Re.group 1 c ≠ [] ∧ (59 ∉ Re.group 1 c)
  ∧ ∃ head semi, mt = head ++ [61] ++ Re.group 1 c ++ semi ++ Py.lit "if(K===O)"
                 ∧ (semi = [59] ∨ semi = [] ∧ relaxed = true).
Proof.
  unfold k_re, Re.Cat, Re.Plus.
  change (Py.lit "const") with [99; 111; 110; 115; 116].
  change (Py.lit "if(K===O)") with [105; 102; 40; 75; 61; 61; 61; 79; 41].
  cbn [foldr Re.Lit]. intros Hm.
  destruct relaxed; inv_matches; cbn [Re.group Nat.eqb].
  all: split; [done|].
  all: split;
    [ apply not_elem_of_cons; split;
      [ match goal with
        | Hx : negb (_ =? 59) = true |- _ =>
          apply negb_true_iff, Z.eqb_neq in Hx; congruence
        end
      | match goal with
        | Hall : forallb _ ?m = true |- 59 ∉ ?m =>
          intros Hin%list_elem_of_In;
          eapply forallb_forall in Hall; [|done]; done
        end ]
    |].
  all: match goal with
       | |- ∃ _ _, ?a ++ ?b ++ ?k ++ ?w ++ [61] ++ ?g ++ ?semi ++ _ = _ ∧ _ =>
         exists (a ++ b ++ k ++ w), semi
       end.
  all: split; [by lassoc; rewrite ?app_nil_r | auto].
Qed.

(** The two patterns for the offset end in a minus sign, white space
    and the hexadecimal literal of the group. *)
Lemma normalisation_re_shape arg0 prev mt rest c :
  Matches (normalisation_re arg0) prev mt rest [] c →
  ∃ head ws hexs,
    mt = head ++ [45] ++ ws ++ Py.lit "0x" ++ hexs
    ∧ forallb Py.isspace ws = true
    ∧ hexs ≠ [] ∧ forallb Re.hex hexs = true
    ∧ Re.group 1 c = Py.lit "0x" ++ hexs.
Proof.
  unfold normalisation_re, hex_literal, Re.Cat, Re.Plus.
  change (Py.lit "0x") with [48; 120]. cbn [foldr Re.Lit]. intros Hm.
  inv_matches. cbn [Re.group Nat.eqb].
  match goal with
  | |- ∃ _ _ _, ?a ++ ?b ++ ?c1 ++ ?d ++ ?e ++ ?f ++ ?g ++ [45] ++ ?ws
                  ++ (_ ++ ([?h] ++ ?hs) ++ []) ++ [] = _ ∧ _ =>
    exists (a ++ b ++ c1 ++ d ++ e ++ f ++ g), ws, (h :: hs)
  end.
  split; [by lassoc; rewrite ?app_nil_r|]. split; [done|].
  split; [done|]. split; [simpl; by apply andb_true_iff|].
  simpl; by rewrite ?app_nil_r.
Qed.

Lemma minus_hex_re_shape prev mt rest c :
  Matches minus_hex_re prev mt rest [] c →
  ∃ head ws hexs,
    mt = head ++ [45] ++ ws ++ Py.lit "0x" ++ hexs
    ∧ forallb Py.isspace ws = true
    ∧ hexs ≠ [] ∧ forallb Re.hex hexs = true
    ∧ Re.group 1 c = Py.lit "0x" ++ hexs.
Proof.
  unfold minus_hex_re, hex_literal, Re.Cat, Re.Plus.
  change (Py.lit "0x") with [48; 120]. cbn [foldr Re.Lit]. intros Hm.
  inv_matches. cbn [Re.group Nat.eqb].
  match goal with
  | |- ∃ _ _ _, [45] ++ ?ws ++ (_ ++ ([?h] ++ ?hs) ++ []) ++ [] = _ ∧ _ =>
    exists [], ws, (h :: hs)
  end.
  split; [by lassoc; rewrite ?app_nil_r|]. split; [done|].
  split; [done|]. split; [simpl; by apply andb_true_iff|].
  simpl; by rewrite ?app_nil_r.
Qed.

Lemma assign_re_shape prev mt rest c :
  Matches assign_re prev mt rest [] c →
  is_identifier (Re.group 1 c) = true ∧ is_identifier (Re.group 2 c) = true
  ∧ ∃ kw ws1 ws2 ws3 ws4,
      mt = kw ++ ws1 ++ Re.group 1 c ++ ws2 ++ [61] ++ ws3
              ++ Re.group 2 c ++ ws4 ++ [59]
      ∧ (kw = Py.lit "const" ∨ kw = Py.lit "let" ∨ kw = Py.lit "var")
      ∧ ws1 ≠ [] ∧ forallb Py.isspace ws1 = true
      ∧ forallb Py.isspace ws2 = true ∧ forallb Py.isspace ws3 = true
      ∧ forallb Py.isspace ws4 = true.
Proof.
  unfold assign_re, identifier, Re.Cat, Re.Plus.
  change (Py.lit "const") with [99; 111; 110; 115; 116].
  change (Py.lit "let") with [108; 101; 116].
  change (Py.lit "var") with [118; 97; 114].
  cbn [foldr Re.Lit]. intros Hm.
  inv_matches; cbn [Re.group Nat.eqb].
  all: split; [simpl; rewrite app_nil_r; by apply andb_true_iff|].
  all: split; [simpl; rewrite app_nil_r; by apply andb_true_iff|].
  all: match goal with
       | |- ∃ _ _ _ _ _, [] ++ ?kw ++ ([?x] ++ ?w1) ++ ?l ++ ?w2 ++ [61] ++ ?w3
                           ++ ?r ++ ?w4 ++ [59] ++ [] = _ ∧ _ =>
         exists kw, (x :: w1), w2, w3, w4
       end.
  all: split; [by lassoc; rewrite ?app_nil_r|].
  all: split; [simpl; auto|].
  all: split; [done|]. 
  all: split; [simpl; by apply andb_true_iff|]. 
  all: auto.
Qed.

Lemma q_head_re_shape prev mt rest c :
  Matches q_head_re prev mt rest [] c → is_identifier (Re.group 1 c) = true.
Proof.
  unfold q_head_re, identifier, Re.Cat, Re.Plus.
  change (Py.lit "function") with [102; 117; 110; 99; 116; 105; 111; 110].
  change (Py.lit "Q(") with [81; 40].
  cbn [foldr Re.Lit]. intros Hm.
  inv_matches. cbn [Re.group Nat.eqb].
  simpl. rewrite app_nil_r. by apply andb_true_iff.
Qed.

Lemma array_decl_re_shape prev mt rest c :
  Matches array_decl_re prev mt rest [] c → ∃ head, mt = head ++ [91].
Proof.
  unfold array_decl_re, identifier, Re.Cat, Re.Plus.
  change (Py.lit "const") with [99; 111; 110; 115; 116].
  cbn [foldr Re.Lit]. intros Hm.
  inv_matches.
  match goal with
  | |- ∃ _, ?a ++ ?b ++ ?c1 ++ ?d ++ ?e ++ ?f ++ ?g ++ [91] ++ [] = _ =>
    exists (a ++ b ++ c1 ++ d ++ e ++ f ++ g)
  end.
  by lassoc; rewrite ?app_nil_r.
Qed.

Lemma brace_paren_shape prev mt rest c :
  Matches (Re.Lit (Py.lit "}(")) prev mt rest [] c → mt = [125; 40].
Proof.
  change (Py.lit "}(") with [125; 40]. cbn [Re.Lit]. intros Hm.
  by inv_matches.
Qed.
End ShapeProofs.

(** ** The bootstrap recogniser *)

Lemma extract_balanced_raises (js : Py.str) (start o c : Z) e :
  _extract_balanced js start o c = Raise e →
  e = IndexError ∨ e = ValueError ExpectedOpen ∨ e = ValueError UnbalancedBrackets.
Proof.
  unfold _extract_balanced, Py.index. cbv zeta.
  repeat case_match; simpl; repeat case_match; intros [= <-]; auto.
Qed.

(** On an offset that holds the open character the scanner returns a
    region of the text or finds the text unbalanced. *)
Lemma extract_balanced_at_open (pre post : Py.str) (o c : Z) :
  (∃ region tail,
     post = region ++ tail ∧ Balanced o c (o :: region)
     ∧ _extract_balanced (pre ++ o :: post) (Py.len pre) o c
       = Ok (o :: region, Py.len pre + Py.len (o :: region)))
  ∨ _extract_balanced (pre ++ o :: post) (Py.len pre) o c
    = Raise (ValueError UnbalancedBrackets).
Proof.
  pose proof (len_nonneg pre) as Hpre.
  pose proof (index_middle pre o post) as Hidx.
  destruct (_extract_balanced (pre ++ o :: post) (Py.len pre) o c)
    as [[region e]|e] eqn:Hscan.
  - left.
    destruct (extract_balanced_sound _ _ _ _ _ _ Hpre Hidx Hscan)
      as (Hbal & [tail Htail] & ->).
    unfold Py.len in Htail. rewrite Nat2Z.id, drop_app_length in Htail.
    destruct Hbal as (body & Hitems & ->).
    injection Htail as ->.
    exists (body ++ [c]), tail. split; [done|]. split; [|done].
    by exists body.
  - right. unfold _extract_balanced in Hscan. rewrite Hidx in Hscan.
    simpl in Hscan. rewrite Z.eqb_refl in Hscan. simpl in Hscan.
    by destruct (scan_loop _ _ _ _ _ _ _).
Qed.

Section BootstrapProofs.
Context `{PyRuntime}.

(** The ways through [_extract_bootstrap]. *)
Lemma extract_bootstrap_cases (js : Py.str) :
  (¬ occurs bootstrap_marker js
   ∧ _extract_bootstrap js = Raise (RuntimeError BootstrapNotFound))
  ∨ (∃ pre post,
       js = pre ++ bootstrap_marker ++ post
       ∧ Py.find js bootstrap_marker 0 = Py.len pre
       ∧ ((∃ e, _extract_bootstrap js = Raise e
                ∧ (e = RuntimeError InvocationNotFound
                   ∨ e = RuntimeError MalformedInvocation
                   ∨ e = RuntimeError KExpressionNotFound
                   ∨ e = ValueError UnbalancedBrackets))
          ∨ ∃ b iife_expr tail hexs,
              _extract_bootstrap js = Ok b
              ∧ js = pre ++ iife_expr ++ tail
              ∧ Balanced 40 41 iife_expr
              ∧ iife_end b = Py.len pre + Py.len iife_expr
              ∧ is_identifier (arr_fn_name b) = true
              ∧ hexs ≠ [] ∧ forallb Re.hex hexs = true
              ∧ target b = hex_value hexs
              ∧ (alias b = canonical
                 ∨ is_identifier (alias b) = true ∧ occurs (alias b) iife_expr)
              ∧ k_expr_js b ≠ [] ∧ (59 ∉ k_expr_js b)
              ∧ occurs ([61] ++ k_expr_js b) iife_expr)).
Proof.
  unfold _extract_bootstrap. fold bootstrap_marker.
  destruct (find_first js bootstrap_marker)
    as [[-> Hno] | (pre & post & Hjs & Hfind & _)]; [by left|].
  right. exists pre, post. split; [done|]. split; [done|].
  rewrite Hfind. pose proof (len_nonneg pre).
  rewrite (proj2 (Z.eqb_neq (Py.len pre) (-1))) by lia.
  rewrite Hjs. change (bootstrap_marker ++ post)
    with (40 :: Py.lit "function(X,O){" ++ post).
  destruct (extract_balanced_at_open pre (Py.lit "function(X,O){" ++ post) 40 41)
    as [(region & tail & Hpost & Hbal & ->) | ->];
    [|left; eexists; split; [done|]; auto].
  cbn [mbind res_bind].
  remember (40 :: region) as iife eqn:Hiife.
  assert (Hwhole : pre ++ bootstrap_marker ++ post = pre ++ iife ++ tail).
  { subst iife. change bootstrap_marker with ([40] ++ Py.lit "function(X,O){").
    by rewrite <- (app_assoc [40]), Hpost. }
  destruct (last (Re.finditer (Re.Lit (Py.lit "}(")) iife))
    as [[[start mt] c]|] eqn:Hlast;
    [|left; eexists; split; [done|]; auto].
  apply last_Some in Hlast as [others Hlast].
  assert (Hin : (start, mt, c) ∈ Re.finditer (Re.Lit (Py.lit "}(")) iife).
  { rewrite Hlast. apply elem_of_app. right. by left. }
  apply finditer_sound in Hin as (pre2 & rest2 & Hsplit & -> & _ & Hm).
  apply brace_paren_shape in Hm as ->.
  replace (_extract_balanced iife (Py.len pre2 + 1) 40 41)
    with (_extract_balanced ((pre2 ++ [125]) ++ 40 :: rest2)
            (Py.len (pre2 ++ [125])) 40 41).
  2:{ rewrite Hsplit, len_app. f_equal. by rewrite <- app_assoc. }
  destruct (extract_balanced_at_open (pre2 ++ [125]) rest2 40 41)
    as [(args & tail2 & _ & _ & ->) | ->];
    [|left; eexists; split; [done|]; auto].
  cbn [mbind res_bind].
  destruct (Re.fullmatch tail_re (Py.strip (Py.slice (40 :: args) 1 (-1))))
    as [m_tail|] eqn:Htail;
    [|left; eexists; split; [done|]; auto].
  apply fullmatch_sound, tail_re_shape in Htail
    as (name & ws1 & ws2 & hexs & _ & Hname & Hne & Hhex & Hg1 & Hg2).
  rewrite Hg2, int_hex_literal_value by done. cbn [mbind res_bind].
  destruct (search_or (k_re false) (k_re true) iife)
    as [[[jk mk] ck]|] eqn:Hk;
    [|left; eexists; split; [done|]; auto].
  right. eexists _, iife, tail, hexs. split; [done|].
  cbn [iife_end arr_fn_name target alias k_expr_js].
  split; [done|]. split; [by subst iife|]. split; [done|].
  split; [by rewrite Hg1|]. split; [done|]. split; [done|]. split; [done|].
  split.
  { destruct (search_or (alias_re 44) (alias_re 59) iife)
      as [[[ja ma] ca]|] eqn:Ha; [|by left].
    right. apply search_or_sound in Ha as (pa & ra & Hiife' & Hma).
    assert (Hshape : is_identifier (Re.group 1 ca) = true
                     ∧ occurs (Re.group 1 ca) ma).
    { destruct Hma as [Hma | Hma]; by eapply alias_re_shape. }
    destruct Hshape as [Hid (a1 & a2 & ->)]. split; [done|].
    exists (pa ++ a1), (a2 ++ ra). rewrite Hiife'. by lassoc. }
  apply search_or_sound in Hk as (pk & rk & Hiife' & Hmk).
  assert (Hshape : Re.group 1 ck ≠ [] ∧ (59 ∉ Re.group 1 ck)
            ∧ ∃ head semi,
                mk = head ++ [61] ++ Re.group 1 ck ++ semi ++ Py.lit "if(K===O)").
  { destruct Hmk as [Hmk | Hmk];
      apply k_re_shape in Hmk as (? & ? & head & semi & ? & _);
      eauto 10. }
  destruct Hshape as (Hkne & Hk59 & head & semi & ->).
  split; [done|]. split; [done|].
  exists (pk ++ head), (semi ++ Py.lit "if(K===O)" ++ rk).
  rewrite Hiife'. by lassoc.
Qed.

(** X9: the bootstrap recogniser fails with BootstrapNotFound exactly
    when the marker of the IIFE occurs nowhere in the text; its other
    failures are the three RuntimeErrors of the invocation and of the
    K expression and the ValueError of an unbalanced region: it never
    fails on an index, on the open character of a region or on the
    conversion of the target. *)
Theorem extract_bootstrap_errors (js : Py.str) :
  (_extract_bootstrap js = Raise (RuntimeError BootstrapNotFound)
   ↔ ¬ occurs bootstrap_marker js)
  ∧ ∀ e, _extract_bootstrap js = Raise e →
         e = RuntimeError BootstrapNotFound
         ∨ e = RuntimeError InvocationNotFound
         ∨ e = RuntimeError MalformedInvocation
         ∨ e = RuntimeError KExpressionNotFound
         ∨ e = ValueError UnbalancedBrackets.
Proof.
  destruct (extract_bootstrap_cases js)
    as [[Hno ->] | (pre & post & Hjs & _ & Hcases)].
  - split; [done|]. intros e [= <-]. by left.
  - assert (Hocc : occurs bootstrap_marker js) by by exists pre, post.
    destruct Hcases as [(e & -> & He) | (b & ? & ? & ? & -> & _)].
    + split.
      * split; [|done]. intros [= ->]. by destruct He as [? | [? | [? | ?]]].
      * intros e' [= <-]. by right.
    + by split.
Qed.

(** X10: what the bootstrap recogniser returns: the region it scanned
    is a balanced parenthesis group of the text that starts at the first
    occurrence of the marker, and [iife_end] is the offset just after
    it; the provider name is an identifier; the target is the number of
    a hexadecimal literal, so it is not negative; the alias is the name
    Q or an identifier of the region; the K expression is a text of the
    region that follows an equals sign, is not empty and holds no
    semicolon. *)
Theorem extract_bootstrap_result (js : Py.str) (b : bootstrap) :
  _extract_bootstrap js = Ok b →
  ∃ pre iife_expr tail,
    js = pre ++ iife_expr ++ tail
    ∧ Py.find js bootstrap_marker 0 = Py.len pre
    ∧ Balanced 40 41 iife_expr
    ∧ iife_end b = Py.len pre + Py.len iife_expr
    ∧ is_identifier (arr_fn_name b) = true
    ∧ 0 ≤ target b
    ∧ (alias b = canonical
       ∨ is_identifier (alias b) = true ∧ occurs (alias b) iife_expr)
    ∧ k_expr_js b ≠ [] ∧ (59 ∉ k_expr_js b)
    ∧ occurs ([61] ++ k_expr_js b) iife_expr.
Proof.
  intros Hb.
  destruct (extract_bootstrap_cases js)
    as [[_ Hraise] | (pre & post & _ & Hfind & Hcases)]; [congruence|].
  destruct Hcases as [(e & Hraise & _) | Hok]; [congruence|].
  destruct Hok as (b' & iife_expr & tail & hexs & Hb' & Hjs & Hbal & Hend
                   & Hname & Hne & Hhex & Htarget & Halias & Hk).
  assert (b' = b) as -> by congruence.
  exists pre, iife_expr, tail. repeat (split; [done|]).
  split; [|done]. rewrite Htarget. by apply hex_value_nonneg.
Qed.
End BootstrapProofs.

(** ** The recognisers of a function and of the decoder offset *)

Lemma later_occurrence {A} (pre pre' rest rest' : list A) :
  pre ++ rest = pre' ++ rest' → Py.len pre ≤ Py.len pre' →
  ∃ between, rest = between ++ rest'.
Proof.
  unfold Py.len. intros [(k & -> & ->) | (k & -> & ->)]%app_eq_inv Hlen.
  - rewrite length_app in Hlen. destruct k; [by exists []|simpl in Hlen; lia].
  - by exists k.
Qed.

(** The opening brace that [find] returns after a header. *)
Lemma find_brace_after (pre rest : Py.str) :
  (Py.find (pre ++ rest) [123] (Py.len pre) = -1 ∧ (123 ∉ rest))
  ∨ ∃ head post,
      rest = head ++ 123 :: post ∧ (123 ∉ head)
      ∧ Py.find (pre ++ rest) [123] (Py.len pre) = Py.len (pre ++ head).
Proof.
  pose proof (len_nonneg pre). pose proof (len_nonneg rest).
  destruct (find_spec (pre ++ rest) [123] (Py.len pre))
    as [[Hr Hno] | (head & post & Heq & Hr & Hfirst)].
  { rewrite len_app. lia. }
  - left. split; [done|]. intros (a & b & ->)%list_elem_of_split.
    apply Hno. unfold Py.len. rewrite Nat2Z.id, drop_app_length.
    by exists a, b.
  - right. unfold Py.len in Heq, Hfirst.
    rewrite Nat2Z.id, drop_app_length in Heq, Hfirst.
    exists head, post. split; [done|]. split; [|by rewrite len_app].
    intros (a & b & ->)%list_elem_of_split.
    specialize (Hfirst a (b ++ [123] ++ post)).
    rewrite length_app in Hfirst. simpl in Hfirst.
    assert (Z.of_nat (length a + S (length b)) ≤ Z.of_nat (length a)); [|lia].
    apply Hfirst. rewrite Heq. by rewrite <- app_assoc.
Qed.

Section FunctionProofs.
Context `{PyRuntime}.

(** The ways through [_extract_function]. *)
Lemma extract_function_cases (js fn_name : Py.str) :
  ((¬ ∃ pre post, js = pre ++ function_header fn_name ++ post
                  ∧ 123 ∈ function_header fn_name ++ post)
   ∧ _extract_function js fn_name = Raise (RuntimeError FunctionNotFound))
  ∨ ∃ pre head region tail,
      js = pre ++ head ++ 123 :: region ++ tail
      ∧ Py.find js (function_header fn_name) 0 = Py.len pre
      ∧ (123 ∉ head)
      ∧ (∃ post, head ++ 123 :: region ++ tail = function_header fn_name ++ post)
      ∧ (_extract_function js fn_name = Raise (ValueError UnbalancedBrackets)
         ∨ ∃ body rest,
             region ++ tail = body ++ rest
             ∧ Balanced 123 125 (123 :: body)
             ∧ _extract_function js fn_name = Ok (head ++ 123 :: body)).
Proof.
  destruct (find_first js (function_header fn_name))
    as [[Hfind Hno] | (pre & post & -> & Hfind & Hfirst)].
  { left. split.
    - intros (pre & post & Hjs & _). apply Hno. by exists pre, post.
    - unfold _extract_function. fold (function_header fn_name).
      by rewrite Hfind. }
  pose proof (len_nonneg pre).
  assert (Hfun : _extract_function (pre ++ function_header fn_name ++ post) fn_name
            = let js := pre ++ function_header fn_name ++ post in
              let brace := Py.find js [123] (Py.len pre) in
              if brace =? -1 then Raise (RuntimeError FunctionNotFound)
              else '(body, _) ← _extract_balanced js brace 123 125;
                   Ok (Py.slice js (Py.len pre) brace ++ body)).
  { unfold _extract_function. fold (function_header fn_name).
    rewrite Hfind. by rewrite (proj2 (Z.eqb_neq (Py.len pre) (-1))) by lia. }
  rewrite Hfun. clear Hfun. cbv zeta.
  destruct (find_brace_after pre (function_header fn_name ++ post))
    as [[-> Hno] | (head & post2 & Hrest & Hhead & ->)].
  { left. split; [|done]. intros (pre' & post' & Hjs' & Hin).
    destruct (later_occurrence pre pre' (function_header fn_name ++ post)
                (function_header fn_name ++ post')) as [between Hbetween];
      [done | by apply (Hfirst pre' post')|].
    apply Hno. rewrite Hbetween. apply elem_of_app. by right. }
  right.
  pose proof (len_nonneg (pre ++ head)).
  rewrite (proj2 (Z.eqb_neq (Py.len (pre ++ head)) (-1))) by lia.
  rewrite Hrest in *.
  replace (pre ++ head ++ 123 :: post2) with ((pre ++ head) ++ 123 :: post2)
    by by rewrite <- app_assoc.
  assert (Hslice : Py.slice ((pre ++ head) ++ 123 :: post2) (Py.len pre)
                     (Py.len (pre ++ head)) = head).
  { rewrite len_app. apply (slice_of_drop _ head (123 :: post2)); [done|].
    unfold Py.len. by rewrite Nat2Z.id, <- app_assoc, drop_app_length. }
  rewrite Hslice.
  destruct (extract_balanced_at_open (pre ++ head) post2 123 125)
    as [(body & rest & -> & Hbal & ->) | ->].
  - exists pre, head, body, rest. split; [by rewrite <- app_assoc|].
    split; [by rewrite <- app_assoc|]. split; [done|].
    split; [by exists post|].
    right. by exists body, rest.
  - exists pre, head, post2, []. rewrite app_nil_r.
    split; [by rewrite <- app_assoc|].
    split; [by rewrite <- app_assoc|]. split; [done|].
    split; [by exists post|]. by left.
Qed.

(** X11: what [_extract_function] returns is a piece of the text, as it
    stands: it starts at the first occurrence of the header
    [function name(], runs without an opening brace up to the first one,
    and ends with the balanced brace group that starts there; it
    starts with the header when the name holds no brace. *)
Theorem extract_function_result (js fn_name src : Py.str) :
  _extract_function js fn_name = Ok src →
  ∃ pre head body tail,
    js = pre ++ src ++ tail ∧ src = head ++ body
    ∧ Py.find js (function_header fn_name) 0 = Py.len pre
    ∧ (123 ∉ head) ∧ Balanced 123 125 body
    ∧ (123 ∉ fn_name → function_header fn_name `prefix_of` src).
Proof.
  intros Hsrc.
  destruct (extract_function_cases js fn_name)
    as [[_ Hraise] | (pre & head & region & tail & Hjs & Hfind & Hhead
                      & [post Hpost] & Hcases)]; [congruence|].
  destruct Hcases as [Hraise | (body & rest & Hsplit & Hbal & Hok)];
    [congruence|].
  assert (src = head ++ 123 :: body) as -> by congruence.
  exists pre, head, (123 :: body), rest.
  split; [rewrite Hjs; lassoc; by rewrite Hsplit|].
  split; [done|]. split; [done|]. split; [done|]. split; [done|].
  intros Hname.
  assert (Hheader : 123 ∉ function_header fn_name).
  { unfold function_header. rewrite !elem_of_app.
    intros [Hin | [Hin | Hin]]; [|done|].
    - by repeat (apply elem_of_cons in Hin as [Hin | Hin]; [done|]);
        apply elem_of_nil in Hin.
    - by apply list_elem_of_singleton in Hin. }
  symmetry in Hpost.
  apply app_eq_inv in Hpost as [(k & Hk & Hk') | (k & Hk & _)].
  - destruct k as [|x k].
    + rewrite app_nil_r in Hk. rewrite Hk. by exists (123 :: body).
    + injection Hk' as <- _. destruct Hheader. rewrite Hk.
      apply elem_of_app. right. by left.
  - exists (k ++ 123 :: body). by rewrite Hk, <- app_assoc.
Qed.

(** X12: [_extract_function] fails with RuntimeError exactly when the
    text holds no header [function name(] that an opening brace
    follows; the only other failure is the ValueError of an unbalanced
    brace group. *)
Theorem extract_function_errors (js fn_name : Py.str) :
  (_extract_function js fn_name = Raise (RuntimeError FunctionNotFound)
   ↔ ¬ ∃ pre post, js = pre ++ function_header fn_name ++ post
                   ∧ 123 ∈ function_header fn_name ++ post)
  ∧ ∀ e, _extract_function js fn_name = Raise e →
         e = RuntimeError FunctionNotFound ∨ e = ValueError UnbalancedBrackets.
Proof.
  destruct (extract_function_cases js fn_name)
    as [[Hno ->] | (pre & head & region & tail & Hjs & Hfind & Hhead
                    & [post Hpost] & Hcases)].
  - split; [done|]. intros e [= <-]. by left.
  - assert (Hyes : ∃ pre post, js = pre ++ function_header fn_name ++ post
                     ∧ 123 ∈ function_header fn_name ++ post).
    { exists pre, post. rewrite <- Hpost. split; [done|].
      apply elem_of_app. right. by left. }
    destruct Hcases as [-> | (body & rest & _ & _ & ->)].
    + split; [|intros e [= <-]; by right]. by split.
    + by split.
Qed.
End FunctionProofs.

Section OffsetProofs.
Context `{PyRuntime}.

(** The scanner called on the offset -1 that [find] returns when no
    brace follows. *)
Lemma extract_balanced_minus_one (pre rest : Py.str) (o c : Z) :
  rest ≠ [] → o ∉ rest →
  _extract_balanced (pre ++ rest) (-1) o c = Raise (ValueError ExpectedOpen).
Proof.
  intros Hne Hno. destruct rest as [|y rest _] using rev_ind; [done|].
  unfold _extract_balanced. rewrite app_assoc, index_last.
  cbn [mbind res_bind].
  rewrite (proj2 (Z.eqb_neq y o)); [done|].
  intros ->. apply Hno, elem_of_app. right. by left.
Qed.

(** The ways through [_extract_q_offset]. *)
Lemma extract_q_offset_cases (js : Py.str) :
  (¬ occurs decoder_header js
   ∧ _extract_q_offset js = Raise (RuntimeError DecoderNotFound))
  ∨ ∃ pre post,
      js = pre ++ decoder_header ++ post
      ∧ Py.find js decoder_header 0 = Py.len pre
      ∧ (_extract_q_offset js = Raise (RuntimeError ParameterListNotParsed)
         ∨ ((123 ∉ post)
            ∧ _extract_q_offset js = Raise (ValueError ExpectedOpen))
         ∨ (123 ∈ post
            ∧ (_extract_q_offset js = Raise (ValueError UnbalancedBrackets)
               ∨ _extract_q_offset js = Raise (RuntimeError OffsetNotFound)
               ∨ ∃ ws hexs,
                   forallb Py.isspace ws = true
                   ∧ hexs ≠ [] ∧ forallb Re.hex hexs = true
                   ∧ occurs ([45] ++ ws ++ Py.lit "0x" ++ hexs) post
                   ∧ _extract_q_offset js = Ok (hex_value hexs)))).
Proof.
  destruct (find_first js decoder_header)
    as [[Hfind Hno] | (pre & post & -> & Hfind & Hfirst)].
  { left. split; [done|]. unfold _extract_q_offset. fold decoder_header.
    by rewrite Hfind. }
  right. exists pre, post. split; [done|]. split; [done|].
  pose proof (len_nonneg pre).
  assert (Hfun : _extract_q_offset (pre ++ decoder_header ++ post)
            = let js := pre ++ decoder_header ++ post in
              match Re.search q_head_re
                      (Py.slice js (Py.len pre) (Py.len pre + 200)) with
              | None => Raise (RuntimeError ParameterListNotParsed)
              | Some (_, _, m_head) =>
                let arg0 := Re.group 1 m_head in
                let brace := Py.find js [123] (Py.len pre) in
                '(fn_body, _) ← _extract_balanced js brace 123 125;
                match Re.search (normalisation_re arg0) fn_body with
                | Some (_, _, m) => Py.int (Re.group 1 m) 16
                | None =>
                  match Re.search minus_hex_re fn_body with
                  | Some (_, _, m2) => Py.int (Re.group 1 m2) 16
                  | None => Raise (RuntimeError OffsetNotFound)
                  end
                end
              end).
  { unfold _extract_q_offset. fold decoder_header.
    rewrite Hfind. by rewrite (proj2 (Z.eqb_neq (Py.len pre) (-1))) by lia. }
  rewrite Hfun. clear Hfun. cbv zeta.
  destruct (Re.search q_head_re _) as [[[jh mh] m_head]|]; [|by left].
  right.
  assert (Hbrace : 123 ∈ decoder_header ++ post ↔ 123 ∈ post).
  { rewrite elem_of_app. split; [|auto]. intros [Hin | Hin]; [|done].
    by repeat (apply elem_of_cons in Hin as [Hin | Hin]; [done|]);
      apply elem_of_nil in Hin. }
  destruct (find_brace_after pre (decoder_header ++ post))
    as [[-> Hno] | (head & post2 & Hrest & Hhead & ->)].
  { left. split; [by rewrite <- Hbrace|].
    by rewrite extract_balanced_minus_one. }
  right. split; [rewrite <- Hbrace, Hrest, elem_of_app; right; by left|].
  replace (pre ++ decoder_header ++ post) with ((pre ++ head) ++ 123 :: post2)
    by by rewrite <- app_assoc, Hrest.
  assert (Hpost : ∃ head', post = head' ++ 123 :: post2).
  { symmetry in Hrest.
    apply app_eq_inv in Hrest as [(k & Hk & Hk') | (k & Hk & Hk')].
    - by exists k.
    - destruct k as [|x k]; [by exists []|].
      injection Hk' as <- _. exfalso.
      assert (Hin : 123 ∈ decoder_header).
      { rewrite Hk. apply elem_of_app. right. by left. }
      by repeat (apply elem_of_cons in Hin as [Hin | Hin]; [done|]);
        apply elem_of_nil in Hin. }
  destruct Hpost as [head' Hpost].
  destruct (extract_balanced_at_open (pre ++ head) post2 123 125)
    as [(body & rest & -> & Hbal & ->) | ->]; [|by left].
  cbn [mbind res_bind].
  assert (Hconv : ∀ r j m c,
            Re.search r (123 :: body) = Some (j, m, c) →
            (∃ head ws hexs,
               m = head ++ [45] ++ ws ++ Py.lit "0x" ++ hexs
               ∧ forallb Py.isspace ws = true
               ∧ hexs ≠ [] ∧ forallb Re.hex hexs = true
               ∧ Re.group 1 c = Py.lit "0x" ++ hexs) →
            ∃ ws hexs,
              forallb Py.isspace ws = true
              ∧ hexs ≠ [] ∧ forallb Re.hex hexs = true
              ∧ occurs ([45] ++ ws ++ Py.lit "0x" ++ hexs) post
              ∧ Py.int (Re.group 1 c) 16 = Ok (hex_value hexs)).
  { intros r j m c (pa & ra & Hbody & _ & _)%search_sound
      (hd & ws & hexs & -> & Hws & Hne & Hhex & ->).
    exists ws, hexs. split; [done|]. split; [done|]. split; [done|].
    split; [|by apply int_hex_literal_value].
    exists (head' ++ pa ++ hd), (ra ++ rest).
    rewrite Hpost.
    change (123 :: body ++ rest) with ((123 :: body) ++ rest).
    rewrite Hbody. by lassoc. }
  destruct (Re.search (normalisation_re (Re.group 1 m_head)) (123 :: body))
    as [[[j1 m1] c1]|] eqn:Hs1.
  { destruct (Hconv _ _ _ _ Hs1) as (ws & hexs & ? & ? & ? & ? & ->).
    - apply search_sound in Hs1 as (? & ? & _ & _ & Hm).
      by eapply normalisation_re_shape.
    - do 2 right. by exists ws, hexs. }
  destruct (Re.search minus_hex_re (123 :: body))
    as [[[j2 m2] c2]|] eqn:Hs2; [|right; by left].
  destruct (Hconv _ _ _ _ Hs2) as (ws & hexs & ? & ? & ? & ? & ->).
  - apply search_sound in Hs2 as (? & ? & _ & _ & Hm).
    by eapply minus_hex_re_shape.
  - do 2 right. by exists ws, hexs.
Qed.

(** X13: the offset recogniser fails with DecoderNotFound exactly when
    the header [function Q(] occurs nowhere in the text; beside the
    RuntimeErrors of the parameter list and of the offset, it lets the
    two ValueErrors of the scanner through. *)
Theorem extract_q_offset_errors (js : Py.str) :
  (_extract_q_offset js = Raise (RuntimeError DecoderNotFound)
   ↔ ¬ occurs decoder_header js)
  ∧ ∀ e, _extract_q_offset js = Raise e →
         e = RuntimeError DecoderNotFound
         ∨ e = RuntimeError ParameterListNotParsed
         ∨ e = RuntimeError OffsetNotFound
         ∨ e = ValueError ExpectedOpen
         ∨ e = ValueError UnbalancedBrackets.
Proof.
  destruct (extract_q_offset_cases js)
    as [[Hno ->] | (pre & post & Hjs & _ & Hcases)].
  - split; [done|]. intros e [= <-]. by left.
  - assert (Hocc : occurs decoder_header js) by by exists pre, post.
    destruct Hcases
      as [-> | [[_ ->] | [_ [-> | [-> | (ws & hexs & _ & _ & _ & _ & ->)]]]]].
    all: split; [by split|]; intros e [= <-]; auto 10.
Qed.

(** X14: when no opening brace follows the first header [function Q(],
    the offset -1 that [find] returns goes to the scanner as it is: the
    recogniser fails with ParameterListNotParsed or with the scanner's
    ValueError for a missing open character, never with a RuntimeError
    for the missing brace. *)
Theorem extract_q_offset_without_brace (js pre post : Py.str) :
  js = pre ++ decoder_header ++ post →
  Py.find js decoder_header 0 = Py.len pre →
  123 ∉ post →
  _extract_q_offset js = Raise (RuntimeError ParameterListNotParsed)
  ∨ _extract_q_offset js = Raise (ValueError ExpectedOpen).
Proof.
  intros Hjs Hfind Hno.
  destruct (extract_q_offset_cases js)
    as [[Hnone _] | (pre' & post' & Hjs' & Hfind' & Hcases)].
  { destruct Hnone. by exists pre, post. }
  assert (pre' = pre ∧ post' = post) as [-> ->].
  { rewrite Hjs' in Hjs. apply app_inj_1 in Hjs as [-> Hjs].
    - by apply app_inv_head in Hjs.
    - unfold Py.len in *. lia. }
  destruct Hcases as [-> | [[_ ->] | [Hin _]]]; auto. done.
Qed.

(** X15: the offset the recogniser returns is the number of a
    hexadecimal literal that follows a minus sign in the text after the
    header [function Q(]; it is never negative. *)
Theorem extract_q_offset_result (js : Py.str) (n : Z) :
  _extract_q_offset js = Ok n →
  0 ≤ n
  ∧ ∃ pre between ws hexs rest,
      js = pre ++ decoder_header ++ between ++ [45] ++ ws
               ++ Py.lit "0x" ++ hexs ++ rest
      ∧ forallb Py.isspace ws = true
      ∧ n = hex_value hexs ∧ hexs ≠ [] ∧ forallb Re.hex hexs = true.
Proof.
  intros Hn.
  destruct (extract_q_offset_cases js)
    as [[_ Hraise] | (pre & post & Hjs & _ & Hcases)]; [congruence|].
  destruct Hcases
    as [Hr | [[_ Hr] | [_ [Hr | [Hr | (ws & hexs & Hws & Hne & Hhex & Hocc & Hok)]]]]];
    try congruence.
  assert (n = hex_value hexs) as -> by congruence.
  split; [by apply hex_value_nonneg|].
  destruct Hocc as (a & b & ->).
  exists pre, a, ws, hexs, b. split; [|done].
  rewrite Hjs. by rewrite <- !app_assoc.
Qed.
End OffsetProofs.

(** ** The element loop of the string array *)

Section ArrayProofs.
Context `{PyRuntime}.

Lemma emit_loops r k : emit_element r k = Loops → k = Loops.
Proof. destruct r, k as [[]|]; done. Qed.

Lemma parse_elements_between c inner final :
  parse_elements (c :: inner) final Between
  = if is_separator c then parse_elements inner final Between
    else if is_quote c then parse_elements inner final (InString c false [c])
    else if ends_token c then Loops
    else parse_elements inner final (InToken [c]).
Proof. done. Qed.

Lemma parse_elements_string c inner final q esc acc :
  parse_elements (c :: inner) final (InString q esc acc)
  = if esc then parse_elements inner final (InString q false (acc ++ [c]))
    else if c =? backslash then
      parse_elements inner final (InString q true (acc ++ [c]))
    else if c =? q then
      emit_element (_decode_js_string_literal (acc ++ [c]))
           (parse_elements inner final Between)
    else parse_elements inner final (InString q false (acc ++ [c])).
Proof. done. Qed.

Lemma parse_elements_token c inner final acc :
  parse_elements (c :: inner) final (InToken acc)
  = if ends_token c then
      emit_element (Ok (Py.strip acc))
           (if c =? 44 then parse_elements inner final Between else Loops)
    else parse_elements inner final (InToken (acc ++ [c])).
Proof. done. Qed.

Lemma parse_elements_end final mode :
  parse_elements [] final mode
  = match mode with
    | Between => Ends (Ok [])
    | InString q esc acc =>
      emit_element (_decode_js_string_literal (acc ++ final)) (Ends (Ok []))
    | InToken acc => emit_element (Ok (Py.strip acc)) (Ends (Ok []))
    end.
Proof. by destruct mode. Qed.

(** X16: the element loop ends on every array literal that holds no
    closing bracket between its two brackets, whatever the state it is
    in. *)
Theorem parse_elements_terminates (inner final : Py.str) (mode : element_mode) :
  93 ∉ inner → parse_elements inner final mode ≠ Loops.
Proof.
  revert mode. induction inner as [|c inner IH]; intros mode Hno.
  - rewrite parse_elements_end. destruct mode; [done|..]; by intros ?%emit_loops.
  - apply not_elem_of_cons in Hno as [Hc Hno].
    destruct mode as [|q esc acc|acc].
    + rewrite parse_elements_between.
      destruct (is_separator c) eqn:Hsep; [by apply IH|].
      destruct (is_quote c); [by apply IH|].
      destruct (ends_token c) eqn:Hend; [|by apply IH].
      unfold ends_token, is_separator in *. lia.
    + rewrite parse_elements_string.
      destruct esc; [by apply IH|].
      destruct (c =? backslash); [by apply IH|].
      destruct (c =? q); [|by apply IH].
      intros Hl%emit_loops. by eapply IH.
    + rewrite parse_elements_token.
      destruct (ends_token c) eqn:Hend; [|by apply IH].
      intros Hl%emit_loops. destruct (Z.eqb_spec c 44); [by eapply IH|].
      unfold ends_token in Hend. lia.
Qed.

(** X17: a closing bracket that the loop meets outside a string literal
    stops it for ever: it appends an empty element and reads the bracket
    again.  So the loop ends on no array that holds a bracket pair
    before its first quote character. *)
Theorem parse_elements_loops_on_bracket (pre post final : Py.str) :
  Forall (λ c, is_quote c = false ∧ c ≠ 93) pre →
  parse_elements (pre ++ 93 :: post) final Between = Loops.
Proof.
  intros Hpre.
  enough (Hgen : ∀ mode, (∀ q esc acc, mode ≠ InString q esc acc) →
            parse_elements (pre ++ 93 :: post) final mode = Loops)
    by by apply Hgen.
  induction Hpre as [|c pre [Hq Hc] _ IH]; intros mode Hmode.
  - destruct mode as [|q esc acc|acc]; [done | by destruct (Hmode q esc acc) | done].
  - destruct mode as [|q esc acc|acc]; [|by destruct (Hmode q esc acc)|].
    + cbn [app]. rewrite parse_elements_between, Hq.
      destruct (is_separator c) eqn:Hsep; [by apply IH|].
      destruct (ends_token c) eqn:Hend; [done|by apply IH].
    + cbn [app]. rewrite parse_elements_token.
      destruct (ends_token c) eqn:Hend; [|by apply IH].
      destruct (Z.eqb_spec c 44); [|done].
      by rewrite IH.
Qed.

(** The loop reads a string literal up to its closing quote and hands
    it to the decoder. *)
Lemma parse_elements_string_body q body :
  StrBody q body → q ≠ backslash → ∀ acc rest final,
  parse_elements (body ++ q :: rest) final (InString q false acc)
  = emit_element (_decode_js_string_literal (acc ++ body ++ [q]))
                 (parse_elements rest final Between).
Proof.
  intros Hbody Hq. induction Hbody as [|c l _ IH|c l Hcq Hcb _ IH];
    intros acc rest final.
  - cbn [app]. rewrite parse_elements_string.
    by rewrite (proj2 (Z.eqb_neq q backslash)), Z.eqb_refl.
  - cbn [app]. rewrite parse_elements_string, Z.eqb_refl.
    rewrite parse_elements_string, IH. by rewrite <- !app_assoc.
  - cbn [app]. rewrite parse_elements_string.
    rewrite (proj2 (Z.eqb_neq c backslash)), (proj2 (Z.eqb_neq c q)) by done.
    rewrite IH. by rewrite <- !app_assoc.
Qed.

Lemma parse_elements_literal literal rest final :
  QuotedLiteral literal →
  parse_elements (literal ++ rest) final Between
  = emit_element (_decode_js_string_literal literal)
                 (parse_elements rest final Between).
Proof.
  intros (q & body & Hq & Hbody & ->).
  cbn [app]. rewrite parse_elements_between, Hq.
  replace (is_separator q) with false
    by by apply is_quote_cases in Hq as [-> | ->].
  rewrite <- app_assoc. cbn [app].
  rewrite parse_elements_string_body; [done..|].
  by apply quote_not_backslash.
Qed.

Lemma emit_decode_all l ls :
  emit_element (_decode_js_string_literal l) (Ends (decode_all ls))
  = Ends (decode_all (l :: ls)).
Proof.
  cbn [decode_all]. destruct (_decode_js_string_literal l); [|done].
  by destruct (decode_all ls).
Qed.

(** On string literals separated by commas the loop decodes each
    literal in turn. *)
Lemma parse_elements_literals (literals : list Py.str) (final : Py.str) :
  Forall QuotedLiteral literals →
  parse_elements (comma_separated literals) final Between
  = Ends (decode_all literals).
Proof.
  induction 1 as [|l ls Hl Hls IH]; [done|].
  rewrite <- emit_decode_all, <- IH.
  destruct ls as [|l' ls].
  - cbn [comma_separated]. rewrite <- (app_nil_r l) at 1.
    by rewrite parse_elements_literal.
  - change (comma_separated (l :: l' :: ls))
      with (l ++ 44 :: comma_separated (l' :: ls)).
    rewrite parse_elements_literal by done.
    by rewrite (parse_elements_between 44).
Qed.

(** X18: on string literals separated by commas the element loop is
    the decoder applied to each literal in turn: it returns the decoded
    strings in order, or the first failure of the decoder. *)
Theorem parse_elements_decodes_literals (literals : list Py.str) (final : Py.str) :
  Forall QuotedLiteral literals →
  parse_elements (comma_separated literals) final Between
  = Ends (decode_all literals)
  ∧ (∀ table, decode_all literals = Ok table → length table = length literals).
Proof.
  intros Hlits. split; [by apply parse_elements_literals|].
  clear Hlits. induction literals as [|l ls IH]; intros table.
  - by intros [= <-].
  - cbn [decode_all]. destruct (_decode_js_string_literal l); [|done].
    destruct (decode_all ls) as [xs|]; [|done].
    intros [= <-]. simpl. f_equal. by apply IH.
Qed.

Lemma StrBody_app q a b : StrBody q a → StrBody q b → StrBody q (a ++ b).
Proof. induction 1; intros Hb; simpl; [done|..]; constructor; auto. Qed.

Lemma hex_digit_plain n :
  0 ≤ n < 16 → hex_digit n ≠ dquote ∧ hex_digit n ≠ backslash.
Proof. unfold hex_digit, dquote, backslash. intros. destruct (Z.ltb_spec n 10); lia. Qed.

Lemma json_escape_body (c : Z) : 0 ≤ c → StrBody dquote (json_escape c).
Proof.
  intros Hc. unfold json_escape.
  destruct (Z.eqb_spec c dquote); [repeat constructor|].
  destruct (Z.eqb_spec c backslash); [repeat constructor|].
  repeat (case_match; [by repeat constructor|]).
  destruct (Z.leb_spec c 31) as [Hlow | Hhigh].
  - pose proof (Z.mod_pos_bound c 16 ltac:(lia)).
    assert (0 ≤ c / 16 < 16)
      by (split; [apply Z.div_pos | apply Z.div_lt_upper_bound]; lia).
    pose proof (hex_digit_plain (c / 16) ltac:(done)) as [].
    pose proof (hex_digit_plain (c mod 16) ltac:(done)) as [].
    constructor. by repeat constructor.
  - by repeat constructor.
Qed.

Lemma json_dumps_quoted (s : Py.str) :
  code_points s → QuotedLiteral (json_dumps s).
Proof.
  intros Hs. exists dquote, (concat (json_escape <$> s)).
  split; [done|]. split; [|done].
  induction Hs as [|c s Hc _ IH]; [constructor|].
  rewrite fmap_cons. simpl concat.
  apply StrBody_app; [apply json_escape_body; lia | done].
Qed.

Lemma decode_json_dumps (s : Py.str) :
  code_points s → _decode_js_string_literal (json_dumps s) = Ok s.
Proof.
  intros Hs.
  destruct (decode_literal_cases (json_dumps s))
    as [(q & body & _ & Heq & ->) | [Hno _]].
  - unfold json_dumps in Heq. injection Heq as <- Heq.
    apply app_inj_tail in Heq as [<- _]. by apply decode_body_escaped.
  - destruct Hno. by exists dquote, (concat (json_escape <$> s)).
Qed.

(** X19: a table written as the literals of the encoder, a comma
    between two of them, is read back by the element loop as the
    table. *)
Theorem parse_elements_round_trip (table : list Py.str) (final : Py.str) :
  Forall code_points table →
  parse_elements (comma_separated (json_dumps <$> table)) final Between
  = Ends (Ok table).
Proof.
  intros Htable. rewrite parse_elements_literals.
  - f_equal. induction Htable as [|s table Hs _ IH]; [done|].
    rewrite fmap_cons. cbn [decode_all].
    by rewrite decode_json_dumps, IH.
  - apply Forall_fmap. eapply Forall_impl; [done|].
    intros s Hs. by apply json_dumps_quoted.
Qed.

Lemma emit_raises r k e :
  emit_element r k = Ends (Raise e) → r = Raise e ∨ k = Ends (Raise e).
Proof. destruct r, k as [[]|]; intros [= <-]; auto. Qed.

(** The element loop fails only where the decoder does. *)
Lemma parse_elements_raises (inner final : Py.str) e : ∀ mode,
  parse_elements inner final mode = Ends (Raise e) →
  e = ValueError NotAStringLiteral
  ∨ e = ValueError InvalidIntLiteral
  ∨ e = ValueError ChrOutOfRange
  ∨ e = OverflowError.
Proof.
  induction inner as [|c inner IH]; intros mode.
  - rewrite parse_elements_end. destruct mode as [|q esc acc|acc]; [done|..].
    + intros [Hr | Hk]%emit_raises; [by eapply decode_literal_raises | done].
    + by intros [Hr | Hk]%emit_raises.
  - destruct mode as [|q esc acc|acc].
    + rewrite parse_elements_between.
      repeat case_match; (done || apply IH).
    + rewrite parse_elements_string.
      destruct esc; [apply IH|].
      destruct (c =? backslash); [apply IH|].
      destruct (c =? q); [|apply IH].
      intros [Hr | Hk]%emit_raises; [by eapply decode_literal_raises|].
      by eapply IH.
    + rewrite parse_elements_token.
      destruct (ends_token c); [|apply IH].
      intros [Hr | Hk]%emit_raises; [done|].
      destruct (c =? 44); [by eapply IH | done].
Qed.

(** X20: the array recogniser never fails on an index nor on the open
    character of a group: the offset it scans from is that of the
    bracket its pattern matched; and its RuntimeErrors are those of the
    missing function and of the missing array declaration. *)
Theorem extract_string_array_errors (js arr_fn_name : Py.str) :
  match _extract_string_array js arr_fn_name with
  | Ends (Raise e) =>
    e ≠ IndexError ∧ e ≠ ValueError ExpectedOpen
    ∧ ∀ why, e = RuntimeError why →
             why = FunctionNotFound ∨ why = ArrayLiteralNotFound
  | _ => True
  end.
Proof.
  unfold _extract_string_array.
  destruct (_extract_function js arr_fn_name) as [fn_src|e] eqn:Hfn.
  2:{ destruct (extract_function_cases js arr_fn_name)
        as [[_ Hr] | (? & ? & ? & ? & _ & _ & _ & _ & [Hr | (? & ? & _ & _ & Hr)])];
        rewrite Hr in Hfn; try done; injection Hfn as <-;
        (repeat split; [done..|]); intros why [= <-]; auto. }
  destruct (Re.search array_decl_re fn_src) as [[[m_start m_text] c]|] eqn:Hs.
  2:{ repeat split; [done..|]. intros why [= <-]. auto. }
  apply search_sound in Hs as (pa & ra & -> & -> & Hm).
  apply array_decl_re_shape in Hm as [head ->].
  replace (Py.len pa + Py.len (head ++ [91]) - 1) with (Py.len (pa ++ head))
    by (rewrite !len_app; change (Py.len [91]) with 1; lia).
  replace (pa ++ (head ++ [91]) ++ ra) with ((pa ++ head) ++ 91 :: ra)
    by by rewrite <- !app_assoc.
  destruct (extract_balanced_at_open (pa ++ head) ra 91 93)
    as [(body & rest & -> & Hbal & ->) | ->]; [|by repeat split].
  destruct (parse_elements _ _ _) as [[table|e]|] eqn:Hparse; [done| |done].
  apply parse_elements_raises in Hparse.
  destruct Hparse as [-> | [-> | [-> | ->]]]; by repeat split.
Qed.
End ArrayProofs.

(** ** The scanner inside a larger text *)

(** X21: the scanner reads nothing before [start] and nothing after
    the close character it stops on: the region it returns from a text
    is the region it returns when the text stands inside a longer one,
    at the offsets moved by the length of what was put before. *)
Theorem extract_balanced_in_context
    (pre js post : Py.str) (start o c : Z) (region : Py.str) (e : Z) :
  0 ≤ start →
  _extract_balanced js start o c = Ok (region, e) →
  _extract_balanced (pre ++ js ++ post) (Py.len pre + start) o c
  = Ok (region, Py.len pre + e).
Proof.
  intros Hstart Hscan.
  assert (Hidx : Py.index js start = Ok o).
  { unfold _extract_balanced in Hscan.
    destruct (Py.index js start) as [ch0|]; [|done].
    cbn [mbind res_bind] in Hscan.
    destruct (Z.eqb_spec ch0 o) as [Heq | ?]; [by rewrite Heq | done]. }
  destruct (proper_pair_dec o c) as [Hpair | Himproper].
  2:{ rewrite extract_balanced_improper in Hscan; [done..|].
      intros (Hne & Ho & Hc). destruct Himproper as [? | [? | ?]]; congruence. }
  destruct (extract_balanced_sound _ _ _ _ _ _ Hstart Hidx Hscan)
    as (Hbal & [tail Htail] & ->).
  pose proof (len_nonneg pre).
  rewrite (extract_balanced_complete _ _ o c region); [f_equal; f_equal; lia |lia|done..|].
  replace (Z.to_nat (Py.len pre + start)) with (length pre + Z.to_nat start)%nat
    by (unfold Py.len; lia).
  rewrite <- drop_drop, drop_app_length.
  assert (Hlen : (Z.to_nat start ≤ length js)%nat).
  { destruct (decide (Z.to_nat start ≤ length js)%nat); [done|].
    rewrite drop_ge in Htail by lia. by destruct region, Hbal as (? & _ & ?). }
  rewrite drop_app_le by done. rewrite Htail.
  exists (tail ++ post). by rewrite <- app_assoc.
Qed.

(** ** The export stripper leaves other texts alone *)

Section StripMore.
Context `{PyRuntime}.

Lemma remove_pieces_sublist r : ∀ s prev skip,
  concat (Re.kept <$> Re.pieces r prev s skip) `sublist_of` s.
Proof.
  induction s as [|x s IH]; intros prev skip; [done|].
  cbn [Re.pieces]. destruct skip as [|n]; [|by apply sublist_cons].
  destruct (Re.match_at r prev (x :: s)) as [[[|y mt] c]|].
  - rewrite fmap_cons. simpl. by apply sublist_skip.
  - rewrite fmap_cons. simpl. by apply sublist_cons.
  - rewrite fmap_cons. simpl. by apply sublist_skip.
Qed.

Lemma export_clause_occurs clause :
  ExportClause clause → occurs (Py.lit "export") clause.
Proof. intros (ws1 & body & ws2 & semi & ws3 & -> & _). by eexists [], _. Qed.

(** X22: the export stripper only takes characters away, and it
    takes none from a text in which the word [export] does not occur. *)
Theorem strip_exports_frame (js : Py.str) :
  _strip_exports js `sublist_of` js
  ∧ (¬ occurs (Py.lit "export") js → _strip_exports js = js).
Proof.
  split.
  - unfold _strip_exports, Re.remove.
    etrans; [apply remove_pieces_sublist|]. apply remove_pieces_sublist.
  - intros Hno. unfold _strip_exports, Re.remove.
    destruct (remove_clause_pieces (length js) js (le_n _) None)
      as (kept & clause & tail & Hjs & Hclause & ->).
    destruct Hclause as [[-> ->] | [(a & b & ->)%export_clause_occurs _]].
    2:{ destruct Hno. exists (kept ++ a), (b ++ tail). rewrite Hjs. by lassoc. }
    rewrite !app_nil_r in *. subst kept.
    apply (remove_default_pieces (length js)); [done|].
    intros pre ws post -> _. apply Hno.
    by exists pre, (ws ++ Py.lit "default" ++ post).
Qed.
End StripMore.

(** ** The aliases are declared in the text *)

Section AliasMore.
Context `{PyRuntime}.

(** X23: every alias other than the name Q is an identifier that the
    text declares, with const, let or var, as equal to a name that is
    an alias too. *)
Theorem collect_aliases_declared (js x : Py.str) :
  x ∈ _collect_aliases js →
  x = canonical
  ∨ ∃ right kw ws1 ws2 ws3 ws4,
      right ∈ _collect_aliases js
      ∧ is_identifier x = true ∧ is_identifier right = true
      ∧ occurs (kw ++ ws1 ++ x ++ ws2 ++ [61] ++ ws3 ++ right ++ ws4 ++ [59]) js
      ∧ (kw = Py.lit "const" ∨ kw = Py.lit "let" ∨ kw = Py.lit "var")
      ∧ ws1 ≠ [] ∧ forallb Py.isspace ws1 = true
      ∧ forallb Py.isspace ws2 = true ∧ forallb Py.isspace ws3 = true
      ∧ forallb Py.isspace ws4 = true.
Proof.
  unfold _collect_aliases. rewrite alias_loop_reaches.
  intros [|l r Hedge Hright]; [by left|]. right.
  unfold alias_edges in Hedge.
  apply list_elem_of_fmap in Hedge as ([[j mt] c] & [= -> ->] & Hin).
  apply finditer_sound in Hin as (pre & rest & Hjs & _ & _ & Hm).
  apply assign_re_shape in Hm
    as (Hleft & Hrightid & kw & ws1 & ws2 & ws3 & ws4 & -> & Hkw & Hws).
  exists (Re.group 2 c), kw, ws1, ws2, ws3, ws4.
  split; [by apply alias_loop_reaches|].
  split; [done|]. split; [done|].
  split; [by exists pre, rest|]. done.
Qed.
End AliasMore.

(** ** [parse_int] on decimal texts *)

Section ParseIntProofs.
Context `{PyRuntime}.

(** A greedy repetition takes the characters of the class up to the
    first other character when the rest of the pattern matches there. *)
Lemma star_greedy {A} (p : Z → bool) (k : @Re.cont A) : ∀ ds prev rest c a,
  forallb p ds = true →
  (∀ x rest', rest = x :: rest' → p x = false) →
  k (last_char prev ds) rest c = Some a →
  Re.star p k prev (ds ++ rest) c = Some a.
Proof.
  induction ds as [|d ds IH]; intros prev rest c a Hds Hrest Hk.
  - simpl in *. destruct rest as [|x rest]; [done|]. simpl.
    by rewrite (Hrest x rest).
  - simpl in Hds. apply andb_true_iff in Hds as [Hd Hds].
    cbn [app Re.star]. rewrite Hd.
    rewrite (IH (Some d) rest c a); [done..|].
    by rewrite (last_char_cons prev).
Qed.

Lemma decimal_digit_facts d :
  is_decimal_digit d = true →
  Re.digit d = true ∧ 0 ≤ Py.digit_value d < 10 ∧ Py.digit_value d = d - 48
  ∧ d < 128 ∧ Py.c_isspace d = false.
Proof.
  unfold is_decimal_digit, Re.digit, Py.digit_value, Py.c_isspace.
  intros Hd. assert (48 ≤ d ≤ 57) by lia.
  rewrite (proj2 (Z.ltb_lt d 128)) by lia.
  replace ((48 <=? d) && (d <=? 57)) with true by lia.
  repeat split; lia.
Qed.

Lemma int_digits_dec : ∀ ds acc n,
  forallb is_decimal_digit ds = true →
  Py.int_digits 10 ds false acc n
  = Some (fold_left (λ a d, a * 10 + Py.digit_value d) ds acc,
          n + Py.len ds, []).
Proof.
  induction ds as [|d ds IH]; intros acc n Hall.
  - simpl. do 3 f_equal. unfold Py.len. simpl. lia.
  - simpl in Hall. apply andb_true_iff in Hall as [Hd Hall].
    pose proof (decimal_digit_facts d Hd) as (_ & Hv & _).
    assert (d ≠ 95) by (unfold is_decimal_digit in Hd; lia).
    simpl. rewrite (proj2 (Z.eqb_neq d 95)) by done.
    rewrite (proj2 (Z.ltb_lt (Py.digit_value d) 10)) by lia.
    rewrite (IH _ _ Hall). rewrite len_cons. do 3 f_equal. lia.
Qed.

Lemma dec_fold_bounds : ∀ ds acc,
  forallb is_decimal_digit ds = true → 0 ≤ acc →
  acc ≤ fold_left (λ a d, a * 10 + Py.digit_value d) ds acc.
Proof.
  induction ds as [|d ds IH]; intros acc Hall Hacc; [simpl; lia|].
  simpl in Hall. apply andb_true_iff in Hall as [Hd Hall].
  pose proof (decimal_digit_facts d Hd) as (_ & Hv & _). simpl.
  etrans; [|apply IH]; [lia | done | lia].
Qed.

(** The pattern of [parse_int] on a sign and decimal digits: the
    match is the sign and the digits. *)
Lemma parse_int_re_decimal (sign ds rest : Py.str) :
  sign = [] ∨ sign = [43] ∨ sign = [45] →
  forallb is_decimal_digit ds = true →
  (∃ d ds', ds = d :: ds' ∧ (d ≠ 48 ∨ ds' ≠ [])) →
  (∀ x rest', rest = x :: rest' → Re.digit x = false) →
  Re.match_ parse_int_re (sign ++ ds ++ rest) = Some (sign ++ ds, []).
Proof.
  intros Hsign Hds (d & ds' & -> & Hhead) Hrest.
  pose proof Hds as Hall.
  simpl in Hds. apply andb_true_iff in Hds as [Hd Hds'].
  pose proof (decimal_digit_facts d Hd) as (Hdigit & _ & _ & _ & _).
  assert (Hd' : 48 ≤ d ≤ 57) by (unfold is_decimal_digit in Hd; lia).
  unfold Re.match_, Re.match_at, parse_int_re, Re.Cat, Re.Plus.
  change (Py.lit "0x") with [48; 120]. cbn [foldr Re.Lit].
  set (s := sign ++ (d :: ds') ++ rest).
  set (k0 := λ (_ : option Z) (s' : Py.str) (c : Re.caps),
               Some (take (length s - length s') s, c)).
  assert (Hk0 : ∀ prev, k0 prev rest [] = Some (sign ++ d :: ds', [])).
  { intros prev. unfold k0, s. f_equal. f_equal.
    rewrite !app_assoc. apply take_matched. }
  remember (Re.Seq
              (Re.Alt
                 (Re.Seq
                    (Re.Seq (Re.Chr (Z.eqb 48))
                       (Re.Seq (Re.Chr (Z.eqb 120)) Re.Eps))
                    (Re.Seq (Re.Seq (Re.Chr Re.hex) (Re.Star Re.hex))
                       Re.Eps))
                 (Re.Seq (Re.Chr Re.digit) (Re.Star Re.digit)))
              Re.Eps) as num eqn:Hnumdef.
  assert (Hnum : ∀ prev,
            Re.run num k0 prev ((d :: ds') ++ rest) []
            = Some (sign ++ d :: ds', [])).
  { intros prev. subst num. cbn [Re.run app].
    assert (Hdec : (if Re.digit d
                    then Re.star Re.digit (λ prev0 s0 c, k0 prev0 s0 c)
                           (Some d) (ds' ++ rest) []
                    else None) = Some (sign ++ d :: ds', [])).
    { rewrite Hdigit. apply star_greedy; [|done..].
      apply forallb_forall. intros x Hx.
      pose proof (proj1 (forallb_forall _ _) Hds' x Hx) as Hx'.
      by apply decimal_digit_facts in Hx' as [? _]. }
    destruct (Z.eqb_spec 48 d) as [<- | ?]; [|done].
    destruct Hhead as [? | Hne]; [done|].
    destruct ds' as [|d2 ds']; [done|]. simpl in Hds'.
    apply andb_true_iff in Hds' as [Hd2 _].
    cbn [app]. unfold is_decimal_digit in Hd2.
    by rewrite (proj2 (Z.eqb_neq 120 d2)) by lia. }
  cbn [Re.run]. fold k0.
  destruct Hsign as [-> | [-> | ->]]; unfold s; cbn [app].
  - replace ((d =? 43) || (d =? 45)) with false by lia.
    apply (Hnum None).
  - pose proof (Hnum (Some 43)) as Hn. cbn [app] in Hn.
    change ((43 =? 43) || (43 =? 45)) with true. cbv iota. by rewrite Hn.
  - pose proof (Hnum (Some 45)) as Hn. cbn [app] in Hn.
    change ((45 =? 43) || (45 =? 45)) with true. cbv iota. by rewrite Hn.
Qed.

(** [int(text, 0)] on a sign and decimal digits. *)
Lemma int_decimal (sign : Py.str) (d : Z) (ds' : Py.str) :
  sign = [] ∨ sign = [43] ∨ sign = [45] →
  forallb is_decimal_digit (d :: ds') = true →
  Py.int (sign ++ d :: ds') 0
  = if 4300 <? Py.len (d :: ds') then Raise (ValueError InvalidIntLiteral)
    else if (d =? 48) && negb (dec_value (d :: ds') =? 0)
    then Raise (ValueError InvalidIntLiteral)
    else Ok (if bool_decide (sign = [45]) then - dec_value (d :: ds')
             else dec_value (d :: ds')).
Proof.
  intros Hsign Hall.
  assert (Hascii : forallb (λ c, c <? 128) (sign ++ d :: ds') = true).
  { rewrite forallb_app. apply andb_true_iff. split.
    - by destruct Hsign as [-> | [-> | ->]].
    - apply forallb_forall. intros x Hx.
      pose proof (proj1 (forallb_forall _ _) Hall x Hx) as Hx'.
      apply decimal_digit_facts in Hx'. lia. }
  pose proof (int_digits_dec (d :: ds') 0 0 Hall) as Hv.
  fold (dec_value (d :: ds')) in Hv.
  pose proof Hall as Hall'. simpl in Hall'.
  apply andb_true_iff in Hall' as [Hd Hds'].
  pose proof (decimal_digit_facts d Hd) as (_ & _ & _ & _ & Hsp).
  assert (Hd' : 48 ≤ d ≤ 57) by (unfold is_decimal_digit in Hd; lia).
  unfold Py.int. rewrite Hascii.
  assert (Hskip : Py.skip_c_space (sign ++ d :: ds') = sign ++ d :: ds').
  { destruct Hsign as [-> | [-> | ->]]; cbn [app Py.skip_c_space];
      [by rewrite Hsp | done | done]. }
  rewrite Hskip.
  assert (Hsigned :
            match sign ++ d :: ds' with
            | c :: t' =>
              if c =? 43 then (false, t')
              else if c =? 45 then (true, t')
              else (false, sign ++ d :: ds')
            | [] => (false, sign ++ d :: ds')
            end = (bool_decide (sign = [45]), d :: ds')).
  { destruct Hsign as [-> | [-> | ->]]; cbn [app]; [|done..].
    by rewrite (proj2 (Z.eqb_neq d 43)), (proj2 (Z.eqb_neq d 45)) by lia. }
  rewrite Hsigned. change (0 =? 0) with true. cbv iota.
  assert (Hpre : ∀ lower upper, 57 < lower → 57 < upper →
            Py.prefixed (d :: ds') lower upper = false).
  { intros lower upper Hl Hu. destruct ds' as [|x ds']; [done|].
    simpl in Hds'. apply andb_true_iff in Hds' as [Hx _].
    unfold is_decimal_digit in Hx. cbn [Py.prefixed]. lia. }
  rewrite !Hpre by lia.
  cbn [Py.starts_with]. rewrite andb_true_r, (Z.eqb_sym 48 d).
  assert (Hbase : (if negb (d =? 48) then (10, false) else (10, true))
                  = (10, d =? 48)) by by destruct (d =? 48).
  rewrite Hbase. cbn [Z.eqb Pos.eqb andb orb negb].
  change (match d with Z.pos q => (95 =? q)%positive | _ => false end)
    with (95 =? d).
  rewrite (Z.eqb_sym 95 d), (proj2 (Z.eqb_neq d 95)) by lia. cbn [andb].
  rewrite Hv. pose proof (len_nonneg (d :: ds')) as Hlen.
  rewrite len_cons in *. pose proof (len_nonneg ds').
  rewrite (proj2 (Z.eqb_neq (0 + (1 + Py.len ds')) 0)) by lia.
  replace (0 + (1 + Py.len ds')) with (1 + Py.len ds') by lia.
  unfold Py.max_str_digits.
  destruct (4300 <? 1 + Py.len ds'); [done|].
  destruct ((d =? 48) && negb (dec_value (d :: ds') =? 0)); [done|].
  cbn [Py.skip_c_space]. by destruct (bool_decide (sign = [45])).
Qed.

(** X24: on a text that, stripped of white space, starts with an
    optional sign and decimal digits, the first of them not 0, [parse_int]
    returns the number of these digits with that sign, whatever follows
    them; the digits are at most the 4300 that [int] accepts. *)
Theorem parse_int_decimal_prefix (text sign ds rest : Py.str) :
  Py.strip text = sign ++ ds ++ rest →
  sign = [] ∨ sign = [43] ∨ sign = [45] →
  forallb is_decimal_digit ds = true →
  (∃ d ds', ds = d :: ds' ∧ d ≠ 48) →
  Py.len ds ≤ 4300 →
  (∀ x rest', rest = x :: rest' → Re.digit x = false) →
  parse_int_text text
  = Ok (inject_Z (if bool_decide (sign = [45]) then - dec_value ds
                  else dec_value ds)).
Proof.
  intros Hstrip Hsign Hds (d & ds' & -> & Hd) Hlen Hrest.
  unfold parse_int_text. rewrite Hstrip.
  rewrite parse_int_re_decimal; [|done|done|by eauto 6|done].
  rewrite int_decimal by done.
  rewrite (proj2 (Z.ltb_ge 4300 _)) by done.
  by rewrite (proj2 (Z.eqb_neq d 48)) by done.
Qed.

(** X25: where JavaScript's parseInt reads a decimal number with
    leading zeros, [parse_int] fails: it hands the digits to [int] with
    base 0, which refuses a zero before a number that is not zero. *)
Theorem parse_int_leading_zero (text sign ds rest : Py.str) :
  Py.strip text = sign ++ 48 :: ds ++ rest →
  sign = [] ∨ sign = [43] ∨ sign = [45] →
  forallb is_decimal_digit ds = true →
  dec_value ds ≠ 0 →
  (∀ x rest', rest = x :: rest' → Re.digit x = false) →
  parse_int_text text = Raise (ValueError InvalidIntLiteral).
Proof.
  intros Hstrip Hsign Hds Hvalue Hrest.
  assert (Hne : ds ≠ []) by by intros ->.
  unfold parse_int_text. rewrite Hstrip.
  change (sign ++ 48 :: ds ++ rest) with (sign ++ (48 :: ds) ++ rest).
  rewrite parse_int_re_decimal; [|done|by simpl; rewrite Hds|by eauto 6|done].
  rewrite int_decimal; [|done|by simpl; rewrite Hds].
  destruct (4300 <? Py.len (48 :: ds)); [done|].
  replace (dec_value (48 :: ds)) with (dec_value ds) by done.
  by rewrite (proj2 (Z.eqb_neq (dec_value ds) 0)) by done.
Qed.
End ParseIntProofs.

(** ** The renaming of the K expression *)

Lemma replace_letter_gone (x : Z) (new : Py.str) : ∀ s skip,
  x ∉ new → x ∉ replace_text [x] new s skip.
Proof.
  induction s as [|y s IH]; intros skip Hnew; [apply not_elem_of_nil|].
  cbn [replace_text]. destruct skip as [|n]; [|by apply IH].
  cbn [Py.starts_with]. rewrite andb_true_r.
  destruct (Z.eqb_spec x y) as [<- | Hxy].
  - rewrite not_elem_of_app. split; [done | by apply IH].
  - apply not_elem_of_cons. split; [done | by apply IH].
Qed.

(** X26: when the alias of the decoder is one letter of the name
    parse_int that the word decode does not hold (p, a, r, s, i, n, t or
    the underscore), the second renaming rewrites that letter inside the
    name the first one has just written: the expression handed to
    [eval] holds the letter nowhere, so it does not name parse_int. *)
Theorem k_expr_one_letter_alias (b : bootstrap) (x : Z) :
  alias b = [x] → x ∈ Py.lit "parse_int" → x ∉ Py.lit "decode" →
  (x ∉ k_expr b) ∧ ¬ occurs (Py.lit "parse_int") (k_expr b).
Proof.
  intros Halias Hin Hnew.
  assert (Hgone : x ∉ k_expr b).
  { unfold k_expr, str_replace. rewrite Halias. by apply replace_letter_gone. }
  split; [done|]. intros (pre & post & Hocc). apply Hgone.
  rewrite Hocc, !elem_of_app. auto.
Qed.

(** ** The rewriter on one call *)

Section SingleCall.
Context `{PyRuntime}.

Lemma space_not_hex (x : Z) : Py.isspace x = true → Re.hex x = false.
Proof. unfold Py.isspace, Re.hex. lia. Qed.

(** The pattern of the rewriter on the text of one call, whose name
    starts with a word character: the match is the whole text. *)
Lemma call_re_match (x : Z) (tail ws1 hexs ws2 : Py.str) :
  Re.id_start x = true → Re.word x = true →
  forallb Re.id_cont tail = true →
  forallb Py.isspace ws1 = true →
  hexs ≠ [] → forallb Re.hex hexs = true →
  forallb Py.isspace ws2 = true →
  Re.match_at call_re None (call_text (x :: tail) ws1 hexs ws2)
  = Some (call_text (x :: tail) ws1 hexs ws2,
          [(2%nat, Py.lit "0x" ++ hexs); (1%nat, x :: tail)]).
Proof.
  intros Hx Hword Htail Hws1 Hne Hhexs Hws2.
  destruct hexs as [|h hexs]; [done|].
  simpl in Hhexs. apply andb_true_iff in Hhexs as [Hh Hhexs].
  unfold Re.match_at, call_re, identifier, Re.Cat, Re.Plus, call_text.
  change (Py.lit "0x") with [48; 120]. cbn [foldr Re.Lit].
  cbn [Re.run app]. cbn [Re.word_opt head xorb]. rewrite Hword, Hx.
  apply star_greedy; [done | by intros y rest' [= <- _] |].
  cbv beta iota. change (40 =? 40) with true. cbv iota.
  apply star_greedy; [done | by intros y rest' [= <- _] |].
  cbv beta iota. change (48 =? 48) with true. change (120 =? 120) with true.
  cbv iota. rewrite Hh.
  apply star_greedy; [done | |].
  { intros y rest' Heq. destruct ws2 as [|w ws2].
    - by injection Heq as <- _.
    - injection Heq as <- _. simpl in Hws2.
      apply andb_true_iff in Hws2 as [Hw _]. by apply space_not_hex. }
  apply star_greedy; [done | by intros y rest' [= <- _] |].
  cbv beta iota. change (41 =? 41) with true. cbv iota.
  f_equal. f_equal.
  - set (src := x :: tail ++ 40 :: ws1 ++ 48 :: 120 :: h :: hexs ++ ws2 ++ [41]).
    by rewrite Nat.sub_0_r, firstn_all.
  - f_equal; [f_equal|f_equal; f_equal].
    + apply (take_matched (48 :: 120 :: h :: hexs) (ws2 ++ [41])).
    + apply (take_matched (x :: tail)
               (40 :: ws1 ++ 48 :: 120 :: h :: hexs ++ ws2 ++ [41])).
Qed.

(** X27: a text that is one call of an alias, whose name starts with
    a letter, a digit or an underscore, is rewritten as a whole: the
    result is the literal of the string that [decode] returns for the
    number of the hexadecimal literal, the cache holds that one string,
    and the rewriter fails exactly as [decode] does. *)
Theorem rewrite_single_call
    (aliases : gset Py.str) (arr : list Py.str) (offset : Z)
    (name ws1 hexs ws2 : Py.str) :
  name ∈ aliases → call_shape name ws1 hexs ws2 →
  Re.word_opt (head name) = true →
  rewrite_calls aliases arr offset (call_text name ws1 hexs ws2)
  = v ← decode arr offset (hex_value hexs);
    Ok (json_dumps v, {[hex_value hexs := v]}).
Proof.
  intros Hin (Hid & Hws1 & Hne & Hhexs & Hws2) Hword.
  destruct name as [|x tail]; [done|].
  simpl in Hid, Hword. apply andb_true_iff in Hid as [Hx Htail].
  pose proof (call_re_match x tail ws1 hexs ws2 Hx Hword Htail Hws1 Hne
                Hhexs Hws2) as Hmatch.
  unfold rewrite_calls, Re.sub_with.
  set (src := call_text (x :: tail) ws1 hexs ws2) in *.
  assert (Hsrc : ∃ s', src = x :: s') by by eexists.
  destruct Hsrc as [s' Hsrc].
  assert (Hpieces : Re.pieces call_re None src 0
                    = [Re.Match src [(2%nat, Py.lit "0x" ++ hexs);
                                     (1%nat, x :: tail)]]).
  { rewrite Hsrc at 1. cbn [Re.pieces]. rewrite <- Hsrc, Hmatch.
    rewrite Hsrc at 1. f_equal.
    replace (length src - 1)%nat with (length s')
      by (rewrite Hsrc; simpl; lia).
    rewrite <- (app_nil_r s') at 1. by rewrite pieces_skip. }
  rewrite Hpieces, sub_pieces_match, replace_unfold.
  cbn [Re.group Nat.eqb]. rewrite bool_decide_eq_true_2 by done.
  rewrite int_hex_literal_value by done.
  rewrite lookup_empty.
  destruct (decode arr offset (hex_value hexs)) as [v|e]; [|done].
  cbn [Re.sub_pieces mbind res_bind]. by rewrite app_nil_r, insert_empty.
Qed.

(** A match of the pattern of the rewriter starts at a word boundary. *)
Lemma call_re_boundary prev mt rest c :
  Matches call_re prev mt rest [] c →
  ∃ name ws1 hexs ws2,
    mt = call_text name ws1 hexs ws2 ∧ call_shape name ws1 hexs ws2
    ∧ Re.group 1 c = name
    ∧ xorb (Re.word_opt prev) (Re.word_opt (head name)) = true.
Proof.
  unfold call_re, identifier, Re.Cat, Re.Plus, call_text.
  change (Py.lit "0x") with [48; 120]. cbn [foldr Re.Lit]. intros Hm.
  inv_matches.
  match goal with
  | |- ∃ _ _ _ _,
        [] ++ ([?x] ++ ?m ++ []) ++ [40] ++ ?w1
           ++ (_ ++ ([?h] ++ ?hs) ++ []) ++ ?w2 ++ _ = _ ∧ _ =>
    exists (x :: m), w1, (h :: hs), w2
  end.
  split; [by lassoc; rewrite ?app_nil_r|].
  split; [repeat split; simpl; rewrite ?andb_true_iff; auto|].
  split; [simpl; by rewrite ?app_nil_r|].
  match goal with Hb : xorb _ _ = true |- _ => exact Hb end.
Qed.

(** The rewriter keeps a text in which no match of its pattern names
    an alias. *)
Lemma sub_kept (aliases : gset Py.str) (arr : list Py.str) (offset : Z) n :
  ∀ s, (length s ≤ n)%nat → ∀ prev cache,
  (∀ pre mt rest c,
     s = pre ++ mt ++ rest →
     Matches call_re (last_char prev pre) mt rest [] c →
     Re.group 1 c ∉ aliases) →
  Re.sub_pieces (replace aliases arr offset) (Re.pieces call_re prev s 0) cache
  = Ok (s, cache).
Proof.
  induction n as [|n IH]; intros s Hlen prev cache Hkeep.
  { destruct s; [done | simpl in Hlen; lia]. }
  destruct (pieces_unfold call_re prev s)
    as [[-> ->] | [(x & s' & -> & ->) | (mt & c & rest & -> & Hne & Hm & ->)]].
  - done.
  - rewrite sub_pieces_text, IH; [done | simpl in Hlen; lia |].
    intros pre mt rest c -> Hm. apply (Hkeep (x :: pre) mt rest c); [done|].
    by rewrite <- (last_char_cons prev).
  - rewrite sub_pieces_match, replace_unfold.
    rewrite bool_decide_eq_false_2 by by apply (Hkeep [] mt rest c).
    rewrite IH; [done | |].
    + rewrite length_app in Hlen. destruct mt; [done | simpl in Hlen; lia].
    + intros pre mt' rest' c' -> Hm'.
      apply (Hkeep (mt ++ pre) mt' rest' c'); [by rewrite <- app_assoc|].
      by rewrite <- last_char_app.
Qed.

Lemma identifier_no_paren (name : Py.str) :
  is_identifier name = true → 40 ∉ name.
Proof.
  destruct name as [|x tail]; [done|]. simpl.
  intros [Hx Htail]%andb_true_iff.
  apply not_elem_of_cons. split.
  - unfold Re.id_start in Hx. lia.
  - intros Hin%list_elem_of_In.
    pose proof (proj1 (forallb_forall _ _) Htail 40 Hin) as H40. done.
Qed.

(** X28: a call through a name that starts with a dollar sign is never
    rewritten, alias or not: the pattern of the rewriter starts with a
    word boundary, and there is none before a dollar sign at the start of
    the text; the call is kept as long as no end piece of the rest of
    the name is an alias itself. *)
Theorem rewrite_keeps_dollar_call
    (aliases : gset Py.str) (arr : list Py.str) (offset : Z)
    (tail ws1 hexs ws2 : Py.str) :
  call_shape (36 :: tail) ws1 hexs ws2 →
  (∀ name, name `suffix_of` tail → name ∉ aliases) →
  rewrite_calls aliases arr offset (call_text (36 :: tail) ws1 hexs ws2)
  = Ok (call_text (36 :: tail) ws1 hexs ws2, ∅).
Proof.
  intros (Hid & Hws1 & Hne & Hhexs & Hws2) Hsuffix.
  unfold rewrite_calls, Re.sub_with. apply (sub_kept _ _ _ _ _ (le_n _)).
  intros pre mt rest c Hsrc Hm.
  apply call_re_boundary in Hm
    as (name & w1 & hs & w2 & -> & (Hname & _) & -> & Hb).
  assert (Hsplit : pre ++ name = 36 :: tail).
  { unfold call_text in Hsrc.
    assert (Hpivot : (36 :: tail) ++ 40 :: ws1 ++ Py.lit "0x" ++ hexs ++ ws2 ++ [41]
                     = (pre ++ name) ++ 40 :: (w1 ++ Py.lit "0x" ++ hs ++ w2 ++ [41])
                                             ++ rest).
    { etrans; [exact Hsrc|]. by rewrite <- !app_assoc. }
    apply app_inj_pivot in Hpivot as [[[Hin _] | [Hin _]] | [Heq _]]; [| |done].
    - apply list_elem_of_In, identifier_no_paren in Hin; done.
    - exfalso. apply list_elem_of_In in Hin.
      rewrite !elem_of_app in Hin.
      destruct Hin as [Hin | [Hin | [Hin | [Hin | Hin]]]].
      + apply list_elem_of_In in Hin.
        by pose proof (proj1 (forallb_forall _ _) Hws1 40 Hin).
      + by repeat (apply elem_of_cons in Hin as [Hin | Hin]; [done|]);
          apply elem_of_nil in Hin.
      + apply list_elem_of_In in Hin.
        by pose proof (proj1 (forallb_forall _ _) Hhexs 40 Hin).
      + apply list_elem_of_In in Hin.
        by pose proof (proj1 (forallb_forall _ _) Hws2 40 Hin).
      + by apply list_elem_of_singleton in Hin. }
  destruct pre as [|y pre].
  - simpl in Hsplit. subst name. by simpl in Hb.
  - injection Hsplit as -> <-. apply Hsuffix. by exists pre.
Qed.
End SingleCall.

(** ** The rewriter replaces every call of an alias *)

Section RewriteAll.
Context `{PyRuntime}.

(** The pattern of the rewriter matches a call at a word boundary,
    whatever follows it. *)
Lemma call_re_complete prev name ws1 hexs ws2 rest :
  call_at prev name ws1 hexs ws2 →
  Re.match_at call_re prev (call_text name ws1 hexs ws2 ++ rest)
  = Some (call_text name ws1 hexs ws2,
          [(2%nat, Py.lit "0x" ++ hexs); (1%nat, name)]).
Proof.
  intros [(Hid & Hws1 & Hne & Hhexs & Hws2) Hb].
  destruct name as [|x tail]; [done|].
  simpl in Hid. apply andb_true_iff in Hid as [Hx Htail].
  destruct hexs as [|h hexs]; [done|].
  simpl in Hhexs. apply andb_true_iff in Hhexs as [Hh Hhexs].
  assert (Htext : call_text (x :: tail) ws1 (h :: hexs) ws2 ++ rest
                  = x :: tail ++ 40 :: ws1 ++ 48 :: 120 :: h :: hexs
                         ++ ws2 ++ 41 :: rest).
  { unfold call_text. change (Py.lit "0x") with [48; 120]. by lassoc. }
  rewrite Htext.
  unfold Re.match_at, call_re, identifier, Re.Cat, Re.Plus.
  change (Py.lit "0x") with [48; 120]. cbn [foldr Re.Lit].
  cbn [Re.run]. cbn [head] in *. rewrite Hb, Hx.
  apply star_greedy; [done | by intros y rest' [= <- _] |].
  cbv beta iota. change (40 =? 40) with true. cbv iota.
  apply star_greedy; [done | by intros y rest' [= <- _] |].
  cbv beta iota. change (48 =? 48) with true. change (120 =? 120) with true.
  cbv iota. rewrite Hh.
  apply star_greedy; [done | |].
  { intros y rest' Heq. destruct ws2 as [|w ws2].
    - by injection Heq as <- _.
    - injection Heq as <- _. simpl in Hws2.
      apply andb_true_iff in Hws2 as [Hw _]. by apply space_not_hex. }
  apply star_greedy; [done | by intros y rest' [= <- _] |].
  cbv beta iota. change (41 =? 41) with true. cbv iota.
  f_equal. f_equal.
  - rewrite <- Htext. apply take_matched.
  - f_equal; [f_equal|f_equal; f_equal].
    + apply (take_matched (48 :: 120 :: h :: hexs) (ws2 ++ 41 :: rest)).
    + apply (take_matched (x :: tail)
               (40 :: ws1 ++ 48 :: 120 :: h :: hexs ++ ws2 ++ 41 :: rest)).
Qed.

Lemma call_text_last prev name ws1 hexs ws2 :
  last_char prev (call_text name ws1 hexs ws2) = Some 41.
Proof.
  unfold call_text, last_char. by rewrite !app_assoc, last_snoc.
Qed.

(** The pieces of a text that starts with a call: the call, then the
    pieces of what follows it. *)
Lemma pieces_call prev name ws1 hexs ws2 rest :
  call_at prev name ws1 hexs ws2 →
  Re.pieces call_re prev (call_text name ws1 hexs ws2 ++ rest) 0
  = Re.Match (call_text name ws1 hexs ws2)
             [(2%nat, Py.lit "0x" ++ hexs); (1%nat, name)]
    :: Re.pieces call_re (Some 41) rest 0.
Proof.
  intros Hc.
  pose proof (call_re_complete prev name ws1 hexs ws2 rest Hc) as Hm.
  pose proof (call_text_last prev name ws1 hexs ws2) as Hl.
  destruct (call_text name ws1 hexs ws2) as [|x mt] eqn:Hct.
  { unfold call_text in Hct. by destruct name. }
  cbn [app Re.pieces]. cbn [app] in Hm. rewrite Hm. f_equal.
  replace (length (x :: mt) - 1)%nat with (length mt) by (simpl; lia).
  by rewrite pieces_skip, (last_char_cons prev), Hl.
Qed.

(** The pieces of a text at whose head no call starts. *)
Lemma pieces_no_call prev x s :
  no_call_at prev (x :: s) →
  Re.pieces call_re prev (x :: s) 0
  = Re.Text x :: Re.pieces call_re (Some x) s 0.
Proof.
  intros Hno. cbn [Re.pieces].
  destruct (Re.match_at call_re prev (x :: s)) as [[[|y mt] c]|] eqn:Hm;
    [done| |done].
  apply match_at_sound in Hm as (rest & Hs & Hm).
  apply call_re_boundary in Hm
    as (name & ws1 & hexs & ws2 & Hmt & Hshape & _ & Hb).
  rewrite Hmt in Hs. by destruct (Hno name ws1 hexs ws2 rest Hs).
Qed.

(** At the head of a text a call starts, or none does. *)
Lemma call_or_not prev s :
  s = []
  ∨ (∃ x s', s = x :: s' ∧ no_call_at prev s)
  ∨ (∃ name ws1 hexs ws2 rest,
       s = call_text name ws1 hexs ws2 ++ rest
       ∧ call_at prev name ws1 hexs ws2).
Proof.
  destruct s as [|x s]; [by left|]. right.
  destruct (Re.match_at call_re prev (x :: s)) as [[mt c]|] eqn:Hm.
  - right. apply match_at_sound in Hm as (rest & Hs & Hm).
    apply call_re_boundary in Hm
      as (name & ws1 & hexs & ws2 & -> & Hshape & _ & Hb).
    by exists name, ws1, hexs, ws2, rest.
  - left. exists x, s. split; [done|].
    intros name ws1 hexs ws2 rest Heq Hc.
    by rewrite Heq, call_re_complete in Hm.
Qed.

Section Characterisation.
Variables (aliases : gset Py.str) (arr : list Py.str) (offset : Z).



End Characterisation.

End RewriteAll.

(** ** The export stripper: what it removes and what it keeps *)

Section StripAll.
Context `{PyRuntime}.

Lemma last_char_none (s : Py.str) : last_char None s = last s.
Proof. unfold last_char. by destruct (last s). Qed.

(** The pieces of a text that starts with a match. *)
Lemma pieces_match r prev mt c rest :
  mt ≠ [] → Re.match_at r prev (mt ++ rest) = Some (mt, c) →
  Re.pieces r prev (mt ++ rest) 0
  = Re.Match mt c :: Re.pieces r (last_char prev mt) rest 0.
Proof.
  intros Hne Hm. destruct mt as [|x mt]; [done|].
  cbn [app Re.pieces]. cbn [app] in Hm. rewrite Hm. f_equal.
  replace (length (x :: mt) - 1)%nat with (length mt) by (simpl; lia).
  by rewrite pieces_skip, (last_char_cons prev).
Qed.

(** The pieces of a text in the first part of which no match starts. *)
Lemma pieces_no_match r : ∀ seg prev rest,
  (∀ a b mt rest' c,
     seg = a ++ b → b ≠ [] → b ++ rest = mt ++ rest' → mt ≠ [] →
     ¬ Matches r (last_char prev a) mt rest' [] c) →
  Re.pieces r prev (seg ++ rest) 0
  = (Re.Text <$> seg) ++ Re.pieces r (last_char prev seg) rest 0.
Proof.
  induction seg as [|x seg IH]; intros prev rest Hno; [done|].
  destruct (pieces_unfold r prev ((x :: seg) ++ rest))
    as [[_ [=]] | [(x' & s' & [= <- <-] & ->)
                   | (mt & c & rest' & Heq & Hne & Hm & _)]].
  - rewrite fmap_cons. cbn [app]. f_equal.
    rewrite IH; [by rewrite (last_char_cons prev)|].
    intros a b mt rest' c -> Hb Heq Hne.
    rewrite (last_char_cons prev).
    by apply (Hno (x :: a) b mt rest' c).
  - by destruct (Hno [] (x :: seg) mt rest' c).
Qed.

Lemma kept_texts (seg : Py.str) (ps : list Re.piece) :
  concat (Re.kept <$> ((Re.Text <$> seg) ++ ps))
  = seg ++ concat (Re.kept <$> ps).
Proof.
  induction seg as [|x seg IH]; [done|].
  rewrite fmap_cons. cbn [app]. rewrite fmap_cons. cbn [concat Re.kept app].
  by rewrite IH.
Qed.

Lemma clause_match_start prev mt rest c :
  Matches export_clause_re prev mt rest [] c →
  ∀ a tail, export_start a (a ++ mt ++ tail).
Proof.
  intros [(ws1 & body & ws2 & semi & ws3 & -> & Hws1 & _) _]%export_clause_shape.
  intros a tail.
  exists ws1, (123 :: body ++ [125] ++ ws2 ++ semi ++ ws3 ++ tail).
  split; [by rewrite <- !app_assoc|]. split; [done|]. left. by eexists.
Qed.

Lemma default_match_start prev mt rest c :
  Matches export_default_re prev mt rest [] c →
  ∀ a tail, export_start a (a ++ mt ++ tail).
Proof.
  intros (ws & ws' & -> & Hne & Hws)%export_default_shape.
  intros a tail.
  exists ws, (Py.lit "default" ++ ws' ++ tail).
  split; [by rewrite <- !app_assoc|]. split; [done|]. right.
  split; [done|]. by eexists.
Qed.

(** The pattern of the clause matches a clause that ends the text. *)
Lemma export_clause_complete prev clause :
  Re.word_opt prev = false → ExportClause clause →
  Re.match_at export_clause_re prev clause = Some (clause, []).
Proof.
  intros Hprev (ws1 & body & ws2 & semi & ws3
                & -> & Hws1 & Hbody & Hws2 & Hsemi & Hws3).
  unfold Re.match_at, export_clause_re, Re.Cat.
  change (Py.lit "export") with [101; 120; 112; 111; 114; 116].
  cbn [foldr Re.Lit]. cbn [Re.run app head Re.word_opt]. rewrite Hprev.
  change (xorb false (Re.word 101)) with true. cbv iota.
  cbn [Z.eqb Pos.eqb]. cbv iota.
  apply star_greedy; [done | by intros y rest' [= <- _] |].
  cbv beta iota. cbn [app]. change (123 =? 123) with true. cbv iota.
  apply star_greedy; [done | by intros y rest' [= <- _] |].
  cbv beta iota. cbn [app]. change (125 =? 125) with true. cbv iota.
  set (s := 101 :: 120 :: 112 :: 111 :: 114 :: 116
            :: ws1 ++ 123 :: body ++ 125 :: ws2 ++ semi ++ ws3).
  assert (Hend : take (length s - length (@nil Z)) s = s).
  { by rewrite Nat.sub_0_r, firstn_all. }
  destruct Hsemi as [-> | ->].
  - rewrite app_nil_l, <- (app_nil_r (ws2 ++ ws3)).
    apply star_greedy; [by rewrite forallb_app, Hws2, Hws3 | done |].
    cbn [Re.star Re.at_end]. by rewrite Hend.
  - apply star_greedy; [done | by intros y rest' [= <- _] |].
    cbn [app]. change (59 =? 59) with true. cbv iota.
    assert (Hlast : ∀ k, Re.star Py.isspace
                      (λ prev0 s0 c, if Re.at_end s0
                                     then Some (take (length s - length s0) s, c)
                                     else None) k ws3 []
                    = Some (s, [])).
    { intros k. rewrite <- (app_nil_r ws3).
      apply star_greedy; [done | done |]. cbn [Re.at_end]. by rewrite Hend. }
    by rewrite Hlast.
Qed.

(** The pattern of the words [export default] matches them and the
    white space after them. *)
Lemma export_default_complete prev ws ws' rest :
  Re.word_opt prev = false →
  ws ≠ [] → forallb Py.isspace ws = true →
  ws' ≠ [] → forallb Py.isspace ws' = true →
  (∀ x r, rest = x :: r → Py.isspace x = false) →
  Re.match_at export_default_re prev
    (Py.lit "export" ++ ws ++ Py.lit "default" ++ ws' ++ rest)
  = Some (Py.lit "export" ++ ws ++ Py.lit "default" ++ ws', []).
Proof.
  intros Hprev Hne Hws Hne' Hws' Hrest.
  destruct ws as [|w ws]; [done|]. destruct ws' as [|w' ws']; [done|].
  simpl in Hws, Hws'.
  apply andb_true_iff in Hws as [Hw Hws].
  apply andb_true_iff in Hws' as [Hw' Hws'].
  unfold Re.match_at, export_default_re, Re.Cat, Re.Plus.
  change (Py.lit "export") with [101; 120; 112; 111; 114; 116].
  change (Py.lit "default") with [100; 101; 102; 97; 117; 108; 116].
  cbn [foldr Re.Lit]. cbn [Re.run app head Re.word_opt]. rewrite Hprev.
  change (xorb false (Re.word 101)) with true. cbv iota.
  cbn [Z.eqb Pos.eqb]. cbv iota. rewrite Hw.
  apply star_greedy; [done | by intros y rest' [= <- _] |].
  cbv beta iota. cbn [app Z.eqb Pos.eqb]. cbv iota. rewrite Hw'.
  apply star_greedy; [done | done |].
  f_equal. f_equal.
  match goal with
  | |- take _ ?t = ?m =>
    replace t with (m ++ rest) by (cbn [app]; by rewrite <- app_assoc)
  end.
  apply take_matched.
Qed.

Section Frame.
Variables pre post : Py.str.
Hypothesis Hfirst :
  ∀ before, export_start before (pre ++ post) →
            (length pre ≤ length before)%nat.

(** The first substitution keeps the text before the first place. *)
Lemma remove_clause_frame :
  ∃ kept clause tail,
    post = kept ++ clause ++ tail
    ∧ (clause = [] ∧ tail = []
       ∨ ExportClause clause ∧ (tail = [] ∨ tail = [10]))
    ∧ Re.remove export_clause_re (pre ++ post) = pre ++ kept ++ tail.
Proof.
  destruct (remove_clause_pieces (length post) post (le_n _) (last_char None pre))
    as (kept & clause & tail & Hpost & Hcl & Heq).
  exists kept, clause, tail. split; [done|]. split; [done|].
  unfold Re.remove. rewrite pieces_no_match, kept_texts, Heq; [done|].
  intros a b mt rest' c Hpre Hb Heq' Hne Hm.
  assert (Hjs : pre ++ post = a ++ mt ++ rest').
  { by rewrite Hpre, <- app_assoc, Heq'. }
  pose proof (clause_match_start _ _ _ _ Hm a rest') as Hstart.
  rewrite <- Hjs in Hstart. apply Hfirst in Hstart.
  rewrite Hpre, length_app in Hstart. destruct b; [done | simpl in Hstart; lia].
Qed.

(** So does the second, on what the first returns. *)
Lemma remove_default_frame kept clause tail :
  post = kept ++ clause ++ tail → tail = [] ∨ tail = [10] →
  ∃ post', Re.remove export_default_re (pre ++ kept ++ tail) = pre ++ post'.
Proof.
  intros Hpost Htail. eexists. unfold Re.remove.
  rewrite pieces_no_match, kept_texts; [done|].
  intros a b mt rest' c Hpre Hb Heq Hne Hm.
  apply export_default_shape in Hm as (ws & ws' & -> & Hwne & Hws).
  assert (Hjs1 : pre ++ kept ++ tail
                 = a ++ Py.lit "export" ++ ws ++ Py.lit "default"
                     ++ (ws' ++ rest')).
  { by rewrite Hpre, <- !app_assoc, Heq, <- !app_assoc. }
  assert (Hstart : export_start a (pre ++ post)).
  { exists ws. rewrite Hpost. destruct Htail as [-> | ->].
    - exists (Py.lit "default" ++ (ws' ++ rest') ++ clause).
      split; [|split; [done|]; right; split; [done | by eexists]].
      rewrite app_nil_r in *. rewrite (app_assoc pre), Hjs1.
      by rewrite <- !app_assoc.
    - destruct (ws' ++ rest') as [|y m _] using rev_ind.
      + exfalso. rewrite app_nil_r in Hjs1.
        change (Py.lit "default") with ([100; 101; 102; 97; 117; 108] ++ [116])
          in Hjs1.
        rewrite !app_assoc in Hjs1. by apply app_inj_tail in Hjs1 as [_ [=]].
      + rewrite !app_assoc in Hjs1. apply app_inj_tail in Hjs1 as [Hjs1 <-].
        exists (Py.lit "default" ++ m ++ clause ++ [10]).
        split; [|split; [done|]; right; split; [done | by eexists]].
        rewrite (app_assoc pre), Hjs1. by rewrite <- !app_assoc. }
  apply Hfirst in Hstart.
  rewrite Hpre, length_app in Hstart. destruct b; [done | simpl in Hstart; lia].
Qed.

Lemma strip_exports_prefix :
  ∃ post', _strip_exports (pre ++ post) = pre ++ post'.
Proof.
  destruct remove_clause_frame as (kept & clause & tail & Hpost & Hcl & Heq).
  unfold _strip_exports. rewrite Heq.
  apply (remove_default_frame kept clause tail Hpost).
  destruct Hcl as [[_ ->] | [_ ?]]; auto.
Qed.

(** The second substitution finds nothing in the text before the first
    place. *)
Lemma remove_default_pre : Re.remove export_default_re pre = pre.
Proof.
  unfold Re.remove. rewrite <- (app_nil_r pre) at 1.
  rewrite pieces_no_match, kept_texts; [by rewrite app_nil_r|].
  intros a b mt rest' c Hpre Hb Heq Hne Hm. rewrite app_nil_r in Heq.
  pose proof (default_match_start _ _ _ _ Hm a (rest' ++ post)) as Hstart.
  assert (Hjs : pre ++ post = a ++ mt ++ rest' ++ post).
  { by rewrite Hpre, Heq, <- !app_assoc. }
  rewrite <- Hjs in Hstart. apply Hfirst in Hstart.
  rewrite Hpre, length_app in Hstart. destruct b; [done | simpl in Hstart; lia].
Qed.

Lemma strip_exports_clause :
  Re.word_opt (last pre) = false → ExportClause post →
  _strip_exports (pre ++ post) = pre.
Proof.
  intros Hprev Hclause.
  assert (Hne : post ≠ []).
  { destruct Hclause as (? & ? & ? & ? & ? & -> & _). done. }
  assert (Hfirst' : Re.remove export_clause_re (pre ++ post) = pre).
  { unfold Re.remove. rewrite pieces_no_match, kept_texts.
    - rewrite <- (app_nil_r post) at 1.
      rewrite (pieces_match _ _ post []); [by rewrite app_nil_r | done |].
      rewrite app_nil_r, last_char_none.
      by apply export_clause_complete.
    - intros a b mt rest' c Hpre Hb Heq' Hmne Hm.
      assert (Hjs : pre ++ post = a ++ mt ++ rest').
      { by rewrite Hpre, <- app_assoc, Heq'. }
      pose proof (clause_match_start _ _ _ _ Hm a rest') as Hstart.
      rewrite <- Hjs in Hstart. apply Hfirst in Hstart.
      rewrite Hpre, length_app in Hstart.
      destruct b; [done | simpl in Hstart; lia]. }
  unfold _strip_exports. rewrite Hfirst'. apply remove_default_pre.
Qed.
End Frame.

(** The words [export default] at the only place where a pattern of
    the stripper can match go, with the white space after them. *)
Lemma strip_exports_default (pre post expr : Py.str) :
  (∀ before, export_start before (pre ++ post) → before = pre) →
  Re.word_opt (last pre) = false → ExportDefault post expr →
  _strip_exports (pre ++ post) = pre ++ expr.
Proof.
  intros Honly Hprev (ws & ws' & Hpost & Hne & Hws & Hne' & Hws' & Hexpr).
  assert (Hclause : Re.remove export_clause_re (pre ++ post) = pre ++ post).
  { unfold Re.remove. rewrite <- (app_nil_r (pre ++ post)) at 1.
    rewrite pieces_no_match, kept_texts; [by rewrite app_nil_r|].
    intros a b mt rest' c Hjs Hb Heq Hmne Hm. rewrite app_nil_r in Heq.
    pose proof (clause_match_start _ _ _ _ Hm a rest') as Hstart.
    rewrite <- Heq, <- Hjs in Hstart. apply Honly in Hstart. subst a.
    apply app_inv_head in Hjs. subst b.
    apply export_clause_shape in Hm
      as [(ws1 & body & ws2 & semi & ws3 & -> & Hws1 & _) _].
    rewrite Hpost, <- !app_assoc in Heq. apply app_inv_head in Heq.
    apply (f_equal Py.lstrip) in Heq.
    change (Py.lit "default" ++ ws' ++ expr)
      with (100 :: Py.lit "efault" ++ ws' ++ expr) in Heq.
    change ([123] ++ body ++ [125] ++ ws2 ++ semi ++ ws3 ++ rest')
      with (123 :: body ++ [125] ++ ws2 ++ semi ++ ws3 ++ rest') in Heq.
    by rewrite !lstrip_spaces in Heq. }
  unfold _strip_exports. rewrite Hclause. unfold Re.remove.
  rewrite pieces_no_match, kept_texts.
  2:{ intros a b mt rest' c Hpre Hb Heq Hmne Hm.
      pose proof (default_match_start _ _ _ _ Hm a rest') as Hstart.
      rewrite <- Heq, app_assoc, <- Hpre in Hstart. apply Honly in Hstart.
      apply (f_equal length) in Hpre. rewrite Hstart, length_app in Hpre.
      destruct b; [done | simpl in Hpre; lia]. }
  f_equal. rewrite last_char_none.
  assert (Hsplit : post = (Py.lit "export" ++ ws ++ Py.lit "default" ++ ws')
                          ++ expr) by by rewrite Hpost, <- !app_assoc.
  rewrite Hsplit.
  rewrite (pieces_match _ _ _ []);
    [| done | rewrite <- !app_assoc; by apply export_default_complete].
  rewrite fmap_cons. cbn [concat Re.kept app].
  rewrite <- (app_nil_r expr) at 1.
  rewrite pieces_no_match, kept_texts; [by rewrite app_nil_r|].
  intros a b mt rest' c Hexpr' Hb Heq Hmne Hm. rewrite app_nil_r in Heq.
  pose proof (default_match_start _ _ _ _ Hm
                (pre ++ (Py.lit "export" ++ ws ++ Py.lit "default" ++ ws') ++ a)
                rest') as Hstart.
  assert (Hjs : pre ++ post
                = (pre ++ (Py.lit "export" ++ ws ++ Py.lit "default" ++ ws') ++ a)
                  ++ mt ++ rest').
  { rewrite Hsplit, Hexpr', Heq. by rewrite <- !app_assoc. }
  rewrite <- Hjs in Hstart. apply Honly in Hstart.
  apply (f_equal length) in Hstart. rewrite !length_app in Hstart.
  simpl in Hstart. lia.
Qed.

(** *** The rewriter and the end of the text *)

Lemma call_text_closes name ws1 hexs ws2 :
  ∃ m, call_text name ws1 hexs ws2 = m ++ [41].
Proof. unfold call_text. eexists. by rewrite !app_assoc. Qed.

Lemma pieces_no_paren : ∀ t prev,
  41 ∉ t → Re.pieces call_re prev t 0 = Re.Text <$> t.
Proof.
  induction t as [|x t IH]; intros prev Hno; [done|].
  rewrite pieces_no_call, fmap_cons, IH; [done | |].
  - by apply not_elem_of_cons in Hno as [_ ?].
  - intros name ws1 hexs ws2 rest Heq _. apply Hno. rewrite Heq.
    destruct (call_text_closes name ws1 hexs ws2) as [m ->].
    rewrite !elem_of_app, list_elem_of_singleton. auto.
Qed.

(** A text without closing parenthesis at the end of the input takes
    no part in a call: the pieces are those of the text before it, and
    its characters. *)
Lemma pieces_tail (tail : Py.str) (Hno : 41 ∉ tail) n :
  ∀ s, (length s ≤ n)%nat → ∀ prev,
  Re.pieces call_re prev (s ++ tail) 0
  = Re.pieces call_re prev s 0 ++ (Re.Text <$> tail).
Proof.
  induction n as [n IH] using lt_wf_ind. intros s Hn prev.
  destruct s as [|x s1]; [by apply pieces_no_paren|].
  destruct (call_or_not prev ((x :: s1) ++ tail))
    as [[=] | [(x' & s' & Heq & Hnc)
               | (name & ws1 & hexs & ws2 & rest & Heq & Hcall)]].
  - cbn [app] in *. rewrite !pieces_no_call; [| |done].
    + cbn [app]. f_equal. apply (IH (length s1)); [simpl in Hn; lia | done].
    + intros name ws1 hexs ws2 rest Heq' Hc.
      apply (Hnc name ws1 hexs ws2 (rest ++ tail)); [|done].
      by rewrite app_assoc, <- Heq'.
  - apply app_eq_inv in Heq as [(l & Hs & Hrest) | (l & Hct & Htail)].
    + rewrite Hs, <- app_assoc, !pieces_call by done.
      cbn [app]. f_equal. apply (IH (length l)); [|done].
      apply (f_equal length) in Hs. rewrite length_app in Hs.
      unfold call_text in Hs. rewrite !length_app in Hs. simpl in *. lia.
    + destruct l as [|y l].
      * rewrite app_nil_r in Hct. simpl in Htail. subst rest. rewrite <- Hct.
        rewrite pieces_call by done.
        rewrite <- (app_nil_r (call_text name ws1 hexs ws2)) at 2.
        rewrite pieces_call by done. cbn [Re.pieces app]. f_equal.
        by apply pieces_no_paren.
      * exfalso. apply Hno. rewrite Htail.
        destruct (call_text_closes name ws1 hexs ws2) as [m Hm].
        rewrite Hm in Hct.
        destruct l as [|z l _] using rev_ind.
        { apply app_inj_tail in Hct as [_ <-]. by left. }
        rewrite app_comm_cons, !app_assoc in Hct.
        apply app_inj_tail in Hct as [_ <-].
        rewrite app_comm_cons, !elem_of_app, list_elem_of_singleton. auto.
Qed.

Lemma sub_pieces_texts {S} (repl : Py.str → Re.caps → S → res (Py.str * S))
    (t : Py.str) : ∀ ps st,
  Re.sub_pieces repl (ps ++ (Re.Text <$> t)) st
  = match Re.sub_pieces repl ps st with
    | Ok (out, st') => Ok (out ++ t, st')
    | Raise e => Raise e
    end.
Proof.
  induction ps as [|[x | mt c] ps IH]; intros st.
  - cbn [app Re.sub_pieces]. induction t as [|x t IHt]; [done|].
    rewrite fmap_cons, sub_pieces_text, IHt. done.
  - cbn [app]. rewrite !sub_pieces_text, IH.
    by destruct (Re.sub_pieces repl ps st) as [[out st']|].
  - cbn [app]. rewrite !sub_pieces_match.
    destruct (repl mt c st) as [[new st1]|]; [|done]. rewrite IH.
    destruct (Re.sub_pieces repl ps st1) as [[out st2]|]; [|done].
    by rewrite app_assoc.
Qed.

(** [main] rewrites the text as read: an end of it without closing
    parenthesis, such as an export clause, is in the output as it is. *)
Lemma main_rewrite_tail (pre post : Py.str) (arr : list Py.str) (offset : Z) :
  41 ∉ post →
  main_rewrite (pre ++ post) arr offset
  = match rewrite_calls (_collect_aliases (pre ++ post)) arr offset pre with
    | Ok (out, cache) => Ok (out ++ post, cache)
    | Raise e => Raise e
    end.
Proof.
  intros Hno. unfold main_rewrite, rewrite_calls, Re.sub_with.
  by rewrite (pieces_tail post Hno (length pre) pre (le_n _)), sub_pieces_texts.
Qed.

(** *** The places of the text where the stripper can match *)

Lemma export_start_here_spec (ws after : Py.str) :
  forallb Py.isspace ws = true →
  (∃ r, after = 123 :: r) ∨ ws ≠ [] ∧ (∃ r, after = Py.lit "default" ++ r) →
  export_start_here (Py.lit "export" ++ ws ++ after) = true.
Proof.
  intros Hws Hafter. unfold export_start_here.
  rewrite starts_with_app. cbn [andb].
  change (drop 6 (Py.lit "export" ++ ws ++ after)) with (ws ++ after).
  cbv zeta. destruct Hafter as [[r ->] | [Hne [r ->]]].
  - by rewrite lstrip_spaces.
  - change (Py.lit "default" ++ r) with (100 :: Py.lit "efault" ++ r).
    rewrite lstrip_spaces by done.
    change (100 :: Py.lit "efault" ++ r) with (Py.lit "default" ++ r).
    rewrite starts_with_app, andb_true_r. cbn [Py.starts_with Z.eqb orb].
    apply negb_true_iff, Nat.eqb_neq. rewrite !length_app.
    destruct ws; [done | simpl; lia].
Qed.

Lemma export_starts_S js i n :
  export_starts js i (S n)
  = (if export_start_here js then [i] else [])
    ++ match js with
       | [] => []
       | _ :: js' => export_starts js' (S i) n
       end.
Proof. reflexivity. Qed.

Lemma export_starts_sound : ∀ before js i n,
  export_start before js → (length before < n)%nat →
  (i + length before)%nat ∈ export_starts js i n.
Proof.
  induction before as [|x before IH]; intros js i n Hstart Hn.
  - destruct n as [|n]; [lia|].
    destruct Hstart as (ws & after & -> & Hws & Hafter).
    change ([] ++ ?l) with l.
    rewrite export_starts_S, export_start_here_spec by done.
    apply elem_of_app. left. simpl. rewrite Nat.add_0_r. by left.
  - destruct n as [|n]; [simpl in Hn; lia|].
    destruct Hstart as (ws & after & -> & Hws & Hafter).
    change ((x :: before) ++ ?l) with (x :: (before ++ l)).
    rewrite export_starts_S. apply elem_of_app. right.
    replace (i + length (x :: before))%nat with (S i + length before)%nat
      by (simpl; lia).
    apply IH; [by exists ws, after | simpl in Hn; lia].
Qed.

Lemma export_start_inside before js :
  export_start before js → (length before < S (length js))%nat.
Proof.
  intros (ws & after & -> & _). rewrite length_app. lia.
Qed.

Lemma export_start_check (pre post : Py.str) :
  (∀ i, i ∈ export_starts (pre ++ post) 0 (S (length (pre ++ post))) →
        (length pre ≤ i)%nat) →
  ∀ before, export_start before (pre ++ post) →
            (length pre ≤ length before)%nat.
Proof.
  intros Hall before Hstart. apply Hall.
  apply (export_starts_sound before _ 0%nat); [done|].
  by apply export_start_inside.
Qed.

Lemma export_start_only (pre post : Py.str) :
  export_starts (pre ++ post) 0 (S (length (pre ++ post))) = [length pre] →
  ∀ before, export_start before (pre ++ post) → before = pre.
Proof.
  intros Hall before Hstart.
  pose proof (export_starts_sound before _ 0%nat _ Hstart
                (export_start_inside _ _ Hstart)) as Hin.
  rewrite Hall in Hin. apply list_elem_of_singleton in Hin. simpl in Hin.
  destruct Hstart as (ws & after & Heq & _).
  by apply app_inj_1 in Heq as [? _].
Qed.

(** C2 (amended): [main] does not strip: it collects the aliases from,
    and rewrites the calls in, the text as read, so that an export
    clause at its end (a text without closing parenthesis) is in the
    output as it is.  The helper [_strip_exports], which [main] does not
    call, keeps the text [pre] before the first place where the word
    [export] is followed by an opening brace or by the word [default],
    and with it every balanced region that the scanner returns from
    [pre]; it removes an export clause [export { .. };] that ends the
    text after [pre], and the words [export default] of an
    [export default <expr>] that ends it, leaving the expression. *)
Theorem strip_exports_keeps_scanned_regions (pre post : Py.str) :
  (∀ before, export_start before (pre ++ post) →
             (length pre ≤ length before)%nat) →
  (41 ∉ post → ∀ arr offset,
     main_rewrite (pre ++ post) arr offset
     = match rewrite_calls (_collect_aliases (pre ++ post)) arr offset pre with
       | Ok (out, cache) => Ok (out ++ post, cache)
       | Raise e => Raise e
       end)
  ∧ (∃ post', _strip_exports (pre ++ post) = pre ++ post')
  ∧ (∀ start o c region e,
       0 ≤ start → e ≤ Py.len pre →
       _extract_balanced (pre ++ post) start o c = Ok (region, e) →
       _extract_balanced (_strip_exports (pre ++ post)) start o c
       = Ok (region, e))
  ∧ (Re.word_opt (last pre) = false → ExportClause post →
     _strip_exports (pre ++ post) = pre)
  ∧ (Re.word_opt (last pre) = false →
     (∀ before, export_start before (pre ++ post) → before = pre) →
     ∀ expr, ExportDefault post expr →
             _strip_exports (pre ++ post) = pre ++ expr).
Proof.
  intros Hfirst.
  split; [intros Hno arr offset; by apply main_rewrite_tail|].
  destruct (strip_exports_prefix pre post Hfirst) as [post' Hstrip].
  split; [by exists post'|]. split.
  - intros start o c region e Hs He. rewrite Hstrip.
    by apply extract_balanced_prefix.
  - split; [by apply strip_exports_clause|].
    intros Hprev Honly expr Hdefault. by apply strip_exports_default.
Qed.
End StripAll.

(* ================================================================= *)
(** * The properties on concrete inputs *)

(** C2 (fails on the code): the sample worker ends in an export clause;
    [main] hands it to the recognisers as it is, and they read the first
    string of the table with the words [export default] in it; had the
    text been stripped first, the string would be "x": the stripper
    changes the body of the function [a], where the scanner finds the
    array. *)
Lemma strip_exports_changes_function_body :
  sample_worker
  = take 327 sample_worker ++ Py.lit "export{Q as default};"
  ∧ table_of (@main_recognise ascii_runtime sample_worker)
    = Some [Py.lit "export default x"; Py.lit "14"; Py.lit "z"]
  ∧ table_of (@main_recognise ascii_runtime
                (@_strip_exports ascii_runtime sample_worker))
    = Some [Py.lit "x"; Py.lit "14"; Py.lit "z"]
  ∧ fst <$> _extract_balanced sample_worker 252 123 125
    = Ok (Py.lit "{const r=[" ++ [dquote] ++ Py.lit "export default x"
          ++ [dquote] ++ Py.lit ",'14','z'];a=function(){return r;};return a();}")
  ∧ fst <$> _extract_balanced (@_strip_exports ascii_runtime sample_worker)
              252 123 125
    = Ok (Py.lit "{const r=[" ++ [dquote] ++ Py.lit "x"
          ++ [dquote] ++ Py.lit ",'14','z'];a=function(){return r;};return a();}").
Proof. repeat split; by vm_compute. Qed.

Lemma strip_exports_keeps_scanned_regions_witness :
  let pre := Py.lit "function f(){return g(0x1);}" in
  let post := Py.lit "export{f as default};" in
  let pre' := Py.lit "function f(){}" in
  let post' := Py.lit "export default f;" in
  (∀ before, export_start before (pre ++ post) →
             (length pre ≤ length before)%nat)
  ∧ @main_rewrite ascii_runtime (pre ++ post) [Py.lit "x"] 0
    = Ok (pre ++ post, ∅)
  ∧ @_strip_exports ascii_runtime (pre ++ post) = pre
  ∧ _extract_balanced (@_strip_exports ascii_runtime (pre ++ post)) 12 123 125
    = Ok (Py.lit "{return g(0x1);}", 28)
  ∧ (∀ before, export_start before (pre' ++ post') → before = pre')
  ∧ @_strip_exports ascii_runtime (pre' ++ post') = Py.lit "function f(){}f;".
Proof.
  intros pre post pre' post'.
  assert (Hfirst : ∀ before, export_start before (pre ++ post) →
                             (length pre ≤ length before)%nat).
  { apply export_start_check. intros i Hi. vm_compute in Hi.
    apply list_elem_of_singleton in Hi as ->. vm_compute. lia. }
  assert (Honly : ∀ before, export_start before (pre' ++ post') →
                            before = pre')
    by (apply export_start_only; reflexivity).
  assert (Hfirst' : ∀ before, export_start before (pre' ++ post') →
                              (length pre' ≤ length before)%nat)
    by (by intros before ->%Honly).
  destruct (@strip_exports_keeps_scanned_regions ascii_runtime pre post Hfirst)
    as (Hmain & _ & Hregions & Hclause & _).
  destruct (@strip_exports_keeps_scanned_regions ascii_runtime pre' post' Hfirst')
    as (_ & _ & _ & _ & Hdefault).
  split; [exact Hfirst|]. split.
  { rewrite Hmain; [by vm_compute|]. intros Hin.
    by repeat (apply elem_of_cons in Hin as [Hin | Hin]; [done|]);
      apply elem_of_nil in Hin. }
  split.
  { apply Hclause; [reflexivity|].
    exists [], (Py.lit "f as default"), [], [59], [].
    repeat split; auto. }
  split.
  { apply Hregions; [lia | by vm_compute | reflexivity]. }
  split; [exact Honly|].
  apply (Hdefault eq_refl Honly (Py.lit "f;")).
  exists [32], [32]. repeat split; try done. by intros x r [= <- _].
Defined.

(** C3 (fails on the code): the expression 0x1/0x31*0x31 divides two
    integers; Python evaluates it in binary floating point, to the float
    just below 1, which is not equal to the target 1, while the exact
    value is 1. *)
Lemma eval_integer_division_rounds :
  let e := Bin Mul (Bin Div (Lit 1) (Lit 49)) (Lit 49) in
  @eval_py ascii_runtime [] 0 e
  = Ok (VFloat (S754_finite false 9007199254740991 (-53)))
  ∧ @eval_exact ascii_runtime [] 0 e = Ok (XNum (inject_Z 1))
  ∧ @converged ascii_runtime e 1 0 [] = false.
Proof. by vm_compute. Qed.

Lemma eval_exact_without_integer_division_witness :
  let e := Bin Div (Neg (ParseInt (DecodeCall (Lit 1)))) (Lit 2) in
  let arr := [Py.lit "14px"] in
  fraction_divisions e = true
  ∧ @eval_py ascii_runtime arr 1 e = Ok (VFraction (inject_Z (-7)))
  ∧ @eval_exact ascii_runtime arr 1 e = Ok (XNum (inject_Z (-7)))
  ∧ equals_target (VFraction (inject_Z (-7))) (-7) = true.
Proof.
  intros e arr.
  destruct (@eval_exact_without_integer_division ascii_runtime arr 1 e (-7)
              (VFraction (inject_Z (-7))) eq_refl eq_refl)
    as (x & Hx & Hex & Heq).
  split; [reflexivity|]. split; [reflexivity|]. split; [|reflexivity].
  injection Hx as <-. exact Hex.
Defined.

Lemma literal_round_trip_witness :
  let s := Py.lit "a\b" ++ [dquote; 10; 1; 233; 8232] in
  code_points s
  ∧ @_decode_js_string_literal ascii_runtime (json_dumps s) = Ok s.
Proof.
  intros s.
  assert (Hs : code_points s).
  { change s with [97; 92; 98; 34; 10; 1; 233; 8232].
    repeat (constructor; [lia|]). constructor. }
  split; [exact Hs|].
  exact (proj1 (@literal_round_trip ascii_runtime s Hs)).
Defined.

Lemma rewrite_without_alias_calls_is_noop_witness :
  let src := Py.lit "f(b(0x1), c[0x2])" in
  let aliases : gset Py.str := {[canonical]} in
  @no_alias_call ascii_runtime aliases src
  ∧ @rewrite_calls ascii_runtime aliases [Py.lit "x"] 0 src = Ok (src, ∅).
Proof.
  intros src aliases.
  assert (Hno : @no_alias_call ascii_runtime aliases src).
  { intros pre name ws1 hexs ws2 post Heq ->%elem_of_singleton _.
    assert (Hin : 81 ∈ src).
    { rewrite Heq. apply elem_of_app. right. apply elem_of_app. left.
      by left. }
    by repeat (apply elem_of_cons in Hin as [Hin | Hin]; [done|]);
      apply elem_of_nil in Hin. }
  split; [exact Hno|].
  exact (@rewrite_without_alias_calls_is_noop ascii_runtime aliases
           [Py.lit "x"] 0 src Hno).
Defined.

(** ** The further properties on concrete inputs *)

Lemma rotation_returns_first_converging_shift_witness :
  let check := @converged ascii_runtime (ParseInt (DecodeCall (Lit 1))) 14 1 in
  let arr := [Py.lit "x"; Py.lit "14"; Py.lit "z"] in
  rotate_until check arr = (Ok [Py.lit "14"; Py.lit "z"; Py.lit "x"], 2%nat)
  ∧ ∃ k, (k = 0 ∨ k < length arr)%nat
         ∧ [Py.lit "14"; Py.lit "z"; Py.lit "x"] = cyclic_shift k arr
         ∧ 2%nat = S k.
Proof.
  intros check arr.
  assert (Hrun : rotate_until check arr
                 = (Ok [Py.lit "14"; Py.lit "z"; Py.lit "x"], 2%nat))
    by (vm_compute; reflexivity).
  split; [exact Hrun|].
  destruct (rotation_returns_first_converging_shift check arr _ _ Hrun)
    as (k & Hk & Hshift & _ & _ & Hn & _).
  exists k. split; [exact Hk|]. split; [exact Hshift | exact Hn].
Defined.

Lemma rotation_fails_iff_no_shift_converges_witness :
  let check := @converged ascii_runtime (ParseInt (DecodeCall (Lit 1))) 14 1 in
  let arr := [Py.lit "x"; Py.lit "y"] in
  arr ≠ []
  ∧ ((∀ k, (k < length arr)%nat → check (cyclic_shift k arr) = false)
     ↔ rotate_until check arr
       = (Raise (RuntimeError RotationDidNotConverge), Z.to_nat 10000)).
Proof.
  intros check arr.
  assert (Harr : arr ≠ []) by discriminate.
  split; [exact Harr|].
  exact (rotation_fails_iff_no_shift_converges check arr Harr).
Defined.

Lemma decode_after_rotation_witness :
  let arr := [Py.lit "a"; Py.lit "b"; Py.lit "c"] in
  0 ≤ 2 - 1 < Py.len arr
  ∧ decode (rotated 5 arr) 1 2 = decode arr 1 1.
Proof.
  intros arr.
  assert (Hn : 0 ≤ 2 - 1 < Py.len arr) by (unfold Py.len; simpl; lia).
  split; [exact Hn|].
  exact (decode_after_rotation arr 1 5 2 Hn).
Defined.

Lemma decode_plain_literal_witness :
  let body := Py.lit "it's" in
  is_quote dquote = true ∧ Forall (λ c, c ≠ backslash) body
  ∧ @_decode_js_string_literal ascii_runtime (dquote :: body ++ [dquote])
    = Ok body.
Proof.
  intros body.
  assert (Hbody : Forall (λ c, c ≠ backslash) body).
  { change body with [105; 116; 39; 115].
    repeat (constructor; [discriminate|]). constructor. }
  split; [reflexivity|]. split; [exact Hbody|].
  exact (@decode_plain_literal ascii_runtime dquote body eq_refl Hbody).
Defined.

Lemma decode_literal_length_witness :
  let literal := [squote] ++ Py.lit "a\n\x41" ++ [squote] in
  @_decode_js_string_literal ascii_runtime literal = Ok [97; 10; 65]
  ∧ Py.len [97; 10; 65] ≤ Py.len literal - 2.
Proof.
  intros literal.
  assert (Hs : @_decode_js_string_literal ascii_runtime literal
               = Ok [97; 10; 65]) by reflexivity.
  split; [exact Hs|].
  exact (@decode_literal_length ascii_runtime literal _ Hs).
Defined.

Lemma decode_hex_escapes_witness :
  Re.hex 52 = true ∧ Re.hex 49 = true ∧ Re.hex 48 = true ∧ Re.hex 97 = true
  ∧ @decode_body ascii_runtime ([backslash] ++ Py.lit "x41!") = Ok (Py.lit "A!")
  ∧ @decode_body ascii_runtime ([backslash] ++ Py.lit "u410a!")
    = Ok [16650; 33].
Proof.
  destruct (@decode_hex_escapes ascii_runtime 52 49 48 97 [33]
              eq_refl eq_refl eq_refl eq_refl) as [Hx Hu].
  do 4 (split; [reflexivity|]). split; [exact Hx | exact Hu].
Defined.

Lemma decode_code_point_escape_witness :
  let hexs := Py.lit "1F600" in
  hexs ≠ [] ∧ forallb Re.hex hexs = true ∧ hex_value hexs < 2147483648
  ∧ @decode_body ascii_runtime (Py.lit "\u{1F600}!") = Ok [128512; 33].
Proof.
  intros hexs.
  assert (Hne : hexs ≠ []) by discriminate.
  assert (Hsmall : hex_value hexs < 2147483648) by reflexivity.
  split; [exact Hne|]. split; [reflexivity|]. split; [exact Hsmall|].
  exact (@decode_code_point_escape ascii_runtime hexs [33] Hne eq_refl Hsmall).
Defined.

Lemma extract_bootstrap_result_witness :
  let b := {| iife_end := 190; arr_fn_name := Py.lit "a"; target := 7;
              alias := Py.lit "un";
              k_expr_js :=
                Py.lit "-parseInt(un(0x1))/0x1+parseInt(un(0x2))/0x2" |} in
  @_extract_bootstrap ascii_runtime sample_worker = Ok b
  ∧ ∃ pre iife_expr tail,
      sample_worker = pre ++ iife_expr ++ tail
      ∧ iife_end b = Py.len pre + Py.len iife_expr
      ∧ 0 ≤ target b.
Proof.
  intros b.
  assert (Hb : @_extract_bootstrap ascii_runtime sample_worker = Ok b)
    by (vm_compute; reflexivity).
  split; [exact Hb|].
  destruct (@extract_bootstrap_result ascii_runtime sample_worker b Hb)
    as (pre & iife_expr & tail & Hjs & _ & _ & Hend & _ & Htarget & _).
  exists pre, iife_expr, tail.
  split; [exact Hjs|]. split; [exact Hend | exact Htarget].
Defined.

Lemma extract_function_result_witness :
  let src := Py.lit "function a(){const r=[" ++ [dquote]
             ++ Py.lit "export default x" ++ [dquote]
             ++ Py.lit ",'14','z'];a=function(){return r;};return a();}" in
  _extract_function sample_worker (Py.lit "a") = Ok src
  ∧ ∃ pre tail, sample_worker = pre ++ src ++ tail
                ∧ Py.find sample_worker (function_header (Py.lit "a")) 0
                  = Py.len pre.
Proof.
  intros src.
  assert (Hsrc : _extract_function sample_worker (Py.lit "a") = Ok src)
    by (vm_compute; reflexivity).
  split; [exact Hsrc|].
  destruct (extract_function_result sample_worker (Py.lit "a") src Hsrc)
    as (pre & head & body & tail & Hjs & _ & Hfind & _).
  exists pre, tail. split; [exact Hjs | exact Hfind].
Defined.

Lemma extract_q_offset_without_brace_witness :
  let js := Py.lit "{}function Q(p)" in
  js = Py.lit "{}" ++ decoder_header ++ Py.lit "p)"
  ∧ Py.find js decoder_header 0 = Py.len (Py.lit "{}")
  ∧ (123 ∉ Py.lit "p)")
  ∧ @_extract_q_offset ascii_runtime js = Raise (ValueError ExpectedOpen).
Proof.
  intros js.
  assert (Hno : 123 ∉ Py.lit "p)").
  { intros Hin.
    by repeat (apply elem_of_cons in Hin as [Hin | Hin]; [discriminate|]);
      apply elem_of_nil in Hin. }
  split; [reflexivity|]. split; [reflexivity|]. split; [exact Hno|].
  destruct (@extract_q_offset_without_brace ascii_runtime js (Py.lit "{}")
              (Py.lit "p)") eq_refl eq_refl Hno) as [Hr | Hr];
    [discriminate Hr | exact Hr].
Defined.

Lemma extract_q_offset_result_witness :
  @_extract_q_offset ascii_runtime sample_worker = Ok 1 ∧ 0 ≤ 1.
Proof.
  assert (Hn : @_extract_q_offset ascii_runtime sample_worker = Ok 1)
    by (vm_compute; reflexivity).
  split; [exact Hn|].
  exact (proj1 (@extract_q_offset_result ascii_runtime sample_worker 1 Hn)).
Defined.

Lemma parse_elements_terminates_witness :
  let inner := Py.lit "'a', 7" in
  (93 ∉ inner)
  ∧ @parse_elements ascii_runtime inner [93] Between ≠ Loops.
Proof.
  intros inner.
  assert (Hno : 93 ∉ inner).
  { intros Hin.
    by repeat (apply elem_of_cons in Hin as [Hin | Hin]; [discriminate|]);
      apply elem_of_nil in Hin. }
  split; [exact Hno|].
  exact (@parse_elements_terminates ascii_runtime inner [93] Between Hno).
Defined.

Lemma parse_elements_loops_on_bracket_witness :
  let pre := Py.lit "x[0" in
  Forall (λ c, is_quote c = false ∧ c ≠ 93) pre
  ∧ @parse_elements ascii_runtime (Py.lit "x[0],1") [93] Between = Loops.
Proof.
  intros pre.
  assert (Hpre : Forall (λ c, is_quote c = false ∧ c ≠ 93) pre).
  { change pre with [120; 91; 48].
    repeat (constructor; [split; [reflexivity | discriminate]|]).
    constructor. }
  split; [exact Hpre|].
  exact (@parse_elements_loops_on_bracket ascii_runtime pre (Py.lit ",1")
           [93] Hpre).
Defined.

Lemma parse_elements_decodes_literals_witness :
  let literals := [Py.lit "'a'"; [dquote] ++ Py.lit "b\n" ++ [dquote]] in
  Forall QuotedLiteral literals
  ∧ @parse_elements ascii_runtime (comma_separated literals) [93] Between
    = Ends (Ok [Py.lit "a"; [98; 10]]).
Proof.
  intros literals.
  assert (Hlits : Forall QuotedLiteral literals).
  { constructor.
    - exists squote, (Py.lit "a"). split; [reflexivity|].
      split; [|reflexivity].
      apply sb_chr; [discriminate | discriminate | apply sb_nil].
    - constructor; [|constructor].
      exists dquote, (Py.lit "b\n"). split; [reflexivity|].
      split; [|reflexivity].
      apply sb_chr; [discriminate | discriminate |].
      apply sb_esc, sb_nil. }
  split; [exact Hlits|].
  exact (proj1 (@parse_elements_decodes_literals ascii_runtime literals [93]
                  Hlits)).
Defined.

Lemma parse_elements_round_trip_witness :
  let table := [Py.lit "a"; [98; 10; 34]] in
  Forall code_points table
  ∧ @parse_elements ascii_runtime (comma_separated (json_dumps <$> table))
      [93] Between
    = Ends (Ok table).
Proof.
  intros table.
  assert (Htable : Forall code_points table).
  { change table with [[97]; [98; 10; 34]].
    repeat (constructor; [repeat (constructor; [lia|]); constructor|]).
    constructor. }
  split; [exact Htable|].
  exact (@parse_elements_round_trip ascii_runtime table [93] Htable).
Defined.

Lemma extract_balanced_in_context_witness :
  let js := Py.lit "f{a}" in
  0 ≤ 1 ∧ _extract_balanced js 1 123 125 = Ok (Py.lit "{a}", 4)
  ∧ _extract_balanced (Py.lit "x(" ++ js ++ Py.lit "}") 3 123 125
    = Ok (Py.lit "{a}", 6).
Proof.
  intros js.
  assert (Hstart : 0 ≤ 1) by lia.
  assert (Hscan : _extract_balanced js 1 123 125 = Ok (Py.lit "{a}", 4))
    by reflexivity.
  split; [exact Hstart|]. split; [exact Hscan|].
  exact (extract_balanced_in_context (Py.lit "x(") js (Py.lit "}") 1 123 125
           _ _ Hstart Hscan).
Defined.

Lemma collect_aliases_declared_witness :
  let js := Py.lit "const a = Q;" in
  Py.lit "a" ∈ @_collect_aliases ascii_runtime js
  ∧ (Py.lit "a" = canonical
     ∨ ∃ name, name ∈ @_collect_aliases ascii_runtime js
               ∧ @is_identifier ascii_runtime name = true).
Proof.
  intros js.
  assert (Ha : Py.lit "a" ∈ @_collect_aliases ascii_runtime js).
  { unfold _collect_aliases. apply alias_loop_reaches.
    apply (reaches_edge _ _ (Py.lit "Q")); [|apply reaches_root].
    replace (@alias_edges ascii_runtime js)
      with [(Py.lit "a", Py.lit "Q")] by (vm_compute; reflexivity).
    apply elem_of_cons. left. reflexivity. }
  split; [exact Ha|].
  destruct (@collect_aliases_declared ascii_runtime js (Py.lit "a") Ha)
    as [Hq | (name & _ & _ & _ & _ & _ & Hname & _ & Hid & _)].
  - left. exact Hq.
  - right. exists name. split; [exact Hname | exact Hid].
Defined.

Lemma parse_int_decimal_prefix_witness :
  let text := Py.lit " -14px " in
  Py.strip text = [45] ++ Py.lit "14" ++ Py.lit "px"
  ∧ forallb is_decimal_digit (Py.lit "14") = true
  ∧ Py.len (Py.lit "14") ≤ 4300
  ∧ @parse_int_text ascii_runtime text = Ok (inject_Z (- 14)).
Proof.
  intros text.
  assert (Hlen : Py.len (Py.lit "14") ≤ 4300) by (unfold Py.len; simpl; lia).
  assert (Hhead : ∃ d ds', Py.lit "14" = d :: ds' ∧ d ≠ 48)
    by (exists 49, [52]; split; [reflexivity | discriminate]).
  assert (Hrest : ∀ x rest', Py.lit "px" = x :: rest' →
            @Re.digit ascii_runtime x = false)
    by (intros x rest' [= <- _]; reflexivity).
  split; [reflexivity|]. split; [reflexivity|]. split; [exact Hlen|].
  exact (@parse_int_decimal_prefix ascii_runtime text [45] (Py.lit "14")
           (Py.lit "px") eq_refl (or_intror (or_intror eq_refl)) eq_refl
           Hhead Hlen Hrest).
Defined.

Lemma parse_int_leading_zero_witness :
  let text := Py.lit "012" in
  Py.strip text = [] ++ 48 :: Py.lit "12" ++ []
  ∧ forallb is_decimal_digit (Py.lit "12") = true
  ∧ dec_value (Py.lit "12") ≠ 0
  ∧ @parse_int_text ascii_runtime text = Raise (ValueError InvalidIntLiteral).
Proof.
  intros text.
  assert (Hvalue : dec_value (Py.lit "12") ≠ 0) by discriminate.
  assert (Hrest : ∀ x rest', @nil Z = x :: rest' →
            @Re.digit ascii_runtime x = false)
    by (intros x rest' Hnil; discriminate Hnil).
  split; [reflexivity|]. split; [reflexivity|]. split; [exact Hvalue|].
  exact (@parse_int_leading_zero ascii_runtime text [] (Py.lit "12") []
           eq_refl (or_introl eq_refl) eq_refl Hvalue Hrest).
Defined.

Lemma k_expr_one_letter_alias_witness :
  let b := {| iife_end := 0; arr_fn_name := Py.lit "a"; target := 7;
              alias := Py.lit "p"; k_expr_js := Py.lit "parseInt(p(0x1))" |} in
  alias b = [112] ∧ 112 ∈ Py.lit "parse_int" ∧ (112 ∉ Py.lit "decode")
  ∧ k_expr b = Py.lit "decodearse_int(decode(0x1))"
  ∧ ¬ occurs (Py.lit "parse_int") (k_expr b).
Proof.
  intros b.
  assert (Hin : 112 ∈ Py.lit "parse_int") by (apply elem_of_cons; left; reflexivity).
  assert (Hno : 112 ∉ Py.lit "decode").
  { intros Hd.
    by repeat (apply elem_of_cons in Hd as [Hd | Hd]; [discriminate|]);
      apply elem_of_nil in Hd. }
  split; [reflexivity|]. split; [exact Hin|]. split; [exact Hno|].
  split; [reflexivity|].
  exact (proj2 (k_expr_one_letter_alias b 112 eq_refl Hin Hno)).
Defined.

Lemma rewrite_single_call_witness :
  let aliases : gset Py.str := {[Py.lit "un"]} in
  let arr := [Py.lit "x"; Py.lit "y"] in
  Py.lit "un" ∈ aliases
  ∧ @call_shape ascii_runtime (Py.lit "un") [32] (Py.lit "2") []
  ∧ @rewrite_calls ascii_runtime aliases arr 1 (Py.lit "un( 0x2)")
    = Ok ([dquote] ++ Py.lit "y" ++ [dquote], {[2 := Py.lit "y"]}).
Proof.
  intros aliases arr.
  assert (Hin : Py.lit "un" ∈ aliases) by (apply elem_of_singleton; reflexivity).
  assert (Hshape : @call_shape ascii_runtime (Py.lit "un") [32] (Py.lit "2") [])
    by (repeat split; (reflexivity || discriminate)).
  split; [exact Hin|]. split; [exact Hshape|].
  exact (@rewrite_single_call ascii_runtime aliases arr 1 (Py.lit "un") [32]
           (Py.lit "2") [] Hin Hshape eq_refl).
Defined.

Lemma rewrite_keeps_dollar_call_witness :
  let aliases : gset Py.str := {[Py.lit "$a"]} in
  let src := Py.lit "$a(0x1)" in
  @call_shape ascii_runtime (36 :: Py.lit "a") [] (Py.lit "1") []
  ∧ (∀ name, name `suffix_of` Py.lit "a" → name ∉ aliases)
  ∧ @rewrite_calls ascii_runtime aliases [Py.lit "x"] 1 src = Ok (src, ∅).
Proof.
  intros aliases src.
  assert (Hshape : @call_shape ascii_runtime (36 :: Py.lit "a") []
                     (Py.lit "1") [])
    by (repeat split; (reflexivity || discriminate)).
  assert (Hsuffix : ∀ name, name `suffix_of` Py.lit "a" → name ∉ aliases).
  { intros name [k Hk] Hname. apply elem_of_singleton in Hname.
    rewrite Hname in Hk. apply (f_equal length) in Hk.
    rewrite length_app in Hk. simpl in Hk. lia. }
  split; [exact Hshape|]. split; [exact Hsuffix|].
  exact (@rewrite_keeps_dollar_call ascii_runtime aliases [Py.lit "x"] 1
           (Py.lit "a") [] (Py.lit "1") [] Hshape Hsuffix).
Defined.
